(** * Chess vision trainer: the game machine of [src/machines/gameMachine.ts]

    A shallow embedding of the geometry helpers, the round generator, the
    accuracy scorer and the XState machine [gameMachine], followed by the
    properties of the session engine.

    Conventions of the embedding.
    - JavaScript numbers that hold counters and indices are [Z] (or [nat]
      for lengths); the draws of [Math.random()] and the target percentage
      are rationals [Q]. The accuracy is computed as the source computes it,
      in double precision: each division and multiplication of the scorer
      gives the double nearest to the exact result ([double]), held as the
      rational it stands for.
    - A one-character string is handled through its UTF-16 code unit, as the
      source does with [charCodeAt] and [String.fromCharCode]; square names
      are [string]s.
    - [Math.random] is a sequence of draws, a [RandomSource], together with
      the number of calls made so far, which every call advances.
    - The machine is embedded as its declaration (the nodes, their [on],
      [entry] and [initial] clauses, the named actions and guards) and an
      interpreter of one event: the first enabled transition of the active
      atomic state or of its nearest ancestor is taken, its actions run in
      order on the context, then the entry actions of the nodes entered.
      A transition to a descendant or sibling does not re-enter the
      source's ancestors.
    - The announcements, the tick actor and the inspector do not change the
      context; ticks and the delayed [after] event are events delivered from
      outside.
    - A run that throws a [TypeError], that would let [undefined] flow into a
      position the TypeScript types declare defined, or whose retry loop is
      cut by the iteration bound of the model, ends in [Fault];
      [reachable_steps_safe] shows that a session only meets the last kind. *)

From Stdlib Require Import ZArith QArith Qround Qpower Lqa String Ascii List Lia Bool.
From Stdlib Require PrimFloat FloatOps SpecFloat Uint63.
From stdpp Require Import base option list gmap strings.

Local Open Scope Z_scope.
Local Open Scope string_scope.
Local Open Scope list_scope.

(** ** Results of runs *)

Inductive fault : Set :=
| TypeError   (* a property of [undefined] is read *)
| Undefined   (* [undefined] reaches a position typed as defined *)
| OutOfFuel.  (* a [while] loop of the source exceeds the model's bound *)

Inductive run (A : Type) : Type :=
| Done (a : A)
| Fault (f : fault).
Arguments Done {A} a.
Arguments Fault {A} f.

Definition run_bind {A B} (m : run A) (k : A -> run B) : run B :=
  match m with
  | Done a => k a
  | Fault f => Fault f
  end.

Notation "'do' x <- m ; k" := (run_bind m (fun x => k))
  (at level 10, x name, m at level 100, k at level 200).
Notation "'do2' x , y <- m ; k" := (run_bind m (fun xy => let '(x, y) := xy in k))
  (at level 10, x name, y name, m at level 100, k at level 200).

Definition of_option {A} (o : option A) (f : fault) : run A :=
  match o with
  | Some a => Done a
  | None => Fault f
  end.

(** ** Types of the source *)

Inductive SquareColor : Set := light | dark.

Inductive TrialOutcome : Set := hit | falseAlarm | correctRejection | miss.

(** The only response value, ["match"]. *)
Inductive Response : Set := match_.

Inductive Piece : Set := knight | bishop.

Record Trial : Set := mkTrial {
  stimulus : string;
  isTarget : bool;
  userResponse : option Response;
  outcome : option TrialOutcome
}.

Record Round : Set := mkRound {
  round_piecePositionForRound : string;
  trials : list Trial
}.

(** ** Characters and strings *)

Definition charCode (c : ascii) : Z := Z.of_N (N_of_ascii c).

(** [String.fromCharCode] keeps the low 16 bits of its argument. *)
Definition fromCharCode (n : Z) : Z := n mod 65536.

Definition unitChar (u : Z) : ascii := ascii_of_N (Z.to_N u).

(** [const [file, rank] = position.split("")], with both parts then
    dereferenced: a position shorter than two characters throws. *)
Definition splitFileRank (position : string) : run (ascii * ascii) :=
  match position with
  | String file (String rank _) => Done (file, rank)
  | _ => Fault TypeError
  end.

(** [array.includes(x)] on an array of strings. *)
Fixpoint includes (array : list string) (x : string) : bool :=
  match array with
  | [] => false
  | y :: rest => if String.eqb y x then true else includes rest x
  end.

(** ** Square colours *)

Definition files : string := "abcdefgh".
Definition ranks : string := "12345678".

Definition chars (s : string) : list ascii := list_ascii_of_string s.

(** [s.indexOf(c)] for a character [c]; [-1] when absent. *)
Fixpoint indexOfFrom (i : Z) (s : list ascii) (c : ascii) : Z :=
  match s with
  | [] => -1
  | d :: rest => if Ascii.eqb d c then i else indexOfFrom (i + 1) rest c
  end.

Definition indexOf (s : string) (c : ascii) : Z := indexOfFrom 0 (chars s) c.

(** The object built by the two nested loops, as its entries in insertion
    order (string keys keep that order in [Object.keys]). *)
Definition generateSquareColors : list (string * SquareColor) :=
  flat_map (fun file =>
    map (fun rank =>
      let squareName := String file (String rank "") in
      let fileIndex := indexOf files file in
      let rankIndex := indexOf ranks rank in
      (squareName,
       if Z.eqb ((fileIndex + rankIndex) mod 2) 0 then dark else light))
      (chars ranks))
    (chars files).

Definition squareColors : list (string * SquareColor) :=
  Eval vm_compute in generateSquareColors.

Fixpoint assoc {A} (k : string) (l : list (string * A)) : option A :=
  match l with
  | [] => None
  | (k', v) :: rest => if String.eqb k' k then Some v else assoc k rest
  end.

(** What reading a property of a plain object gives: the value of an own
    key, else the member of that name inherited from [Object.prototype],
    else [undefined]. *)
Inductive Member (A : Type) : Type :=
| own (value : A)
| inherited (name : string)
| absent.

Arguments own {A} value.
Arguments inherited {A} name.
Arguments absent {A}.

(** The names that [Object.prototype] defines. *)
Definition Object_prototype : list string :=
  ["constructor"; "hasOwnProperty"; "isPrototypeOf"; "propertyIsEnumerable";
   "toLocaleString"; "toString"; "valueOf"; "__proto__";
   "__defineGetter__"; "__defineSetter__"; "__lookupGetter__";
   "__lookupSetter__"].

(** [squareColors[square]], the table being an object literal. *)
Definition getSquareColor (square : string) : Member SquareColor :=
  match assoc square squareColors with
  | Some color => own color
  | None =>
      if includes Object_prototype square then inherited square else absent
  end.

(** [Object.keys(squareColors)]: the 64 square names, a1, a2, ..., h8. *)
Definition squares : list string := map fst squareColors.

(** ** Reachable squares *)

Definition knightMoves : list (Z * Z) :=
  [(-2, -1); (-2, 1); (-1, -2); (-1, 2); (1, -2); (1, 2); (2, -1); (2, 1)].

Definition bishopMoves : list (Z * Z) :=
  [(-1, -1); (-1, 1); (1, -1); (1, 1)].

(** [newFile >= "a" && newFile <= "h" && newRank >= "1" && newRank <= "8"]
    on one-character strings, that is on their code units. *)
Definition inBounds (newFile newRank : Z) : bool :=
  Z.leb (charCode "a") newFile && Z.leb newFile (charCode "h") &&
  Z.leb (charCode "1") newRank && Z.leb newRank (charCode "8").

Definition squareName (newFile newRank : Z) : string :=
  String (unitChar newFile) (String (unitChar newRank) "").

Definition knightStep (file rank : ascii) (reachablePositions : list string)
    (move : Z * Z) : list string :=
  let '(fileOffset, rankOffset) := move in
  let newFile := fromCharCode (charCode file + fileOffset) in
  let newRank := fromCharCode (charCode rank + rankOffset) in
  if inBounds newFile newRank
  then reachablePositions ++ [squareName newFile newRank]
  else reachablePositions.

(** The [while] loop of the bishop branch; [fuel] bounds its iterations. *)
Fixpoint bishopSlide (fuel : nat) (file rank : ascii) (move : Z * Z)
    (fileOffset rankOffset : Z) (reachablePositions : list string)
    : run (list string) :=
  let newFile := fromCharCode (charCode file + fileOffset) in
  let newRank := fromCharCode (charCode rank + rankOffset) in
  if inBounds newFile newRank then
    match fuel with
    | O => Fault OutOfFuel
    | S fuel' =>
        bishopSlide fuel' file rank move
          (fileOffset + fst move) (rankOffset + snd move)
          (reachablePositions ++ [squareName newFile newRank])
    end
  else Done reachablePositions.

(** A diagonal holds at most eight squares, so eight iterations per
    direction are all the loop can make (see [bishopSlide_fuel]). *)
Definition bishopFuel : nat := 8.

Fixpoint bishopLoop (file rank : ascii) (moves : list (Z * Z))
    (reachablePositions : list string) : run (list string) :=
  match moves with
  | [] => Done reachablePositions
  | move :: rest =>
      do acc <- bishopSlide bishopFuel file rank move (fst move) (snd move)
                  reachablePositions;
      bishopLoop file rank rest acc
  end.

Definition getReachablePositions (piece : Piece) (position : string)
    : run (list string) :=
  match piece with
  | knight =>
      do2 file, rank <- splitFileRank position;
      Done (fold_left (knightStep file rank) knightMoves [])
  | bishop =>
      do2 file, rank <- splitFileRank position;
      bishopLoop file rank bishopMoves []
  end.

Definition isReachable (piece : Piece) (start end_ : string) : run bool :=
  do reachablePositions <- getReachablePositions piece start;
  Done (includes reachablePositions end_).

(** ** The random source *)

(** The values [Math.random()] returns, in call order. *)
Definition RandomSource : Type := nat -> Q.

(** What [Math.random] promises of each value: it lies in the half-open
    unit interval. *)
Definition unitRange (rs : RandomSource) : Prop :=
  forall i, (0 <= rs i)%Q /\ (rs i < 1)%Q.

(** A computation that calls [Math.random]: it is handed the number of calls
    made so far and returns it advanced. *)
Definition Rand (A : Type) : Type := nat -> run (A * nat).

Definition ret {A} (a : A) : Rand A := fun calls => Done (a, calls).

Definition bind {A B} (m : Rand A) (k : A -> Rand B) : Rand B :=
  fun calls =>
    match m calls with
    | Done (a, calls') => k a calls'
    | Fault f => Fault f
    end.

Definition lift {A} (m : run A) : Rand A :=
  fun calls =>
    match m with
    | Done a => Done (a, calls)
    | Fault f => Fault f
    end.

Notation "'perform' x <- m ; k" := (bind m (fun x => k))
  (at level 10, x name, m at level 100, k at level 200).

(** [array[i]] for a number [i]. *)
Definition at_ {A} (array : list A) (i : Z) : option A :=
  if Z.ltb i 0 then None else array !! Z.to_nat i.

Definition len {A} (array : list A) : Z := Z.of_nat (length array).

(** [Math.floor(x * n)] *)
Definition floorTimes (x : Q) (n : Z) : Z := Qfloor (x * inject_Z n).

Section Generator.

Variable rs : RandomSource.

Definition Math_random : Rand Q := fun calls => Done (rs calls, S calls).

Definition getRandomSquare : Rand string :=
  perform r <- Math_random;
  lift (of_option (at_ squares (floorTimes r (len squares))) Undefined).

Definition getRandomArrayElement {T} (array : list T) : Rand T :=
  perform r <- Math_random;
  lift (of_option (at_ array (floorTimes r (len array))) Undefined).

(** [while (selectedPositions.includes(x)) { x = next(); }], at most [fuel]
    redraws. *)
Fixpoint redraw (fuel : nat) (next : Rand string)
    (selectedPositions : list string) (x : string) : Rand string :=
  if includes selectedPositions x then
    match fuel with
    | O => lift (Fault OutOfFuel)
    | S fuel' => perform x' <- next; redraw fuel' next selectedPositions x'
    end
  else ret x.

(** The body of the [for] loop, for the iterations [i], [i+1], ... *)
Fixpoint selectPositions (fuel : nat) (reachablePositions : list string)
    (targetReachableCount : Z) (iterations : nat) (i : Z)
    (selectedPositions : list string) : Rand (list string) :=
  match iterations with
  | O => ret selectedPositions
  | S iterations' =>
      perform chosen <- (if Z.ltb i targetReachableCount then
                   perform randomReachablePosition <- getRandomArrayElement reachablePositions;
                   redraw fuel (getRandomArrayElement reachablePositions)
                     selectedPositions randomReachablePosition
                 else
                   perform randomPosition <- getRandomSquare;
                   redraw fuel getRandomSquare selectedPositions randomPosition);
      selectPositions fuel reachablePositions targetReachableCount iterations'
        (i + 1) (selectedPositions ++ [chosen])
  end.

(** [[a[i], a[j]] = [a[j], a[i]]] *)
Definition swap {T} (shuffledArray : list T) (i j : nat) : run (list T) :=
  do aj <- of_option (shuffledArray !! j) Undefined;
  do ai <- of_option (shuffledArray !! i) Undefined;
  Done (<[j := ai]> (<[i := aj]> shuffledArray)).

(** The loop of [shuffleArray], for the indices [i], [i-1], ..., [1]. *)
Fixpoint shuffleFrom {T} (i : nat) (shuffledArray : list T) : Rand (list T) :=
  match i with
  | O => ret shuffledArray
  | S i' =>
      perform r <- Math_random;
      let j := floorTimes r (Z.of_nat i + 1) in
      perform swapped <- lift (swap shuffledArray i (Z.to_nat j));
      shuffleFrom i' swapped
  end.

Definition shuffleArray {T} (array : list T) : Rand (list T) :=
  shuffleFrom (length array - 1) array.

(** [roundLength] is a count of trials. The result pairs [positions] with
    [positiveSampleCount]. The piece stands on a square of the board, from
    which its reachable list is never empty; from a position whose list is
    empty the source would push the [undefined] that
    [getRandomArrayElement] returns, where the run here ends in
    [Fault Undefined]. *)
Definition generatePositionsForRound (fuel : nat) (piece : Piece)
    (position : string) (roundLength : nat) : Rand (list string * Z) :=
  perform reachablePositions <- lift (getReachablePositions piece position);
  perform r <- Math_random;
  let targetPositiveSamplePercentage : Q :=
    if Qle_bool r (5 # 10) then 4 # 10 else 6 # 10 in
  let targetReachableCount :=
    Qfloor (inject_Z (Z.of_nat roundLength) * targetPositiveSamplePercentage) in
  perform selectedPositions <- selectPositions fuel reachablePositions
                         targetReachableCount roundLength 0 [];
  perform positions <- shuffleArray selectedPositions;
  ret (positions, targetReachableCount).

End Generator.

(** ** The accuracy score *)

(** [Object.values(roundData)]. The two counters of the scorer do not depend
    on the order in which the rounds are visited. *)
Definition Object_values (roundData : gmap Z Round) : list Round :=
  (map_to_list roundData).*2.

(** [Math.round]: the nearest integer, halves going up. *)
Definition Math_round (x : Q) : Z := Qfloor (x + (1 # 2)).

(** *** Double precision

    A JavaScript number is an IEEE 754 double: a sign, a significand of 53
    bits and a power of two. The quotient and the products of the scorer
    are the exact results rounded to the nearest double, a tie going to the
    even significand. [double x] is that rounding of the rational [x], for
    [x] in the range of the normal doubles (from [2^-1022] up to, not
    including, [2^1024]); the numbers of the scorer are 0 or lie between
    [2^-53] and 10000 as long as the counters stay below [2^53], where they
    are exact. *)

Definition pow2 (k : Z) : Q := (2 ^ k)%Q.

(** The exponent of a positive rational: [2^k <= x < 2^(k+1)]. *)
Definition ilog2 (x : Q) : Z :=
  let k := Z.log2 (Qnum x) - Z.log2 (Z.pos (Qden x)) in
  if Qle_bool (pow2 k) x then k else k - 1.

(** The nearest integer, a tie going to the even one. *)
Definition roundHalfEven (x : Q) : Z :=
  let f := Qfloor x in
  match (x - inject_Z f ?= 1 # 2)%Q with
  | Lt => f
  | Gt => f + 1
  | Eq => if Z.even f then f else f + 1
  end.

(** The nearest double of a positive rational: its significand, scaled to
    lie between [2^52] and [2^53], is rounded to an integer. *)
Definition nearest (x : Q) : Q :=
  let unit := pow2 (ilog2 x - 52) in
  Qred (inject_Z (roundHalfEven (x / unit)) * unit).

Definition double (x : Q) : Q :=
  match Qnum x with
  | 0 => 0%Q
  | Z.pos _ => nearest x
  | Z.neg _ => (- nearest (- x))%Q
  end.

Definition isCorrect (trial : Trial) : bool :=
  match outcome trial with
  | Some hit | Some correctRejection => true
  | _ => false
  end.

(** One iteration of the inner loop on the pair
    [(totalTrials, correctResponses)]. *)
Definition countTrial (counters : Z * Z) (trial : Trial) : Z * Z :=
  let '(totalTrials, correctResponses) := counters in
  (totalTrials + 1,
   if isCorrect trial then correctResponses + 1 else correctResponses).

Definition countRound (counters : Z * Z) (round : Round) : Z * Z :=
  fold_left countTrial (trials round) counters.

Definition calculateAccuracyScore (roundData : gmap Z Round) : Q :=
  let '(totalTrials, correctResponses) :=
    fold_left countRound (Object_values roundData) (0, 0) in
  if Z.eqb totalTrials 0 then 0%Q
  else
    let accuracy := double (inject_Z correctResponses / inject_Z totalTrials) in
    double (inject_Z (Math_round (double (accuracy * 10000))) / 100).

(** ** The context of the machine *)

Record GameContext : Type := mkContext {
  currentSquare : option string;
  score : Z;
  piecePositionForRound : string;
  guessesRemainingInRound : Z;
  voiceEnabled : bool;
  countdown : Z;
  currentGuess : option SquareColor;
  incorrectCount : Z;
  positionsForRound : list string;
  currentRound : Z;
  accuracyScore : option Q;
  roundData : gmap Z Round
}.

Definition NUMBER_OF_ROUNDS : Z := 4.
Definition TRIALS_PER_ROUND : nat := 5.

(** The [context] of [createMachine]; the array literal given for
    [roundData] has no entries. *)
Definition initialContext : GameContext := {|
  currentSquare := None;
  score := 0;
  voiceEnabled := true;
  countdown := 3;
  positionsForRound := [];
  guessesRemainingInRound := Z.of_nat TRIALS_PER_ROUND;
  piecePositionForRound := "";
  currentGuess := None;
  incorrectCount := 0;
  currentRound := 0;
  accuracyScore := None;
  roundData := ∅
|}.

(** *** Single-field assignments *)

Definition set_currentSquare (v : option string) (c : GameContext) :=
  mkContext v (score c) (piecePositionForRound c) (guessesRemainingInRound c)
    (voiceEnabled c) (countdown c) (currentGuess c) (incorrectCount c)
    (positionsForRound c) (currentRound c) (accuracyScore c) (roundData c).

Definition set_guessesRemainingInRound (v : Z) (c : GameContext) :=
  mkContext (currentSquare c) (score c) (piecePositionForRound c) v
    (voiceEnabled c) (countdown c) (currentGuess c) (incorrectCount c)
    (positionsForRound c) (currentRound c) (accuracyScore c) (roundData c).

Definition set_voiceEnabled (v : bool) (c : GameContext) :=
  mkContext (currentSquare c) (score c) (piecePositionForRound c)
    (guessesRemainingInRound c) v (countdown c) (currentGuess c)
    (incorrectCount c) (positionsForRound c) (currentRound c)
    (accuracyScore c) (roundData c).

Definition set_countdown (v : Z) (c : GameContext) :=
  mkContext (currentSquare c) (score c) (piecePositionForRound c)
    (guessesRemainingInRound c) (voiceEnabled c) v (currentGuess c)
    (incorrectCount c) (positionsForRound c) (currentRound c)
    (accuracyScore c) (roundData c).

Definition set_currentGuess (v : option SquareColor) (c : GameContext) :=
  mkContext (currentSquare c) (score c) (piecePositionForRound c)
    (guessesRemainingInRound c) (voiceEnabled c) (countdown c) v
    (incorrectCount c) (positionsForRound c) (currentRound c)
    (accuracyScore c) (roundData c).

Definition set_incorrectCount (v : Z) (c : GameContext) :=
  mkContext (currentSquare c) (score c) (piecePositionForRound c)
    (guessesRemainingInRound c) (voiceEnabled c) (countdown c)
    (currentGuess c) v (positionsForRound c) (currentRound c)
    (accuracyScore c) (roundData c).

Definition set_accuracyScore (v : option Q) (c : GameContext) :=
  mkContext (currentSquare c) (score c) (piecePositionForRound c)
    (guessesRemainingInRound c) (voiceEnabled c) (countdown c)
    (currentGuess c) (incorrectCount c) (positionsForRound c)
    (currentRound c) v (roundData c).

Definition set_roundData (v : gmap Z Round) (c : GameContext) :=
  mkContext (currentSquare c) (score c) (piecePositionForRound c)
    (guessesRemainingInRound c) (voiceEnabled c) (countdown c)
    (currentGuess c) (incorrectCount c) (positionsForRound c)
    (currentRound c) (accuracyScore c) v.

(** ** The actions of [setup] *)

Fixpoint mapRun {A B} (f : A -> run B) (l : list A) : run (list B) :=
  match l with
  | [] => Done []
  | a :: rest =>
      do b <- f a;
      do bs <- mapRun f rest;
      Done (b :: bs)
  end.

(** The [if] chain of [evaluateGuess]. *)
Definition evaluateGuess_outcome (isTarget : bool)
    (userResponse : option Response) : TrialOutcome :=
  let isMatch := match userResponse with Some match_ => true | None => false end in
  let isUndefined := match userResponse with None => true | Some _ => false end in
  if isTarget && isMatch then hit
  else if negb isTarget && isMatch then falseAlarm
  else if negb isTarget && isUndefined then correctRejection
  else miss.

(** [context.roundData[context.currentRound]]; reading [.trials] of a
    missing round throws. *)
Definition currentRoundDataOf (context : GameContext) : run Round :=
  of_option (roundData context !! currentRound context) TypeError.

(** [currentRoundData.trials[TRIALS_PER_ROUND - context.guessesRemainingInRound]] *)
Definition currentTrialOf (context : GameContext) (currentRoundData : Round)
    : option Trial :=
  at_ (trials currentRoundData)
      (Z.of_nat TRIALS_PER_ROUND - guessesRemainingInRound context).

Module Actions.

(** The two announcements speak through the browser; the context is left
    as it is. *)
Definition announceSquare (context : GameContext) : GameContext := context.
Definition announcePiecePosition (context : GameContext) : GameContext := context.

Definition decrementCountdown (context : GameContext) : GameContext :=
  set_countdown (countdown context - 1) context.

Definition initialiseCountdown (context : GameContext) : GameContext :=
  set_countdown 3 context.

Definition initialiseNextRound (rs : RandomSource) (fuel : nat)
    (context : GameContext) : Rand GameContext :=
  perform piecePositionForRound' <- getRandomSquare rs;
  perform generated <- generatePositionsForRound rs fuel knight
                         piecePositionForRound' TRIALS_PER_ROUND;
  let positions := fst generated in
  perform trials' <- lift (mapRun (fun stimulus =>
                         do isTarget' <- isReachable knight piecePositionForRound' stimulus;
                         Done (mkTrial stimulus isTarget' None None)) positions);
  ret {|
    currentSquare := currentSquare context;
    score := score context;
    voiceEnabled := voiceEnabled context;
    countdown := countdown context;
    currentGuess := currentGuess context;
    incorrectCount := incorrectCount context;
    accuracyScore := accuracyScore context;
    piecePositionForRound := piecePositionForRound';
    guessesRemainingInRound := Z.of_nat TRIALS_PER_ROUND;
    positionsForRound := positions;
    currentRound := currentRound context + 1;
    roundData :=
      <[currentRound context + 1 := mkRound piecePositionForRound' trials']>
        (roundData context)
  |}.

Definition decrementGuessesRemainingInRound (context : GameContext) : GameContext :=
  set_guessesRemainingInRound (guessesRemainingInRound context - 1) context.

Definition setupNextTrial (context : GameContext) : GameContext :=
  set_currentSquare
    (at_ (positionsForRound context)
         (Z.of_nat TRIALS_PER_ROUND - guessesRemainingInRound context))
    context.

Definition clearCurrentGuess (context : GameContext) : GameContext :=
  set_currentGuess None context.

(** The spread of a missing [currentTrial] would append a record without
    stimulus, outside the type of a trial. *)
Definition saveUserResponse (context : GameContext) (params : Response)
    : run GameContext :=
  do currentRoundData <- currentRoundDataOf context;
  do currentTrial <- of_option (currentTrialOf context currentRoundData) Undefined;
  Done (set_roundData
          (<[currentRound context :=
               mkRound (round_piecePositionForRound currentRoundData)
                 (trials currentRoundData ++
                  [mkTrial (stimulus currentTrial) (isTarget currentTrial)
                     (Some params) (outcome currentTrial)])]>
             (roundData context))
          context).

Definition calculateAccuracyScore (context : GameContext) : GameContext :=
  set_accuracyScore (Some (calculateAccuracyScore (roundData context))) context.

Definition trackIncorrectGuess (context : GameContext) : GameContext :=
  set_incorrectCount (incorrectCount context + 1) context.

Definition evaluateGuess (context : GameContext) : run GameContext :=
  do currentRoundData <- currentRoundDataOf context;
  do currentTrial <- of_option (currentTrialOf context currentRoundData) TypeError;
  do isTarget' <- isReachable knight
                    (round_piecePositionForRound currentRoundData)
                    (stimulus currentTrial);
  let outcome' := evaluateGuess_outcome isTarget' (userResponse currentTrial) in
  Done (set_roundData
          (<[currentRound context :=
               mkRound (round_piecePositionForRound currentRoundData)
                 (trials currentRoundData ++
                  [mkTrial (stimulus currentTrial) (isTarget currentTrial)
                     (userResponse currentTrial) (Some outcome')])]>
             (roundData context))
          context).

(** The inline [assign] of the [voice.toggle] transition. *)
Definition toggleVoice (context : GameContext) : GameContext :=
  set_voiceEnabled (negb (voiceEnabled context)) context.

End Actions.

(** ** The guards of [setup] *)

Module Guards.

(** [!!context.currentSquare && isReachable(...)]: an absent or empty
    current square is falsy and cuts the conjunction short. *)
Definition isHit (context : GameContext) : run bool :=
  match currentSquare context with
  | None => Done false
  | Some "" => Done false
  | Some square => isReachable knight (piecePositionForRound context) square
  end.

Definition countdownComplete (context : GameContext) : bool :=
  Z.eqb (countdown context) 0.

Definition SquareColor_eqb (a b : SquareColor) : bool :=
  match a, b with
  | light, light | dark, dark => true
  | _, _ => false
  end.

Definition isGuessCorrect (context : GameContext) (guess : SquareColor) : bool :=
  match currentSquare context with
  | None => false
  | Some "" => false
  | Some square =>
      match getSquareColor square with
      | own color => SquareColor_eqb guess color
      | _ => false
      end
  end.

End Guards.

(** ** The machine declaration *)

Module Node.
(** The state nodes of [createMachine], with the machine itself as root. *)
Inductive t : Set :=
| root
| idle
| countdown
| playing
| startingRound
| playingRound
| waitingForResponse
| hit
| falseAlarm
| gameOver.

Definition eqb (a b : t) : bool :=
  match a, b with
  | root, root | idle, idle | countdown, countdown | playing, playing
  | startingRound, startingRound | playingRound, playingRound
  | waitingForResponse, waitingForResponse | hit, hit
  | falseAlarm, falseAlarm | gameOver, gameOver => true
  | _, _ => false
  end.
End Node.

Module Event.
(** [GameEvent], together with the delayed event that the [after] clause of
    [startingRound] schedules. *)
Inductive t : Set :=
| start
| userResponse (userResponse : Response)
| tick
| restart
| voice_toggle
| after_3000.
End Event.

Module Action.
(** References to the actions of [setup]; [inline_voiceToggle] is the
    anonymous [assign] written in the [idle] state. *)
Inductive t : Set :=
| announceSquare
| announcePiecePosition
| decrementCountdown
| initialiseCountdown
| initialiseNextRound
| decrementGuessesRemainingInRound
| setupNextTrial
| clearCurrentGuess
| saveUserResponse
| calculateAccuracyScore
| trackIncorrectGuess
| evaluateGuess
| inline_voiceToggle.
End Action.

Module Guard.
(** References to the guards of [setup] and to the two inline guards of the
    [tick] transitions of [playingRound]. *)
Inductive t : Set :=
| isHit
| countdownComplete
| isGuessCorrect (guess : SquareColor)
| inline_guessesRemaining      (* context.guessesRemainingInRound > 1 *)
| inline_roundsPlayed.         (* context.currentRound >= NUMBER_OF_ROUNDS *)
End Guard.

Record Transition : Set := mkTransition {
  guard : option Guard.t;
  actions : list Action.t;
  target : option Node.t
}.

Definition parent (n : Node.t) : option Node.t :=
  match n with
  | Node.root => None
  | Node.idle | Node.countdown | Node.playing | Node.gameOver => Some Node.root
  | Node.startingRound | Node.playingRound => Some Node.playing
  | Node.waitingForResponse | Node.hit | Node.falseAlarm => Some Node.playingRound
  end.

Definition initial (n : Node.t) : option Node.t :=
  match n with
  | Node.root => Some Node.idle
  | Node.playing => Some Node.startingRound
  | Node.playingRound => Some Node.waitingForResponse
  | _ => None
  end.

Definition entry (n : Node.t) : list Action.t :=
  match n with
  | Node.startingRound => [Action.initialiseNextRound; Action.announcePiecePosition]
  | Node.playingRound => [Action.setupNextTrial; Action.announceSquare]
  | _ => []
  end.

Definition tags (n : Node.t) : list string :=
  match n with
  | Node.hit => ["hit"]
  | Node.falseAlarm => ["falseAlarm"]
  | _ => []
  end.

(** [invoke]: the interval, in milliseconds, of the tick actor a node runs
    while it is active. *)
Definition invoke (n : Node.t) : option Z :=
  match n with
  | Node.playingRound => Some 3000
  | _ => None
  end.

(** The [on] (and [after]) clause of a node: the candidate transitions for
    an event, in the order written. *)
Definition on (n : Node.t) (event : Event.t) : list Transition :=
  match n, event with
  | Node.idle, Event.start =>
      [mkTransition None [] (Some Node.playing)]
  | Node.idle, Event.voice_toggle =>
      [mkTransition None [Action.inline_voiceToggle] None]
  | Node.countdown, Event.tick =>
      [mkTransition (Some Guard.countdownComplete)
         [Action.initialiseCountdown] (Some Node.playing);
       mkTransition None [Action.decrementCountdown] None]
  | Node.startingRound, Event.after_3000 =>
      [mkTransition None [] (Some Node.playingRound)]
  | Node.playingRound, Event.tick =>
      [mkTransition (Some Guard.inline_guessesRemaining)
         [Action.decrementGuessesRemainingInRound;
          Action.evaluateGuess;
          Action.setupNextTrial;
          Action.announceSquare;
          Action.clearCurrentGuess]
         (Some Node.waitingForResponse);
       mkTransition (Some Guard.inline_roundsPlayed)
         [Action.calculateAccuracyScore] (Some Node.gameOver);
       mkTransition None [] (Some Node.startingRound)]
  | Node.waitingForResponse, Event.userResponse _ =>
      [mkTransition (Some Guard.isHit)
         [Action.saveUserResponse; Action.evaluateGuess] (Some Node.hit);
       mkTransition None
         [Action.saveUserResponse; Action.evaluateGuess] (Some Node.falseAlarm)]
  | Node.gameOver, Event.restart =>
      [mkTransition None [] (Some Node.idle)]
  | _, _ => []
  end.

(** ** The interpreter *)

(** A configuration: the active atomic state (its ancestors are active with
    it), the context, and the number of [Math.random] calls made. *)
Record Config : Type := mkConfig {
  state : Node.t;
  context : GameContext;
  calls : nat
}.

(** Proper ancestors, nearest first; the tree is three levels deep. *)
Fixpoint ancestorsWithin (depth : nat) (n : Node.t) : list Node.t :=
  match depth with
  | O => []
  | S depth' =>
      match parent n with
      | Some p => p :: ancestorsWithin depth' p
      | None => []
      end
  end.

Definition ancestors (n : Node.t) : list Node.t := ancestorsWithin 3 n.

Definition isDescendant (n ancestor : Node.t) : bool :=
  existsb (Node.eqb ancestor) (ancestors n).

(** The node whose active descendants a transition exits: its source when
    the target lies below the source, else the nearest proper ancestor of
    the source that contains the target. *)
Definition transitionDomain (source target_ : Node.t) : Node.t :=
  if isDescendant target_ source then source
  else
    match List.filter (isDescendant target_) (ancestors source) with
    | a :: _ => a
    | [] => Node.root
    end.

Fixpoint takeWhile {A} (p : A -> bool) (l : list A) : list A :=
  match l with
  | [] => []
  | a :: rest => if p a then a :: takeWhile p rest else []
  end.

Fixpoint initialDescendantsWithin (depth : nat) (n : Node.t) : list Node.t :=
  match depth with
  | O => []
  | S depth' =>
      match initial n with
      | Some child => child :: initialDescendantsWithin depth' child
      | None => []
      end
  end.

(** The nodes a transition enters, outermost first: the path from below its
    domain down to the target, then the initial states below the target. *)
Definition enteredNodes (source target_ : Node.t) : list Node.t :=
  let domain := transitionDomain source target_ in
  reverse (takeWhile (fun a => negb (Node.eqb a domain))
             (target_ :: ancestors target_))
  ++ initialDescendantsWithin 3 target_.

Definition evalGuard (g : Guard.t) (context : GameContext) : run bool :=
  match g with
  | Guard.isHit => Guards.isHit context
  | Guard.countdownComplete => Done (Guards.countdownComplete context)
  | Guard.isGuessCorrect guess => Done (Guards.isGuessCorrect context guess)
  | Guard.inline_guessesRemaining => Done (Z.ltb 1 (guessesRemainingInRound context))
  | Guard.inline_roundsPlayed => Done (Z.leb NUMBER_OF_ROUNDS (currentRound context))
  end.

(** The first candidate whose guard holds. *)
Fixpoint firstEnabled (candidates : list Transition) (context : GameContext)
    : run (option Transition) :=
  match candidates with
  | [] => Done None
  | tr :: rest =>
      match guard tr with
      | None => Done (Some tr)
      | Some g =>
          do holds <- evalGuard g context;
          if holds then Done (Some tr) else firstEnabled rest context
      end
  end.

(** The transition an event selects: the active atomic state is asked
    first, then its ancestors. *)
Fixpoint selectTransition (path : list Node.t) (event : Event.t)
    (context : GameContext) : run (option (Node.t * Transition)) :=
  match path with
  | [] => Done None
  | n :: rest =>
      do found <- firstEnabled (on n event) context;
      match found with
      | Some tr => Done (Some (n, tr))
      | None => selectTransition rest event context
      end
  end.

Section Interpreter.

Variable rs : RandomSource.

(** [fuel] bounds the redraws of each retry loop of the round generator. *)
Variable fuel : nat.

Definition execAction (a : Action.t) (event : Event.t) (context : GameContext)
    : Rand GameContext :=
  match a with
  | Action.announceSquare => ret (Actions.announceSquare context)
  | Action.announcePiecePosition => ret (Actions.announcePiecePosition context)
  | Action.decrementCountdown => ret (Actions.decrementCountdown context)
  | Action.initialiseCountdown => ret (Actions.initialiseCountdown context)
  | Action.initialiseNextRound => Actions.initialiseNextRound rs fuel context
  | Action.decrementGuessesRemainingInRound =>
      ret (Actions.decrementGuessesRemainingInRound context)
  | Action.setupNextTrial => ret (Actions.setupNextTrial context)
  | Action.clearCurrentGuess => ret (Actions.clearCurrentGuess context)
  | Action.saveUserResponse =>
      match event with
      | Event.userResponse r => lift (Actions.saveUserResponse context r)
      | _ => lift (Fault Undefined)
      end
  | Action.calculateAccuracyScore => ret (Actions.calculateAccuracyScore context)
  | Action.trackIncorrectGuess => ret (Actions.trackIncorrectGuess context)
  | Action.evaluateGuess => lift (Actions.evaluateGuess context)
  | Action.inline_voiceToggle => ret (Actions.toggleVoice context)
  end.

(** Actions run in order, each on the context the previous one left. *)
Fixpoint execActions (l : list Action.t) (event : Event.t)
    (context : GameContext) : Rand GameContext :=
  match l with
  | [] => ret context
  | a :: rest =>
      perform context' <- execAction a event context;
      execActions rest event context'
  end.

(** One event: the selected transition's actions, then the entry actions
    of the nodes entered (no node of this machine has exit actions). An
    event no active node handles leaves the configuration as it is. *)
Definition transition (c : Config) (event : Event.t) : run Config :=
  do selected <- selectTransition (state c :: ancestors (state c)) event (context c);
  match selected with
  | None => Done c
  | Some (source, tr) =>
      let entered :=
        match target tr with
        | Some target_ => enteredNodes source target_
        | None => []
        end in
      do result <- execActions (actions tr ++ flat_map entry entered) event
                     (context c) (calls c);
      Done (mkConfig (List.last entered (state c)) (fst result) (snd result))
  end.

(** A sequence of events, delivered one at a time. *)
Fixpoint runEvents (c : Config) (events : list Event.t) : run Config :=
  match events with
  | [] => Done c
  | event :: rest =>
      do c' <- transition c event;
      runEvents c' rest
  end.

End Interpreter.

Definition initialConfig : Config := mkConfig Node.idle initialContext 0.

(** ** A concrete random source *)

(** A source that cycles through the 64 multiples of 1/64, in a scrambled
    order; it serves to run the machine on concrete sessions. *)
Definition cyclicSource : RandomSource :=
  fun i => Z.of_nat ((i * 37 + 27) mod 64) # 64.

(** The events of one round in which the subject never responds: the
    pre-round delay elapses, then the tick actor fires once per trial. *)
Definition silentRound : list Event.t :=
  [Event.after_3000; Event.tick; Event.tick; Event.tick; Event.tick; Event.tick].

(** A whole session of four silent rounds. *)
Definition silentSession : list Event.t :=
  Event.start :: silentRound ++ silentRound ++ silentRound ++ silentRound.

(** ** Vocabulary of the properties *)

(** The square on file [f] and rank [r], both counted from 1. *)
Definition square (f r : Z) : string := squareName (96 + f) (48 + r).

Definition onBoard (f r : Z) : Prop := 1 <= f <= 8 /\ 1 <= r <= 8.

(** A valid square identifier: one of the 64 names. *)
Definition isSquare (s : string) : Prop := s ∈ squares.

(** The offsets of a knight move: one step along one axis and two along
    the other. *)
Definition knightOffset (df dr : Z) : Prop :=
  (Z.abs df = 1 /\ Z.abs dr = 2) \/ (Z.abs df = 2 /\ Z.abs dr = 1).

Definition knightOffsetb (df dr : Z) : bool :=
  (Z.eqb (Z.abs df) 1 && Z.eqb (Z.abs dr) 2) ||
  (Z.eqb (Z.abs df) 2 && Z.eqb (Z.abs dr) 1).

(** All trial records of all rounds. *)
Definition allTrials (roundData : gmap Z Round) : list Trial :=
  flat_map trials (Object_values roundData).

Definition isClassified (trial : Trial) : bool :=
  match outcome trial with Some _ => true | None => false end.

Definition correctCount (roundData : gmap Z Round) : Z :=
  len (List.filter isCorrect (allTrials roundData)).

Definition recordCount (roundData : gmap Z Round) : Z :=
  len (allTrials roundData).

Definition classifiedCount (roundData : gmap Z Round) : Z :=
  len (List.filter isClassified (allTrials roundData)).

(** Rounding to two decimal places. *)
Definition roundTo2 (x : Q) : Q := (inject_Z (Math_round (x * 100)) / 100)%Q.

(** The percentage of [correct] among [total], 0 for an empty total. *)
Definition percentage (correct total : Z) : Q :=
  if Z.eqb total 0 then 0%Q
  else roundTo2 (100 * (inject_Z correct / inject_Z total))%Q.

(** The score as the specification words it: over the classified trials. *)
Definition scoreOverClassified (roundData : gmap Z Round) : Q :=
  percentage (correctCount roundData) (classifiedCount roundData).

(** An event is legal in a state when the state or one of its ancestors
    declares a transition for it. *)
Definition legal (st : Node.t) (event : Event.t) : bool :=
  existsb (fun n => match on n event with [] => false | _ => true end)
          (st :: ancestors st).

(** The configurations a session can be in: the initial one, and those an
    event leads to from a reachable one. *)
Inductive reachable (rs : RandomSource) : Config -> Prop :=
| reachable_initial : reachable rs initialConfig
| reachable_step c event fuel c' :
    reachable rs c ->
    transition rs fuel c event = Done c' ->
    reachable rs c'.

Definition allNodes : list Node.t :=
  [Node.root; Node.idle; Node.countdown; Node.playing; Node.startingRound;
   Node.playingRound; Node.waitingForResponse; Node.hit; Node.falseAlarm;
   Node.gameOver].

Definition allEvents : list Event.t :=
  [Event.start; Event.userResponse match_; Event.tick; Event.restart;
   Event.voice_toggle; Event.after_3000].

(** Every transition written in the machine. *)
Definition allTransitions : list Transition :=
  flat_map (fun n => flat_map (on n) allEvents) allNodes.

(** Every action the machine refers to, in a transition or on entry. *)
Definition referencedActions : list Action.t :=
  flat_map actions allTransitions ++ flat_map entry allNodes.

(** The number of trial records of a round that carry an outcome for a
    given stimulus. *)
Definition outcomesRecorded (round : Round) (square_ : string) : nat :=
  length (List.filter
            (fun trial => String.eqb (stimulus trial) square_ && isClassified trial)
            (trials round)).

(** The target fraction that the draw numbered [calls] selects, and the
    target count it gives for a round length. *)
Definition chosenFraction (rs : RandomSource) (calls : nat) : Q :=
  if Qle_bool (rs calls) (5 # 10) then 4 # 10 else 6 # 10.

Definition targetCountFor (rs : RandomSource) (calls : nat) (roundLength : nat) : Z :=
  Qfloor (inject_Z (Z.of_nat roundLength) * chosenFraction rs calls).

(** A source is fair when, from any call on, every index of every array of
    up to 64 elements is eventually drawn: the retry loops of the generator
    meet only finitely many duplicates in a row. *)
Definition fair (rs : RandomSource) : Prop :=
  forall (calls n k : nat), (0 < n <= 64)%nat -> (k < n)%nat ->
    exists i, (calls <= i)%nat /\ floorTimes (rs i) (Z.of_nat n) = Z.of_nat k.

(** ** Finite checks and sample data *)

Definition range8 : list Z := [1; 2; 3; 4; 5; 6; 7; 8].

(** The check behind the geometry theorem, for one origin: the reachable
    list has no duplicates, holds only squares, and its members among the
    64 squares are those a knight offset away. *)
Definition knightCheck (f r : Z) : bool :=
  match getReachablePositions knight (square f r) with
  | Done l =>
      bool_decide (NoDup l) &&
      forallb (includes squares) l &&
      forallb (fun f' =>
        forallb (fun r' =>
          Bool.eqb (includes l (square f' r'))
                   (knightOffsetb (f' - f) (r' - r))) range8) range8
  | Fault _ => false
  end.

(** A round in which one trial is recorded as a hit and another carries no
    outcome. *)
Definition halfClassified : gmap Z Round :=
  {[ 1 := mkRound "d4" [mkTrial "b3" true (Some match_) (Some hit);
                        mkTrial "a1" false None None] ]}.

(** A round whose only trial record carries no outcome. *)
Definition unclassifiedOnly : gmap Z Round :=
  {[ 1 := mkRound "d4" [mkTrial "a1" false None None] ]}.

(** Rounds with 800 records of which 57 carry the outcome hit: the exact
    percentage, 7.125, lies on a rounding tie. *)
Definition nearTie : gmap Z Round :=
  {[ 1 := mkRound "d4"
            (replicate 57 (mkTrial "b5" true None (Some hit)) ++
             replicate 743 (mkTrial "h2" false None None)) ]}.

(** The value of a primitive float, when it is finite. *)
Definition valueOf (x : PrimFloat.float) : option Q :=
  match FloatOps.Prim2SF x with
  | SpecFloat.S754_zero _ => Some 0%Q
  | SpecFloat.S754_finite negative m e =>
      Some ((if negative then -1 else 1) * inject_Z (Z.pos m) * pow2 e)%Q
  | _ => None
  end.

Definition floatOf (z : Z) : PrimFloat.float :=
  PrimFloat.of_uint63 (Uint63.of_Z z).

(** The arithmetic of the scorer on the floats of the machine, for given
    counters, against the same on [double]. *)
Definition floatCheck (correctResponses totalTrials : Z) : bool :=
  let accuracy := PrimFloat.div (floatOf correctResponses) (floatOf totalTrials) in
  match valueOf accuracy,
        valueOf (PrimFloat.mul accuracy (floatOf 10000)) with
  | Some a, Some p =>
      Qeq_bool a (double (inject_Z correctResponses / inject_Z totalTrials)) &&
      Qeq_bool p (double (a * 10000)) &&
      match valueOf (PrimFloat.div (floatOf (Math_round p)) (floatOf 100)) with
      | Some score => Qeq_bool score (double (inject_Z (Math_round p) / 100))
      | None => false
      end
  | _, _ => false
  end.

(** The counters [0 <= correctResponses <= totalTrials] with
    [1 <= totalTrials <= n]. *)
Definition countersUpTo (n : nat) : list (Z * Z) :=
  flat_map (fun t => map (fun c => (Z.of_nat c, Z.of_nat (S t))) (seq 0 (S (S t))))
           (seq 0 n).

(** The events of a round in which the subject answers "match" during the
    second trial and stays silent otherwise. *)
Definition respondingRound : list Event.t :=
  [Event.after_3000; Event.tick; Event.userResponse match_; Event.tick;
   Event.tick; Event.tick; Event.tick].

Definition respondingSession : list Event.t :=
  Event.start :: respondingRound ++ silentRound ++ silentRound ++ silentRound.

(** The five trial records that [initialiseNextRound] creates for the first
    round of a session on [cyclicSource], whose knight stands on d4. *)
Definition firstRoundTrials : list Trial :=
  [mkTrial "h2" false None None;
   mkTrial "c5" false None None;
   mkTrial "b5" true None None;
   mkTrial "e2" true None None;
   mkTrial "f8" false None None].

(** The number of distinct squares in the reachable list of a piece. *)
Definition reachableCount (piece : Piece) (position : string) : Z :=
  match getReachablePositions piece position with
  | Done reachablePositions => len (remove_dups reachablePositions)
  | Fault _ => 0
  end.

(** The check behind the facts used of reachable lists: from a square of
    the board the list is computed, holds between 1 and 13 entries, and all
    of them are squares. *)
Definition reachableCheck (piece : Piece) (position : string) : bool :=
  match getReachablePositions piece position with
  | Done l =>
      Nat.leb 1 (length l) && Nat.leb (length l) 13 &&
      forallb (includes squares) l
  | Fault _ => false
  end.

(** The call, among the first 64, at which [cyclicSource] makes an array
    of length [n] yield its index [k]: the draw needed is j/64 for the least
    j with floor(j * n / 64) = k, and call i draws (37 * i + 27) mod 64. *)
Definition cyclicCall (n k : nat) : nat :=
  let j := ((64 * k + n - 1) / n)%nat in
  (((j + 37) * 45) mod 64)%nat.

Definition cyclicHits (n k : nat) : bool :=
  Z.eqb (floorTimes (cyclicSource (cyclicCall n k)) (Z.of_nat n)) (Z.of_nat k).

(** A trial record as [initialiseNextRound] creates it: it carries neither
    a response nor an outcome. *)
Definition untouched (trial : Trial) : Prop :=
  userResponse trial = None /\ outcome trial = None.

(** A trial record whose outcome, if any, is not one that takes a "match"
    response. *)
Definition withoutMatchOutcome (trial : Trial) : Prop :=
  outcome trial <> Some hit /\ outcome trial <> Some falseAlarm.

(** The shape every round record keeps: its first [TRIALS_PER_ROUND]
    records are those created at round start, untouched. *)
Definition roundShape (round : Round) : Prop :=
  (TRIALS_PER_ROUND <= length (trials round))%nat /\
  Forall untouched (take TRIALS_PER_ROUND (trials round)) /\
  Forall withoutMatchOutcome (trials round).

Definition contextInvariant (context_ : GameContext) : Prop :=
  1 <= guessesRemainingInRound context_ <= Z.of_nat TRIALS_PER_ROUND /\
  forall k round, roundData context_ !! k = Some round -> roundShape round.

(** The states in which a round is being played. *)
Definition inRound (st : Node.t) : bool :=
  match st with
  | Node.startingRound | Node.playingRound | Node.waitingForResponse
  | Node.hit | Node.falseAlarm => true
  | _ => false
  end.

(** The current round is recorded and the knight stands on a square. *)
Definition roundReady (context_ : GameContext) : Prop :=
  exists round,
    roundData context_ !! currentRound context_ = Some round /\
    isSquare (round_piecePositionForRound round) /\
    isSquare (piecePositionForRound context_).

(** The actions that read the record of the current round. *)
Definition readsRound (a : Action.t) : bool :=
  match a with
  | Action.saveUserResponse | Action.evaluateGuess => true
  | _ => false
  end.

Definition sessionInvariant (c : Config) : Prop :=
  contextInvariant (context c) /\
  (inRound (state c) = true -> roundReady (context c)).

(** ** Vocabulary of the further properties *)

(** The offsets of a bishop move: as many steps along one axis as along
    the other, and at least one. *)
Definition bishopOffset (df dr : Z) : Prop := Z.abs df = Z.abs dr /\ df <> 0.

Definition bishopOffsetb (df dr : Z) : bool :=
  Z.eqb (Z.abs df) (Z.abs dr) && negb (Z.eqb df 0).

(** The check behind the bishop theorem, for one origin. *)
Definition bishopCheck (f r : Z) : bool :=
  match getReachablePositions bishop (square f r) with
  | Done l =>
      bool_decide (NoDup l) &&
      forallb (includes squares) l &&
      forallb (fun f' =>
        forallb (fun r' =>
          Bool.eqb (includes l (square f' r'))
                   (bishopOffsetb (f' - f) (r' - r))) range8) range8
  | Fault _ => false
  end.

(** The colour the parity of file plus rank gives. *)
Definition parityColor (f r : Z) : SquareColor :=
  if Z.even (f + r) then dark else light.

Definition memberColor_eqb (a b : Member SquareColor) : bool :=
  match a, b with
  | own x, own y => Guards.SquareColor_eqb x y
  | inherited x, inherited y => String.eqb x y
  | absent, absent => true
  | _, _ => false
  end.

(** The check behind the colour theorem, for one piece and origin: every
    reachable square has the other colour for the knight, the same colour
    for the bishop. *)
Definition colourCheck (piece : Piece) (origin : string) : bool :=
  match getReachablePositions piece origin with
  | Done l =>
      forallb (fun t =>
        let same := memberColor_eqb (getSquareColor t) (getSquareColor origin) in
        match piece with
        | knight => negb same
        | bishop => same
        end) l
  | Fault _ => false
  end.

(** The check behind the symmetry of reachability, for one pair. *)
Definition symmetryCheck (piece : Piece) (a b : string) : bool :=
  match isReachable piece a b, isReachable piece b a, isReachable piece a a with
  | Done x, Done y, Done z => Bool.eqb x y && negb z
  | _, _, _ => false
  end.

(** The check behind [getRandomSquare]: the square at index [k] of the
    key order is the one on file [k / 8 + 1] and rank [k mod 8 + 1]. *)
Definition squareIndexCheck (k : nat) : bool :=
  match squares !! k with
  | Some s => String.eqb s (square (Z.of_nat k / 8 + 1) (Z.of_nat k mod 8 + 1))
  | None => false
  end.

(** A source whose first draw is 0 and whose later draws are all 63/64:
    the first square drawn is the corner a1 and the fraction drawn next is
    0.6. *)
Definition cornerSource : RandomSource :=
  fun i => if Nat.eqb i 0 then 0%Q else (63 # 64)%Q.

(** What a round record holds: the knight stands on a square; the five
    records created at round start have five different stimuli; every record
    is about one of them, a square of the board, and carries as [isTarget]
    what [isReachable] answers for it. *)
Definition roundRecord (round : Round) : Prop :=
  isSquare (round_piecePositionForRound round) /\
  NoDup (stimulus <$> take TRIALS_PER_ROUND (trials round)) /\
  Forall (fun trial =>
            isSquare (stimulus trial) /\
            isReachable knight (round_piecePositionForRound round)
              (stimulus trial) = Done (isTarget trial) /\
            stimulus trial ∈ (stimulus <$> take TRIALS_PER_ROUND (trials round)))
         (trials round).

(** The rounds recorded are those numbered 1 to [currentRound]. *)
Definition roundsNumbered (context_ : GameContext) : Prop :=
  0 <= currentRound context_ /\
  forall k, is_Some (roundData context_ !! k) <-> 1 <= k <= currentRound context_.

Definition ledger (context_ : GameContext) : Prop :=
  contextInvariant context_ /\
  roundsNumbered context_ /\
  forall k round, roundData context_ !! k = Some round -> roundRecord round.

(** The context fields of the round agree with the record of the current
    round. *)
Definition bookedRound (context_ : GameContext) : Prop :=
  exists round,
    roundData context_ !! currentRound context_ = Some round /\
    round_piecePositionForRound round = piecePositionForRound context_ /\
    stimulus <$> take TRIALS_PER_ROUND (trials round) = positionsForRound context_.

(** The square shown is the one at the index of the current trial. *)
Definition shown (context_ : GameContext) : Prop :=
  currentSquare context_ =
  at_ (positionsForRound context_)
      (Z.of_nat TRIALS_PER_ROUND - guessesRemainingInRound context_).

(** Whether [shown] holds after a list of actions, when it held before
    ([before = true]) or not: [setupNextTrial] sets the square shown, the
    decrement and [initialiseNextRound] change what the index or the
    positions are, the other actions touch neither. *)
Definition showsAfter (l : list Action.t) (before : bool) : bool :=
  fold_left (fun b a =>
               match a with
               | Action.setupNextTrial => true
               | Action.initialiseNextRound
               | Action.decrementGuessesRemainingInRound => false
               | _ => b
               end) l before.

Definition inPlayingRound (st : Node.t) : bool :=
  match parent st with
  | Some Node.playingRound => true
  | _ => false
  end.

Definition bookkeeping (c : Config) : Prop :=
  ledger (context c) /\
  (inRound (state c) = true -> bookedRound (context c)) /\
  (inPlayingRound (state c) = true -> shown (context c)).

(** ** Sessions, event by event *)

(** The events of one trial: the responses of the subject, then the tick
    that closes the window. *)
Definition trialEvents (responses : list Response) : list Event.t :=
  map Event.userResponse responses ++ [Event.tick].

(** The events of one round: the pre-round delay, then the trials. *)
Definition roundEvents (round : list (list Response)) : list Event.t :=
  Event.after_3000 :: flat_map trialEvents round.

Definition sessionEvents (rounds : list (list (list Response))) : list Event.t :=
  Event.start :: flat_map roundEvents rounds.

(** Where a configuration stands in a session. *)
Definition standsAt (c : Config) (st : Node.t) (remaining round : Z) : Prop :=
  state c = st /\ guessesRemainingInRound (context c) = remaining /\
  currentRound (context c) = round.

Definition finished (c : Config) (round : Z) : Prop :=
  state c = Node.gameOver /\ currentRound (context c) = round /\
  accuracyScore (context c)
    = Some (calculateAccuracyScore (roundData (context c))).

(** What a session knows about its accuracy: none is computed before the
    round number has reached [NUMBER_OF_ROUNDS], and in [gameOver] the
    accuracy is that of the rounds recorded. *)
Definition accuracyInvariant (c : Config) : Prop :=
  (accuracyScore (context c) <> None ->
   NUMBER_OF_ROUNDS <= currentRound (context c)) /\
  (state c = Node.gameOver ->
   NUMBER_OF_ROUNDS <= currentRound (context c) /\
   accuracyScore (context c)
     = Some (calculateAccuracyScore (roundData (context c)))).

(** ** The view of [App.tsx] *)

Module App.

(** [state.matches(name)]: the named node is active. *)
Definition matches (st n : Node.t) : bool := Node.eqb st n || isDescendant st n.

(** [state.hasTag(tag)]: an active node carries the tag. *)
Definition hasTag (st : Node.t) (tag : string) : bool :=
  existsb (fun n => includes (tags n) tag) (st :: ancestors st).

Inductive Color : Set := secondary | error | success.

(** The two assignments to [outcome], in the order written. *)
Definition outcome (st : Node.t) : option TrialOutcome :=
  let outcome := None in
  let outcome := if hasTag st "hit" then Some hit else outcome in
  if hasTag st "falseAlarm" then Some falseAlarm else outcome.

Definition color (st : Node.t) : Color :=
  let color := secondary in
  let color := match outcome st with Some falseAlarm => error | _ => color end in
  match outcome st with Some hit => success | _ => color end.

(** [handleKeyDown] for a key event with the given [key]. *)
Definition handleKeyDown (rs : RandomSource) (fuel : nat) (c : Config)
    (key : string) : run Config :=
  if matches (state c) Node.playing then
    if String.eqb key "l" then transition rs fuel c (Event.userResponse match_)
    else Done c
  else Done c.

(** The three blocks that the component renders under a
    [state.matches(...) &&] condition. *)
Inductive Panel : Set := startPanel | playPanel | gameOverPanel.

Definition panels (st : Node.t) : list Panel :=
  (if matches st Node.idle then [startPanel] else []) ++
  (if matches st Node.playing then [playPanel] else []) ++
  (if matches st Node.gameOver then [gameOverPanel] else []).

End App.

(** ** What the announcements say *)

(** [s.replace(pattern, replacement)] for a string pattern: the first
    occurrence is replaced. *)
Fixpoint replace (pattern replacement s : string) : string :=
  if String.prefix pattern s then
    (replacement ++ String.substring (String.length pattern) (String.length s) s)%string
  else
    match s with
    | EmptyString => EmptyString
    | String ch rest => String ch (replace pattern replacement rest)
    end.

(** The text that [announceSquare] hands to the speech synthesis, if it
    speaks. *)
Definition announceSquare_utterance (context_ : GameContext) : option string :=
  match currentSquare context_ with
  | Some sq =>
      if voiceEnabled context_ && negb (String.eqb sq "")
      then Some (replace "a" "ae" sq) else None
  | None => None
  end.

Definition announcePiecePosition_utterance (context_ : GameContext)
    : option string :=
  if voiceEnabled context_ && negb (String.eqb (piecePositionForRound context_) "")
  then Some ("knight " ++ replace "a" "ae" (piecePositionForRound context_))%string
  else None.

(** The atomic states other than [countdown]. *)
Definition activeState (st : Node.t) : bool :=
  match st with
  | Node.idle | Node.startingRound | Node.waitingForResponse | Node.hit
  | Node.falseAlarm | Node.gameOver => true
  | _ => false
  end.

Definition writesCountdown (a : Action.t) : bool :=
  match a with
  | Action.decrementCountdown | Action.initialiseCountdown => true
  | _ => false
  end.

(** * Properties *)

(** ** Helpers on strings, lists and ranges *)

Lemma includes_elem_of (l : list string) (x : string) :
  includes l x = true <-> x ∈ l.
Proof.
  induction l as [|y l IH]; simpl.
  - split; [discriminate | intros H; inversion H].
  - destruct (String.eqb_spec y x) as [->|Hne].
    + split; [intros _; left | reflexivity].
    + rewrite IH. split; [intros H; right; exact H|].
      intros H. inversion H; subst; [congruence | assumption].
Qed.

Lemma includes_false (l : list string) (x : string) :
  includes l x = false <-> x ∉ l.
Proof.
  rewrite <- includes_elem_of. destruct (includes l x); split; congruence.
Qed.

Lemma range8_complete (z : Z) : 1 <= z <= 8 -> In z range8.
Proof.
  intros H. unfold range8. simpl.
  assert (z = 1 \/ z = 2 \/ z = 3 \/ z = 4 \/ z = 5 \/ z = 6 \/ z = 7 \/ z = 8)
    as Hz by lia.
  intuition.
Qed.

Lemma range8_sound (z : Z) : In z range8 -> 1 <= z <= 8.
Proof. unfold range8. simpl. intros H. intuition; subst; lia. Qed.

Lemma squares_grid :
  squares = flat_map (fun f => map (fun r => square f r) range8) range8.
Proof. reflexivity. Qed.

Lemma isSquare_square (f r : Z) : onBoard f r -> isSquare (square f r).
Proof.
  intros [Hf Hr]. unfold isSquare. rewrite squares_grid.
  apply list_elem_of_In, in_flat_map. exists f. split.
  - apply range8_complete, Hf.
  - apply in_map, range8_complete, Hr.
Qed.

Lemma isSquare_inv (s : string) :
  isSquare s -> exists f r, onBoard f r /\ s = square f r.
Proof.
  unfold isSquare. rewrite squares_grid. intros H.
  apply list_elem_of_In, in_flat_map in H. destruct H as (f & Hf & H).
  apply in_map_iff in H. destruct H as (r & <- & Hr).
  exists f, r. split; [split; apply range8_sound; assumption | reflexivity].
Qed.

Lemma knightOffsetb_spec (df dr : Z) :
  knightOffsetb df dr = true <-> knightOffset df dr.
Proof.
  unfold knightOffsetb, knightOffset.
  rewrite orb_true_iff, !andb_true_iff, !Z.eqb_eq. reflexivity.
Qed.

(** ** The bishop loop ends within its bound *)

Lemma charCode_range (c : ascii) : 0 <= charCode c < 256.
Proof.
  unfold charCode. pose proof (N_ascii_bounded c). lia.
Qed.

Lemma inBounds_file (newFile newRank : Z) :
  inBounds newFile newRank = true -> 97 <= newFile <= 104.
Proof.
  unfold inBounds. rewrite !andb_true_iff, !Z.leb_le.
  change (charCode "a") with 97. change (charCode "h") with 104. lia.
Qed.

(** A slide that exhausts its bound has found every square along the way
    on the board. *)
Lemma bishopSlide_fault (fuel : nat) (file rank : ascii) (move : Z * Z) :
  forall (fileOffset rankOffset : Z) (acc : list string) (f : fault),
    bishopSlide fuel file rank move fileOffset rankOffset acc = Fault f ->
    forall j : nat, (j <= fuel)%nat ->
      inBounds (fromCharCode (charCode file + (fileOffset + Z.of_nat j * fst move)))
               (fromCharCode (charCode rank + (rankOffset + Z.of_nat j * snd move)))
      = true.
Proof.
  induction fuel as [|fuel IH]; intros fo ro acc f H j Hj; simpl in H.
  - assert (j = 0%nat) as -> by lia. simpl. rewrite !Z.add_0_r.
    destruct (inBounds _ _); [reflexivity|discriminate].
  - destruct (inBounds _ _) eqn:Hin; [|discriminate].
    destruct j as [|j].
    + simpl. rewrite !Z.add_0_r. exact Hin.
    + specialize (IH _ _ _ _ H j ltac:(lia)).
      replace (fo + Z.of_nat (S j) * fst move)
        with (fo + fst move + Z.of_nat j * fst move) by lia.
      replace (ro + Z.of_nat (S j) * snd move)
        with (ro + snd move + Z.of_nat j * snd move) by lia.
      exact IH.
Qed.

(** Eight iterations per direction suffice: the bound of the model is never
    what stops the bishop loop. *)
Lemma bishopSlide_fuel (file rank : ascii) (move : Z * Z) (acc : list string) :
  In move bishopMoves ->
  exists l,
    bishopSlide bishopFuel file rank move (fst move) (snd move) acc = Done l.
Proof.
  intros Hmove.
  destruct (bishopSlide bishopFuel file rank move (fst move) (snd move) acc)
    as [l|f] eqn:H; [exists l; reflexivity|exfalso].
  pose proof (bishopSlide_fault _ _ _ _ _ _ _ _ H 0%nat ltac:(unfold bishopFuel; lia))
    as H0.
  pose proof (bishopSlide_fault _ _ _ _ _ _ _ _ H 8%nat ltac:(unfold bishopFuel; lia))
    as H8.
  apply inBounds_file in H0, H8.
  pose proof (charCode_range file) as Hc.
  unfold fromCharCode in H0, H8.
  assert (fst move = 1 \/ fst move = -1) as [Hd|Hd]
    by (simpl in Hmove; intuition; subst; simpl; lia).
  - rewrite Hd in H0, H8. change (Z.of_nat 0) with 0 in H0.
    change (Z.of_nat 8) with 8 in H8.
    Z.div_mod_to_equations. lia.
  - rewrite Hd in H0, H8. change (Z.of_nat 0) with 0 in H0.
    change (Z.of_nat 8) with 8 in H8.
    Z.div_mod_to_equations. lia.
Qed.

Lemma bishopLoop_done (file rank : ascii) (moves : list (Z * Z)) :
  (forall move, In move moves -> In move bishopMoves) ->
  forall acc, exists l, bishopLoop file rank moves acc = Done l.
Proof.
  induction moves as [|move rest IH]; intros Hsub acc.
  - exists acc. reflexivity.
  - destruct (bishopSlide_fuel file rank move acc (Hsub move (or_introl eq_refl)))
      as [l Hl].
    destruct (IH (fun m Hm => Hsub m (or_intror Hm)) l) as [l' Hl'].
    exists l'. cbn [bishopLoop]. rewrite Hl. exact Hl'.
Qed.

(** The only fault of the reachable list is the [TypeError] of a position
    shorter than two characters. *)
Lemma getReachablePositions_fault (piece : Piece) (position : string) (f : fault) :
  getReachablePositions piece position = Fault f -> f = TypeError.
Proof.
  unfold getReachablePositions.
  destruct position as [|file [|rank rest]]; destruct piece;
    cbn [splitFileRank run_bind]; try (intros [= <-]; reflexivity).
  destruct (bishopLoop_done file rank bishopMoves (fun m Hm => Hm) []) as [l ->].
  intros H. discriminate H.
Qed.

(** ** The classification table *)

(** C4. The [if] chain of [evaluateGuess] maps (target, match) to hit,
    (non-target, match) to falseAlarm, (non-target, no response) to
    correctRejection and (target, no response) to miss, and these four rows
    are all the inputs there are. *)
Theorem evaluateGuess_outcome_table :
  evaluateGuess_outcome true (Some match_) = hit /\
  evaluateGuess_outcome false (Some match_) = falseAlarm /\
  evaluateGuess_outcome false None = correctRejection /\
  evaluateGuess_outcome true None = miss /\
  (forall (isTarget' : bool) (response : option Response),
      In (isTarget', response)
         [(true, Some match_); (false, Some match_); (false, None); (true, None)]).
Proof.
  repeat split.
  intros [|] [[]|]; simpl; intuition.
Qed.

(** ** Knight geometry *)

Lemma knightCheck_all :
  forallb (fun f => forallb (knightCheck f) range8) range8 = true.
Proof. vm_compute. reflexivity. Qed.

(** C7. From every square of the board the knight list is free of
    duplicates and holds exactly the on-board squares one knight offset
    away; from d4 these are b3, b5, c2, c6, e2, e6, f3 and f5. *)
Theorem knight_reachable_exact :
  (forall f r : Z, onBoard f r ->
     exists l,
       getReachablePositions knight (square f r) = Done l /\
       NoDup l /\
       forall s, s ∈ l <->
         exists f' r', onBoard f' r' /\ knightOffset (f' - f) (r' - r) /\
                       s = square f' r') /\
  getReachablePositions knight "d4" =
    Done ["b3"; "b5"; "c2"; "c6"; "e2"; "e6"; "f3"; "f5"].
Proof.
  split; [|reflexivity].
  intros f r [Hf Hr].
  pose proof knightCheck_all as Hall.
  rewrite forallb_forall in Hall.
  specialize (Hall f (range8_complete f Hf)).
  rewrite forallb_forall in Hall.
  specialize (Hall r (range8_complete r Hr)).
  unfold knightCheck in Hall.
  destruct (getReachablePositions knight (square f r)) as [l|]; [|discriminate].
  apply andb_true_iff in Hall as [Hall Hgrid].
  apply andb_true_iff in Hall as [Hnodup Hsq].
  exists l. split; [reflexivity|]. split; [apply bool_decide_eq_true in Hnodup; exact Hnodup|].
  rewrite forallb_forall in Hsq, Hgrid.
  assert (Hcell : forall f' r', onBoard f' r' ->
            includes l (square f' r') = knightOffsetb (f' - f) (r' - r)).
  { intros f' r' [Hf' Hr'].
    specialize (Hgrid f' (range8_complete f' Hf')).
    rewrite forallb_forall in Hgrid.
    specialize (Hgrid r' (range8_complete r' Hr')).
    apply Bool.eqb_prop in Hgrid. exact Hgrid. }
  intros s. split.
  - intros Hs.
    assert (isSquare s) as Hsquare.
    { apply includes_elem_of, Hsq, list_elem_of_In, Hs. }
    destruct (isSquare_inv s Hsquare) as (f' & r' & Hon & ->).
    exists f', r'. split; [exact Hon|]. split; [|reflexivity].
    apply knightOffsetb_spec. rewrite <- (Hcell f' r' Hon).
    apply includes_elem_of, Hs.
  - intros (f' & r' & Hon & Hoff & ->).
    apply includes_elem_of. rewrite (Hcell f' r' Hon).
    apply knightOffsetb_spec, Hoff.
Qed.

Lemma knight_reachable_exact_witness :
  onBoard 4 4 /\
  exists l,
    getReachablePositions knight (square 4 4) = Done l /\
    NoDup l /\
    forall s, s ∈ l <->
      exists f' r', onBoard f' r' /\ knightOffset (f' - 4) (r' - 4) /\
                    s = square f' r'.
Proof.
  assert (onBoard 4 4) as H by (unfold onBoard; lia).
  split; [exact H|].
  exact (proj1 knight_reachable_exact 4 4 H).
Defined.

(** ** The accuracy score *)

Lemma countTrial_fold (ts : list Trial) (t c : Z) :
  fold_left countTrial ts (t, c) =
  (t + len ts, c + len (List.filter isCorrect ts)).
Proof.
  revert t c. induction ts as [|x ts IH]; intros t c; unfold len in *; simpl.
  - f_equal; lia.
  - rewrite IH. destruct (isCorrect x); simpl length; f_equal; lia.
Qed.

Lemma countRound_fold (rounds : list Round) (t c : Z) :
  fold_left countRound rounds (t, c) =
  (t + len (flat_map trials rounds),
   c + len (List.filter isCorrect (flat_map trials rounds))).
Proof.
  revert t c. induction rounds as [|r rounds IH]; intros t c; unfold len in *.
  - simpl. f_equal; lia.
  - simpl fold_left. unfold countRound at 2. rewrite countTrial_fold.
    rewrite IH. unfold len. simpl flat_map.
    rewrite List.filter_app, !length_app. f_equal; lia.
Qed.

Lemma calculateAccuracyScore_counts (roundData : gmap Z Round) :
  calculateAccuracyScore roundData =
  if Z.eqb (recordCount roundData) 0 then 0%Q
  else
    double (inject_Z (Math_round
              (double (double (inject_Z (correctCount roundData)
                               / inject_Z (recordCount roundData)) * 10000)))
            / 100).
Proof.
  unfold calculateAccuracyScore, recordCount, correctCount, allTrials.
  rewrite countRound_fold. rewrite !Z.add_0_l. reflexivity.
Qed.

Lemma filter_length_le {A} (p : A -> bool) (l : list A) :
  (length (List.filter p l) <= length l)%nat.
Proof.
  induction l as [|x l IH]; simpl; [lia|]. destruct (p x); simpl; lia.
Qed.

Lemma filter_length_le_implied {A} (p q : A -> bool) (l : list A) :
  (forall x, p x = true -> q x = true) ->
  (length (List.filter p l) <= length (List.filter q l))%nat.
Proof.
  intros Hpq. induction l as [|x l IH]; simpl; [lia|].
  destruct (p x) eqn:Hp.
  - rewrite (Hpq x Hp). simpl. lia.
  - destruct (q x); simpl; lia.
Qed.

Lemma isCorrect_isClassified (trial : Trial) :
  isCorrect trial = true -> isClassified trial = true.
Proof.
  unfold isCorrect, isClassified. destruct (outcome trial); [reflexivity|discriminate].
Qed.

Lemma correctCount_bounds (roundData : gmap Z Round) :
  0 <= correctCount roundData <= classifiedCount roundData /\
  classifiedCount roundData <= recordCount roundData.
Proof.
  unfold correctCount, classifiedCount, recordCount, len.
  pose proof (filter_length_le_implied isCorrect isClassified
                (allTrials roundData) isCorrect_isClassified).
  pose proof (filter_length_le isClassified (allTrials roundData)).
  lia.
Qed.

(** *** The rounding to the nearest double *)

Lemma pow2_pos (k : Z) : (0 < pow2 k)%Q.
Proof. apply Qpower_0_lt. reflexivity. Qed.

Lemma pow2_nat (n : Z) : 0 <= n -> (pow2 n == inject_Z (2 ^ n))%Q.
Proof. intros Hn. unfold pow2. rewrite Zpower_Qpower by exact Hn. reflexivity. Qed.

Lemma pow2_sub (a b : Z) : (pow2 (a - b) == pow2 a / pow2 b)%Q.
Proof. unfold pow2. apply Qpower_minus. discriminate. Qed.

(** [ilog2] is the exponent: a positive [x] lies between [2^(ilog2 x)] and
    the next power of two, so that the significand [nearest] rounds lies
    between [2^52] and [2^53]. *)
Lemma ilog2_spec (x : Q) :
  (0 < x)%Q -> (pow2 (ilog2 x) <= x)%Q /\ (x < pow2 (ilog2 x + 1))%Q.
Proof.
  intros Hx. destruct x as [p q].
  assert (0 < p) as Hp by (unfold Qlt in Hx; simpl in Hx; lia).
  unfold ilog2. cbn [Qnum Qden].
  set (lp := Z.log2 p). set (lq := Z.log2 (Z.pos q)).
  assert (0 <= lp) as Hlp0 by apply Z.log2_nonneg.
  assert (0 <= lq) as Hlq0 by apply Z.log2_nonneg.
  destruct (Z.log2_spec p Hp) as [Hp1 Hp2]. fold lp in Hp1, Hp2.
  destruct (Z.log2_spec (Z.pos q) ltac:(lia)) as [Hq1 Hq2]. fold lq in Hq1, Hq2.
  rewrite <- Z.add_1_r in Hp2, Hq2.
  assert (forall a b : Z, 0 <= a -> 0 <= b ->
            (pow2 (a - b) == inject_Z (2 ^ a) / inject_Z (2 ^ b))%Q) as Hquot.
  { intros a b Ha Hb. rewrite pow2_sub, !pow2_nat by assumption. reflexivity. }
  assert (forall a b : Z, 0 < b ->
            (inject_Z a / inject_Z b == a # Z.to_pos b)%Q) as Hfrac.
  { intros a b Hb. destruct b as [|b|b]; try lia.
    unfold Qeq, Qdiv, Qmult, Qinv, inject_Z. simpl. lia. }
  assert (0 < 2 ^ lp) as Hplp by (apply Z.pow_pos_nonneg; lia).
  assert (0 < 2 ^ lq) as Hplq by (apply Z.pow_pos_nonneg; lia).
  assert (0 < 2 ^ (lq + 1)) as Hplq1 by (apply Z.pow_pos_nonneg; lia).
  assert (0 < 2 ^ (lp + 1)) as Hplp1 by (apply Z.pow_pos_nonneg; lia).
  destruct (Qle_bool (pow2 (lp - lq)) (p # q)) eqn:Htest.
  - apply Qle_bool_iff in Htest. split; [exact Htest|].
    replace (lp - lq + 1) with ((lp + 1) - lq) by lia.
    rewrite Hquot by lia. rewrite Hfrac by lia.
    unfold Qlt. simpl. rewrite Z2Pos.id by lia. nia.
  - assert (~ (pow2 (lp - lq) <= p # q)%Q) as Hnot
      by (intros H; apply Qle_bool_iff in H; congruence).
    apply Qnot_le_lt in Hnot. split.
    + replace (lp - lq - 1) with (lp - (lq + 1)) by lia.
      rewrite Hquot by lia. rewrite Hfrac by lia.
      unfold Qle. simpl. rewrite Z2Pos.id by lia. nia.
    + replace (lp - lq - 1 + 1) with (lp - lq) by lia. exact Hnot.
Qed.

Lemma roundHalfEven_near (x : Q) :
  (x - (1 # 2) <= inject_Z (roundHalfEven x))%Q /\
  (inject_Z (roundHalfEven x) <= x + (1 # 2))%Q.
Proof.
  unfold roundHalfEven.
  pose proof (Qfloor_le x) as Hlo. pose proof (Qlt_floor x) as Hhi.
  rewrite inject_Z_plus in Hhi. change (inject_Z 1) with 1%Q in Hhi.
  destruct (Qcompare_spec (x - inject_Z (Qfloor x)) (1 # 2)) as [He|Hl|Hg].
  - destruct (Z.even (Qfloor x)); rewrite ?inject_Z_plus;
      change (inject_Z 1) with 1%Q; lra.
  - lra.
  - rewrite inject_Z_plus. change (inject_Z 1) with 1%Q. lra.
Qed.

(** The rounding moves a positive number by at most half a unit of its
    last place, which is at most [2^-53] of the number. *)
Lemma nearest_error (x : Q) :
  (0 < x)%Q ->
  (x - x * (1 # 2 ^ 53) <= nearest x)%Q /\ (nearest x <= x + x * (1 # 2 ^ 53))%Q.
Proof.
  intros Hx. unfold nearest. rewrite Qred_correct.
  destruct (ilog2_spec x Hx) as [Hlow _].
  set (k := ilog2 x) in *.
  pose proof (pow2_pos (k - 52)) as Hunit.
  assert (pow2 k == pow2 (k - 52) * inject_Z (2 ^ 52))%Q as Hk.
  { rewrite <- pow2_nat by lia. unfold pow2.
    rewrite <- Qpower_plus by discriminate. f_equiv. lia. }
  set (unit := pow2 (k - 52)) in *.
  destruct (roundHalfEven_near (x / unit)) as [Hm1 Hm2].
  set (m := inject_Z (roundHalfEven (x / unit))) in *.
  assert (x / unit * unit == x)%Q as Hxy by (field; lra).
  rewrite Hk in Hlow.
  change (inject_Z (2 ^ 52)) with (4503599627370496 # 1)%Q in Hlow.
  change (1 # 2 ^ 53)%Q with (1 # 9007199254740992)%Q.
  set (y := (x / unit)%Q) in *.
  split; nra.
Qed.

Lemma double_zero (x : Q) : (x == 0)%Q -> double x = 0%Q.
Proof.
  intros Hx. destruct x as [p q]. unfold Qeq in Hx. simpl in Hx.
  assert (p = 0) as -> by lia. reflexivity.
Qed.

Lemma double_error (x : Q) :
  (0 <= x)%Q ->
  (x - x * (1 # 2 ^ 53) <= double x)%Q /\ (double x <= x + x * (1 # 2 ^ 53))%Q.
Proof.
  intros Hx. destruct (Qlt_le_dec 0 x) as [Hpos|Hle].
  - assert (double x = nearest x) as ->.
    { destruct x as [[|p|p] q]; unfold Qlt in Hpos; simpl in Hpos;
        try lia; reflexivity. }
    apply nearest_error, Hpos.
  - assert (x == 0)%Q as Hz by lra. rewrite (double_zero x Hz).
    rewrite Hz. split; lra.
Qed.

Lemma double_nonneg (x : Q) : (0 <= x)%Q -> (0 <= double x)%Q.
Proof.
  intros Hx. destruct (double_error x Hx) as [Hlo _].
  change (1 # 2 ^ 53)%Q with (1 # 9007199254740992)%Q in Hlo. nra.
Qed.

(** On the counters up to 100 the three operations of the scorer give, on
    the floats of the machine, the values that [double] gives: the
    quotient, its product with 10000, and the quotient of the rounded
    product by 100. *)
Lemma double_as_the_floats :
  forallb (fun counters => floatCheck (fst counters) (snd counters))
          (countersUpTo 100) = true /\
  floatCheck 57 800 = true.
Proof. split; vm_compute; reflexivity. Qed.

(** *** The score *)

Lemma ratio_unit (c t : Z) :
  0 <= c <= t -> 0 < t ->
  (0 <= inject_Z c / inject_Z t)%Q /\ (inject_Z c / inject_Z t <= 1)%Q.
Proof.
  intros Hc Ht.
  assert (0 < inject_Z t)%Q as Ht'
    by (change 0%Q with (inject_Z 0); rewrite <- Zlt_Qlt; exact Ht).
  split.
  - apply Qle_shift_div_l; [exact Ht'|].
    rewrite Qmult_0_l. change 0%Q with (inject_Z 0). rewrite <- Zle_Qle. lia.
  - apply Qle_shift_div_r; [exact Ht'|].
    rewrite Qmult_1_l. rewrite <- Zle_Qle. lia.
Qed.

(** The product that the scorer rounds to an integer, against the exact
    one: the two roundings before it move it by less than [10^-11]. *)
Lemma scaled_accuracy_error (c t : Z) :
  0 <= c <= t -> 0 < t ->
  let exact := (10000 * (inject_Z c / inject_Z t))%Q in
  let product := double (double (inject_Z c / inject_Z t) * 10000) in
  (exact - (1 # 10 ^ 11) <= product)%Q /\ (product <= exact + (1 # 10 ^ 11))%Q /\
  (0 <= product)%Q.
Proof.
  intros Hc Ht exact product.
  destruct (ratio_unit c t Hc Ht) as [Hr0 Hr1].
  subst exact product.
  set (r := (inject_Z c / inject_Z t)%Q) in *.
  destruct (double_error r Hr0) as [Ha1 Ha2].
  pose proof (double_nonneg r Hr0) as Ha0.
  set (a := double r) in *.
  assert (0 <= a * 10000)%Q as Hb0 by nra.
  destruct (double_error (a * 10000) Hb0) as [Hp1 Hp2].
  pose proof (double_nonneg _ Hb0) as Hp0.
  set (p := double (a * 10000)) in *.
  change (1 # 2 ^ 53)%Q with (1 # 9007199254740992)%Q in *.
  change (1 # 10 ^ 11)%Q with (1 # 100000000000)%Q.
  repeat split; [nra|nra|exact Hp0].
Qed.

Lemma Math_round_le (x y : Q) : (x <= y)%Q -> Math_round x <= Math_round y.
Proof.
  intros H. unfold Math_round. apply Qfloor_resp_le. lra.
Qed.

Lemma hundredths_double (n : Z) :
  0 <= n <= 10000 ->
  (0 <= double (inject_Z n / 100))%Q /\ (double (inject_Z n / 100) <= 100)%Q.
Proof.
  intros Hn.
  assert (0 <= inject_Z n / 100)%Q as Hq0
    by (unfold Qle, Qdiv, Qmult, Qinv, inject_Z; simpl; lia).
  split; [apply double_nonneg, Hq0|].
  destruct (Z.eq_dec n 10000) as [->|Hne].
  - vm_compute. discriminate.
  - destruct (double_error _ Hq0) as [_ Hup].
    assert (inject_Z n / 100 <= 9999 # 100)%Q as Hq1
      by (unfold Qle, Qdiv, Qmult, Qinv, inject_Z; simpl; lia).
    change (1 # 2 ^ 53)%Q with (1 # 9007199254740992)%Q in Hup. nra.
Qed.

(** C3, as the code has it. The counters run over all trial records of all
    rounds, whether or not a record carries an outcome, and the score is
    computed in double precision. With fewer than [2^53] records, so that
    the counters are exact: the score is 0 when there is no record and when
    no record is classified. Otherwise it is the double nearest to [n/100]
    for an integer [n] between 0 and 10000, and [n] is the rounding to the
    nearest integer of a number within [10^-11] of 10000 times the records
    with outcome hit or correctRejection over all the records. So the score
    is that percentage rounded to two decimal places, unless the percentage
    lies within [10^-13] of a tie between two roundings, where either may
    be taken ([calculateAccuracyScore_near_tie]). It lies between 0 and
    100. *)
Theorem calculateAccuracyScore_spec (roundData : gmap Z Round) :
  recordCount roundData < 2 ^ 53 ->
  let exact :=
    (10000 * (inject_Z (correctCount roundData)
              / inject_Z (recordCount roundData)))%Q in
  (recordCount roundData = 0 -> calculateAccuracyScore roundData = 0%Q) /\
  (classifiedCount roundData = 0 -> calculateAccuracyScore roundData = 0%Q) /\
  (0 < recordCount roundData ->
   exists n : Z,
     calculateAccuracyScore roundData = double (inject_Z n / 100) /\
     Math_round (exact - (1 # 10 ^ 11)) <= n
       <= Math_round (exact + (1 # 10 ^ 11)) /\
     0 <= n <= 10000) /\
  (0 <= calculateAccuracyScore roundData)%Q /\
  (calculateAccuracyScore roundData <= 100)%Q.
Proof.
  intros _ exact.
  pose proof (correctCount_bounds roundData) as [[Hc0 Hcc] Hcr].
  rewrite calculateAccuracyScore_counts.
  destruct (Z.eqb_spec (recordCount roundData) 0) as [Hz|Hnz].
  - split; [reflexivity|]. split; [reflexivity|].
    split; [lia|]. split; discriminate.
  - assert (0 < recordCount roundData) as Hpos by lia.
    destruct (scaled_accuracy_error (correctCount roundData)
                (recordCount roundData) ltac:(lia) Hpos) as (Hlo & Hhi & Hp0).
    fold exact in Hlo, Hhi.
    destruct (ratio_unit (correctCount roundData) (recordCount roundData)
                ltac:(lia) Hpos) as [_ Hr1].
    set (p := double (double (inject_Z (correctCount roundData)
                              / inject_Z (recordCount roundData)) * 10000)) in *.
    assert (0 <= Math_round p <= 10000) as Hn.
    { unfold Math_round. split.
      - change 0 with (Qfloor 0). apply Qfloor_resp_le. lra.
      - assert (Qfloor (p + (1 # 2)) < 10001); [|lia].
        rewrite Zlt_Qlt. eapply Qle_lt_trans; [apply Qfloor_le|].
        change (1 # 10 ^ 11)%Q with (1 # 100000000000)%Q in Hhi.
        change (inject_Z 10001) with 10001%Q. subst exact. lra. }
    split; [intros H; lia|]. split; [|split].
    + intros Hnone. assert (correctCount roundData = 0) as Hzero by lia.
      subst p. rewrite Hzero.
      rewrite (double_zero (inject_Z 0 / _)) by (unfold Qdiv; apply Qmult_0_l).
      reflexivity.
    + intros _. exists (Math_round p). split; [reflexivity|].
      split; [split; apply Math_round_le; assumption|exact Hn].
    + apply hundredths_double, Hn.
Qed.

Lemma calculateAccuracyScore_spec_witness :
  recordCount unclassifiedOnly < 2 ^ 53 /\
  classifiedCount unclassifiedOnly = 0 /\
  calculateAccuracyScore unclassifiedOnly = 0%Q.
Proof.
  assert (recordCount unclassifiedOnly < 2 ^ 53) as Hfew by reflexivity.
  assert (classifiedCount unclassifiedOnly = 0) as H by reflexivity.
  split; [exact Hfew|]. split; [exact H|].
  exact (proj1 (proj2 (calculateAccuracyScore_spec unclassifiedOnly Hfew)) H).
Defined.

(** C3, as the specification words it, fails: with one hit and one record
    without outcome the code divides by the two records and returns 50,
    where the ratio over the classified trials is 100. *)
Lemma calculateAccuracyScore_not_over_classified :
  (calculateAccuracyScore halfClassified == 50)%Q /\
  (scoreOverClassified halfClassified == 100)%Q /\
  ~ (calculateAccuracyScore halfClassified == scoreOverClassified halfClassified)%Q.
Proof.
  repeat split. intros H. vm_compute in H. discriminate.
Qed.

(** The rounding to two decimal places is that of the doubles: for 57
    records out of 800 the percentage is 7.125; the quotient is rounded to a
    double below 57/800, its product with 10000 to the double below 712.5,
    and the score is the double nearest to 7.12, where rounding the exact
    percentage gives 7.13. *)
Lemma calculateAccuracyScore_near_tie :
  recordCount nearTie = 800 /\ correctCount nearTie = 57 /\
  (double (57 # 800) < 57 # 800)%Q /\
  (double (double (57 # 800) * 10000) < 7125 # 10)%Q /\
  calculateAccuracyScore nearTie = double (712 # 100) /\
  (percentage 57 800 == 713 # 100)%Q.
Proof. vm_compute. repeat split. Qed.

(** ** The interpreter, event by event *)

Lemma firstEnabled_in (candidates : list Transition) (context : GameContext)
    (tr : Transition) :
  firstEnabled candidates context = Done (Some tr) ->
  In tr candidates /\
  (forall g, guard tr = Some g -> evalGuard g context = Done true).
Proof.
  induction candidates as [|x rest IH]; simpl; [discriminate|].
  destruct (guard x) as [g|] eqn:Hg.
  - destruct (evalGuard g context) as [[|]|] eqn:Heval; simpl.
    + intros [= ->]. split; [left; reflexivity|]. congruence.
    + intros H. destruct (IH H) as [Hin Hguard]. split; [right|]; assumption.
    + discriminate.
  - intros [= ->]. split; [left; reflexivity|]. congruence.
Qed.

Lemma selectTransition_in (path : list Node.t) (event : Event.t)
    (context : GameContext) (n : Node.t) (tr : Transition) :
  selectTransition path event context = Done (Some (n, tr)) ->
  In n path /\ In tr (on n event) /\
  (forall g, guard tr = Some g -> evalGuard g context = Done true).
Proof.
  induction path as [|x rest IH]; simpl; [discriminate|].
  destruct (firstEnabled (on x event) context) as [[tr'|]|] eqn:Hfirst; simpl.
  - intros [= -> ->]. split; [left; reflexivity|].
    eapply firstEnabled_in, Hfirst.
  - intros H. destruct (IH H) as (Hn & Htr & Hguard).
    split; [right|split]; assumption.
  - discriminate.
Qed.

Lemma selectTransition_unhandled (path : list Node.t) (event : Event.t)
    (context : GameContext) :
  (forall n, In n path -> on n event = []) ->
  selectTransition path event context = Done None.
Proof.
  induction path as [|x rest IH]; intros Hnone; simpl; [reflexivity|].
  rewrite (Hnone x (or_introl eq_refl)). simpl.
  apply IH. intros n Hn. apply Hnone. right; exact Hn.
Qed.

(** What a successful step consists of: either no transition was selected
    and nothing changed, or the actions of a written transition ran,
    followed by the entry actions of the nodes entered. *)
Lemma transition_inv (rs : RandomSource) (fuel : nat) (c c' : Config)
    (event : Event.t) :
  transition rs fuel c event = Done c' ->
  c' = c \/
  exists n tr,
    In n (state c :: ancestors (state c)) /\ In tr (on n event) /\
    (forall g, guard tr = Some g -> evalGuard g (context c) = Done true) /\
    let entered := match target tr with
                   | Some target_ => enteredNodes n target_
                   | None => []
                   end in
    execActions rs fuel (actions tr ++ flat_map entry entered) event
      (context c) (calls c) = Done (context c', calls c') /\
    state c' = List.last entered (state c).
Proof.
  unfold transition.
  destruct (selectTransition _ event (context c)) as [[[n tr]|]|] eqn:Hsel; simpl.
  - destruct (selectTransition_in _ _ _ _ _ Hsel) as (Hn & Htr & Hguard).
    destruct (execActions _ _ _ _ _ _) as [[ctx' calls']|] eqn:Hexec; simpl;
      [|discriminate].
    intros [= <-]. right. exists n, tr. simpl. repeat split; assumption.
  - intros [= <-]. left; reflexivity.
  - discriminate.
Qed.

Lemma reachable_runEvents (rs : RandomSource) (fuel : nat)
    (events : list Event.t) (c c' : Config) :
  reachable rs c -> runEvents rs fuel c events = Done c' -> reachable rs c'.
Proof.
  revert c. induction events as [|event rest IH]; intros c Hc; simpl.
  - intros [= <-]. exact Hc.
  - destruct (transition rs fuel c event) as [c1|] eqn:Hstep; simpl; [|discriminate].
    apply IH. eapply reachable_step; eassumption.
Qed.

(** ** Events that are not legal *)

(** C8. An event for which neither the active state nor any of its
    ancestors declares a transition leaves the state, the context and the
    random source untouched, and the step completes; so does a
    [userResponse] sent in [idle]. *)
Theorem illegal_event_ignored :
  (forall (rs : RandomSource) (fuel : nat) (c : Config) (event : Event.t),
      legal (state c) event = false ->
      transition rs fuel c event = Done c) /\
  (forall (rs : RandomSource) (fuel : nat) (context_ : GameContext)
          (calls_ : nat) (r : Response),
      transition rs fuel (mkConfig Node.idle context_ calls_)
        (Event.userResponse r) =
      Done (mkConfig Node.idle context_ calls_)).
Proof.
  split.
  - intros rs fuel c event Hlegal. unfold transition.
    rewrite selectTransition_unhandled; [reflexivity|].
    intros n Hn. unfold legal in Hlegal.
    destruct (on n event) eqn:Hon; [reflexivity|exfalso].
    assert (existsb (fun n => match on n event with [] => false | _ => true end)
              (state c :: ancestors (state c)) = true) as Hex.
    { apply existsb_exists. exists n. split; [exact Hn|]. rewrite Hon. reflexivity. }
    congruence.
  - intros rs fuel context_ calls_ r. reflexivity.
Qed.

Lemma illegal_event_ignored_witness :
  legal (state initialConfig) Event.tick = false /\
  transition cyclicSource 0 initialConfig Event.tick = Done initialConfig.
Proof.
  assert (legal (state initialConfig) Event.tick = false) as H by reflexivity.
  split; [exact H|].
  exact (proj1 illegal_event_ignored cyclicSource 0%nat initialConfig Event.tick H).
Defined.

(** ** Restart *)

(** [gameOver] is entered by one transition only: the [tick] of
    [playingRound] that is guarded by the number of rounds played. *)
Lemma entering_gameOver (st n : Node.t) (event : Event.t) (tr : Transition) :
  st <> Node.gameOver ->
  In n (st :: ancestors st) -> In tr (on n event) ->
  List.last (match target tr with
             | Some target_ => enteredNodes n target_
             | None => []
             end) st = Node.gameOver ->
  n = Node.playingRound /\
  tr = mkTransition (Some Guard.inline_roundsPlayed)
         [Action.calculateAccuracyScore] (Some Node.gameOver).
Proof.
  intros Hst Hn Htr.
  destruct st; try congruence; simpl in Hn;
    repeat (destruct Hn as [<-|Hn]); try contradiction;
    destruct event; simpl in Htr;
    repeat (destruct Htr as [<-|Htr]); try contradiction;
    vm_compute; intros H; try discriminate H; split; reflexivity.
Qed.

Lemma leaving_gameOver (n : Node.t) (event : Event.t) (tr : Transition) :
  In n (Node.gameOver :: ancestors Node.gameOver) -> In tr (on n event) ->
  List.last (match target tr with
             | Some target_ => enteredNodes n target_
             | None => []
             end) Node.gameOver = Node.idle.
Proof.
  intros Hn Htr. simpl in Hn.
  repeat (destruct Hn as [<-|Hn]); try contradiction;
    destruct event; simpl in Htr;
    repeat (destruct Htr as [<-|Htr]); try contradiction; reflexivity.
Qed.

(** C5, as the code has it. [restart] in [gameOver] leads to [idle]; the
    transition has no action and [idle] no entry action, so the context
    stays what the finished session left. In every [gameOver] configuration
    a session can reach the round number is at least [NUMBER_OF_ROUNDS], so
    that context is never the initial one. *)
Theorem restart_keeps_context :
  (forall (rs : RandomSource) (fuel : nat) (context_ : GameContext)
          (calls_ : nat),
      transition rs fuel (mkConfig Node.gameOver context_ calls_) Event.restart =
      Done (mkConfig Node.idle context_ calls_)) /\
  (forall (rs : RandomSource) (c : Config),
      reachable rs c -> state c = Node.gameOver ->
      NUMBER_OF_ROUNDS <= currentRound (context c) /\
      context c <> initialContext).
Proof.
  split; [reflexivity|].
  intros rs c Hreach Hstate.
  assert (NUMBER_OF_ROUNDS <= currentRound (context c)) as Hrounds.
  { induction Hreach as [|c event fuel c' Hreach IH Hstep]; [discriminate|].
    destruct (transition_inv _ _ _ _ _ Hstep)
      as [->|(n & tr & Hn & Htr & Hguard & Hexec & Hlast)]; [exact (IH Hstate)|].
    simpl in Hexec, Hlast. rewrite Hstate in Hlast. symmetry in Hlast.
    destruct (Node.eqb (state c) Node.gameOver) eqn:Hwas.
    - assert (state c = Node.gameOver) as Hc by (destruct (state c); try discriminate; reflexivity).
      rewrite Hc in Hn, Hlast.
      rewrite (leaving_gameOver n event tr Hn Htr) in Hlast. discriminate.
    - assert (state c <> Node.gameOver) as Hc by (intros Heq; rewrite Heq in Hwas; discriminate).
      destruct (entering_gameOver _ _ _ _ Hc Hn Htr Hlast) as [-> ->].
      specialize (Hguard _ eq_refl). simpl in Hguard.
      injection Hguard as Hguard. apply Z.leb_le in Hguard.
      assert (execActions rs fuel [Action.calculateAccuracyScore] event
                (context c) (calls c) = Done (context c', calls c')) as Hexec'
        by exact Hexec.
      simpl in Hexec'. unfold bind, ret in Hexec'.
      injection Hexec' as Hcontext _.
      rewrite <- Hcontext. simpl. exact Hguard. }
  split; [exact Hrounds|].
  intros Heq. rewrite Heq in Hrounds. vm_compute in Hrounds. apply Hrounds. reflexivity.
Qed.

Lemma restart_keeps_context_witness :
  exists c,
    reachable cyclicSource c /\ state c = Node.gameOver /\
    NUMBER_OF_ROUNDS <= currentRound (context c) /\
    context c <> initialContext.
Proof.
  assert (reachable cyclicSource initialConfig) as H0 by constructor.
  destruct (runEvents cyclicSource 100 initialConfig silentSession) as [c|f] eqn:Hrun.
  - assert (state c = Node.gameOver) as Hstate
      by (vm_compute in Hrun; injection Hrun as <-; reflexivity).
    assert (reachable cyclicSource c) as Hc
      by exact (reachable_runEvents cyclicSource 100%nat silentSession
                  initialConfig c H0 Hrun).
    exists c. split; [exact Hc|]. split; [exact Hstate|].
    exact (proj2 restart_keeps_context cyclicSource c Hc Hstate).
  - vm_compute in Hrun. discriminate.
Defined.

(** C5, as the specification words it, fails: after the silent session
    has reached [gameOver], [restart] leads to [idle] with the round number
    still 4 and the accuracy still set, not with the initial context. *)
Lemma restart_does_not_reset :
  exists c c',
    runEvents cyclicSource 100 initialConfig silentSession = Done c /\
    state c = Node.gameOver /\
    transition cyclicSource 100 c Event.restart = Done c' /\
    state c' = Node.idle /\
    currentRound (context c') = 4 /\
    accuracyScore (context c') = Some (double (2222 # 100)) /\
    context c' <> initialContext.
Proof.
  eexists. eexists.
  split. { vm_compute. reflexivity. }
  split. { reflexivity. }
  split. { reflexivity. }
  split. { reflexivity. }
  split. { reflexivity. }
  split. { vm_compute. reflexivity. }
  intros H. apply (f_equal currentRound) in H. vm_compute in H. discriminate.
Qed.

(** ** Inversion of the random-source monad *)

Lemma bind_inv {A B} (m : Rand A) (k : A -> Rand B) (s : nat) (b : B) (s' : nat) :
  bind m k s = Done (b, s') ->
  exists a s1, m s = Done (a, s1) /\ k a s1 = Done (b, s').
Proof.
  unfold bind. destruct (m s) as [[a s1]|]; [|discriminate].
  intros H. exists a, s1. split; [reflexivity|exact H].
Qed.

Lemma ret_inv {A} (a b : A) (s s' : nat) :
  ret a s = Done (b, s') -> b = a /\ s' = s.
Proof. unfold ret. intros [= -> ->]. split; reflexivity. Qed.

Lemma lift_inv {A} (m : run A) (b : A) (s s' : nat) :
  lift m s = Done (b, s') -> m = Done b /\ s' = s.
Proof.
  unfold lift. destruct m; [|discriminate]. intros [= -> ->].
  split; reflexivity.
Qed.

Lemma run_bind_inv {A B} (m : run A) (k : A -> run B) (b : B) :
  run_bind m k = Done b -> exists a, m = Done a /\ k a = Done b.
Proof.
  destruct m as [a|]; simpl; [|discriminate]. intros H. exists a.
  split; [reflexivity|exact H].
Qed.

(** ** States and fields no transition reaches *)

Lemma allTransitions_complete (n : Node.t) (event : Event.t) (tr : Transition) :
  In tr (on n event) -> In tr allTransitions.
Proof.
  intros H. unfold allTransitions.
  apply in_flat_map. exists n. split.
  - destruct n; simpl; tauto.
  - apply in_flat_map. exists event. split; [|exact H].
    destruct event as [| [] | | | |]; simpl; tauto.
Qed.

Lemma targets_avoid_countdown (tr : Transition) :
  In tr allTransitions -> target tr <> Some Node.countdown.
Proof.
  intros H. vm_compute in H.
  repeat (destruct H as [<-|H]; [discriminate|]). destruct H.
Qed.

Lemma entered_avoids_countdown (n target_ st : Node.t) :
  target_ <> Node.countdown -> st <> Node.countdown ->
  List.last (enteredNodes n target_) st <> Node.countdown.
Proof.
  intros Ht Hst. destruct n, target_; vm_compute; congruence.
Qed.

(** C9. [start] in [idle] targets [playing], no transition and no initial
    state of the machine targets [countdown], and in every configuration a
    session can reach the active state is not [countdown]. *)
Theorem countdown_unreachable :
  on Node.idle Event.start = [mkTransition None [] (Some Node.playing)] /\
  (forall tr, In tr allTransitions -> target tr <> Some Node.countdown) /\
  (forall n, initial n <> Some Node.countdown) /\
  (forall (rs : RandomSource) (c : Config),
      reachable rs c -> state c <> Node.countdown).
Proof.
  split; [reflexivity|]. split; [exact targets_avoid_countdown|].
  split; [intros []; discriminate|].
  intros rs c Hreach. induction Hreach as [|c event fuel c' Hreach IH Hstep].
  - discriminate.
  - destruct (transition_inv _ _ _ _ _ Hstep) as [->|(n & tr & Hn & Htr & _ & _ & Hst)];
      [exact IH|].
    rewrite Hst.
    pose proof (targets_avoid_countdown tr (allTransitions_complete _ _ _ Htr)) as Ht.
    destruct (target tr) as [target_|]; [|exact IH].
    apply entered_avoids_countdown; [congruence|exact IH].
Qed.

Lemma countdown_unreachable_witness :
  exists c,
    reachable cyclicSource c /\ state c = Node.startingRound /\
    state c <> Node.countdown.
Proof.
  assert (reachable cyclicSource initialConfig) as H0 by constructor.
  destruct (transition cyclicSource 100 initialConfig Event.start) as [c|f] eqn:Hstep.
  - exists c.
    assert (reachable cyclicSource c) as Hc
      by exact (reachable_step cyclicSource initialConfig Event.start 100%nat c H0 Hstep).
    split; [exact Hc|]. split.
    + vm_compute in Hstep. injection Hstep as <-. reflexivity.
    + exact (proj2 (proj2 (proj2 countdown_unreachable)) cyclicSource c Hc).
  - vm_compute in Hstep. discriminate.
Defined.

Ltac invert_run :=
  repeat match goal with
  | H : bind _ _ _ = Done (_, _) |- _ =>
      apply bind_inv in H; destruct H as (? & ? & ? & H)
  | H : ret _ _ = Done (_, _) |- _ =>
      apply ret_inv in H; destruct H as [? ?]; subst
  | H : lift _ _ = Done (_, _) |- _ =>
      apply lift_inv in H; destruct H as [H ?]; subst
  | H : run_bind _ _ = Done _ |- _ =>
      apply run_bind_inv in H; destruct H as (? & ? & H)
  | H : Done _ = Done _ |- _ => injection H as H; subst
  end.

Lemma execAction_keeps_counters (rs : RandomSource) (fuel : nat) (a : Action.t)
    (event : Event.t) (context_ context' : GameContext) (s s' : nat) :
  a <> Action.trackIncorrectGuess ->
  execAction rs fuel a event context_ s = Done (context', s') ->
  score context' = score context_ /\
  incorrectCount context' = incorrectCount context_.
Proof.
  intros Ha H. destruct a; simpl in H; try congruence.
  all: try (invert_run; split; reflexivity).
  - unfold Actions.initialiseNextRound in H. invert_run. split; reflexivity.
  - destruct event; invert_run; try discriminate.
    unfold Actions.saveUserResponse in H. invert_run. split; reflexivity.
  - unfold Actions.evaluateGuess in H. invert_run. split; reflexivity.
Qed.

Lemma execActions_keep_counters (rs : RandomSource) (fuel : nat)
    (l : list Action.t) (event : Event.t) (context_ context' : GameContext)
    (s s' : nat) :
  ~ In Action.trackIncorrectGuess l ->
  execActions rs fuel l event context_ s = Done (context', s') ->
  score context' = score context_ /\
  incorrectCount context' = incorrectCount context_.
Proof.
  revert context_ s. induction l as [|a rest IH]; intros context_ s Hnot H;
    simpl in H.
  - invert_run. split; reflexivity.
  - apply bind_inv in H. destruct H as (ctx1 & s1 & Ha & Hrest).
    assert (a <> Action.trackIncorrectGuess) as Hne
      by (intros ->; apply Hnot; left; reflexivity).
    destruct (execAction_keeps_counters _ _ _ _ _ _ _ _ Hne Ha) as [Hs Hi].
    destruct (IH ctx1 s1 (fun Hin => Hnot (or_intror Hin)) Hrest) as [Hs' Hi'].
    split; congruence.
Qed.

Lemma trackIncorrectGuess_unreferenced :
  ~ In Action.trackIncorrectGuess referencedActions.
Proof.
  intros H. vm_compute in H.
  repeat (destruct H as [H|H]; [discriminate|]). destruct H.
Qed.

Lemma entry_in_referenced (n : Node.t) (a : Action.t) :
  In a (entry n) -> In a referencedActions.
Proof.
  intros H. unfold referencedActions. apply in_or_app. right.
  apply in_flat_map. exists n. split; [destruct n; simpl; tauto|exact H].
Qed.

Lemma actions_in_referenced (tr : Transition) (a : Action.t) :
  In tr allTransitions -> In a (actions tr) -> In a referencedActions.
Proof.
  intros Htr H. unfold referencedActions. apply in_or_app. left.
  apply in_flat_map. exists tr. split; assumption.
Qed.

(** C10. No transition and no entry list refers to [trackIncorrectGuess],
    and in every configuration a session can reach the fields [score] and
    [incorrectCount] hold their initial value 0. *)
Theorem score_and_incorrectCount_stay_zero :
  ~ In Action.trackIncorrectGuess referencedActions /\
  (forall (rs : RandomSource) (c : Config),
      reachable rs c ->
      score (context c) = 0 /\ incorrectCount (context c) = 0).
Proof.
  split; [exact trackIncorrectGuess_unreferenced|].
  intros rs c Hreach. induction Hreach as [|c event fuel c' Hreach IH Hstep].
  - split; reflexivity.
  - destruct (transition_inv _ _ _ _ _ Hstep) as [->|(n & tr & Hn & Htr & _ & Hexec & _)];
      [exact IH|].
    simpl in Hexec.
    apply execActions_keep_counters in Hexec.
    + destruct Hexec as [-> ->]. exact IH.
    + intros Hin. apply trackIncorrectGuess_unreferenced.
      apply in_app_or in Hin. destruct Hin as [Hin|Hin].
      * eapply actions_in_referenced; [|exact Hin].
        eapply allTransitions_complete, Htr.
      * apply in_flat_map in Hin. destruct Hin as (m & _ & Hin).
        eapply entry_in_referenced, Hin.
Qed.

Lemma score_and_incorrectCount_stay_zero_witness :
  exists c,
    reachable cyclicSource c /\ state c = Node.gameOver /\
    score (context c) = 0 /\ incorrectCount (context c) = 0.
Proof.
  assert (reachable cyclicSource initialConfig) as H0 by constructor.
  destruct (runEvents cyclicSource 100 initialConfig silentSession) as [c|f] eqn:Hrun.
  - exists c.
    assert (reachable cyclicSource c) as Hc
      by exact (reachable_runEvents cyclicSource 100%nat silentSession
                  initialConfig c H0 Hrun).
    split; [exact Hc|]. split.
    + vm_compute in Hrun. injection Hrun as <-. reflexivity.
    + exact (proj2 score_and_incorrectCount_stay_zero cyclicSource c Hc).
  - vm_compute in Hrun. discriminate.
Defined.

(** ** Which trial a tick classifies *)

(** X23. What the first [tick] transition of [playingRound] does. The remaining
    count is decremented before [evaluateGuess] reads it, so the record
    classified is the one at the index of the stimulus about to be shown,
    read from the records created at round start. *)
Lemma playingRound_tick (rs : RandomSource) (fuel : nat) (st : Node.t)
    (context_ : GameContext) (calls_ : nat) (c' : Config) :
  parent st = Some Node.playingRound ->
  1 < guessesRemainingInRound context_ ->
  transition rs fuel (mkConfig st context_ calls_) Event.tick = Done c' ->
  let next := Z.of_nat TRIALS_PER_ROUND - (guessesRemainingInRound context_ - 1) in
  exists round trial isTarget',
    roundData context_ !! currentRound context_ = Some round /\
    at_ (trials round) next = Some trial /\
    isReachable knight (round_piecePositionForRound round) (stimulus trial)
      = Done isTarget' /\
    state c' = Node.waitingForResponse /\
    calls c' = calls_ /\
    guessesRemainingInRound (context c') = guessesRemainingInRound context_ - 1 /\
    currentSquare (context c') = at_ (positionsForRound context_) next /\
    roundData (context c') =
      <[currentRound context_ :=
          mkRound (round_piecePositionForRound round)
            (trials round ++
             [mkTrial (stimulus trial) (isTarget trial) (userResponse trial)
                (Some (evaluateGuess_outcome isTarget' (userResponse trial)))])]>
        (roundData context_).
Proof.
  intros Hparent Hremaining Hstep next.
  assert (Z.ltb 1 (guessesRemainingInRound context_) = true) as Hguard
    by (apply Z.ltb_lt; exact Hremaining).
  destruct st; try discriminate Hparent;
    unfold transition in Hstep; simpl in Hstep; rewrite Hguard in Hstep;
    simpl in Hstep;
    (apply run_bind_inv in Hstep; destruct Hstep as ([ctx' s'] & Hexec & Hdone);
     injection Hdone as <-;
     unfold bind, ret, lift in Hexec; simpl in Hexec;
     unfold Actions.evaluateGuess, currentRoundDataOf, currentTrialOf in Hexec;
     simpl in Hexec;
     destruct (roundData context_ !! currentRound context_) as [round|] eqn:Hround;
       simpl in Hexec; [|discriminate];
     destruct (at_ (trials round) _) as [trial|] eqn:Htrial;
       simpl in Hexec; [|discriminate];
     destruct (isReachable knight _ _) as [isTarget'|] eqn:Hreach;
       simpl in Hexec; [|discriminate];
     injection Hexec as <- <-;
     exists round, trial, isTarget'; repeat split; try reflexivity; assumption).
Qed.

(** C2 on a concrete round. The first round on [cyclicSource] shows h2,
    c5, b5, e2, f8 for a knight on d4. The tick that closes the window of
    h2 appends an outcome for c5, which has not been shown yet, and none
    for h2. After the subject answers "match" to c5, the tick that closes
    the window of c5 appends an outcome for b5; the answer given to c5 is not read
    by that tick. *)
Theorem tick_classifies_upcoming_trial :
  exists c c1 c2 c3,
    runEvents cyclicSource 100 initialConfig [Event.start; Event.after_3000]
      = Done c /\
    state c = Node.waitingForResponse /\
    currentSquare (context c) = Some "h2" /\
    roundData (context c) !! 1 = Some (mkRound "d4" firstRoundTrials) /\
    transition cyclicSource 100 c Event.tick = Done c1 /\
    currentSquare (context c1) = Some "c5" /\
    guessesRemainingInRound (context c1) = 4 /\
    roundData (context c1) !! 1 =
      Some (mkRound "d4"
              (firstRoundTrials ++
               [mkTrial "c5" false None (Some correctRejection)])) /\
    transition cyclicSource 100 c1 (Event.userResponse match_) = Done c2 /\
    state c2 = Node.falseAlarm /\
    roundData (context c2) !! 1 =
      Some (mkRound "d4"
              (firstRoundTrials ++
               [mkTrial "c5" false None (Some correctRejection);
                mkTrial "c5" false (Some match_) None;
                mkTrial "c5" false None (Some correctRejection)])) /\
    transition cyclicSource 100 c2 Event.tick = Done c3 /\
    currentSquare (context c3) = Some "b5" /\
    roundData (context c3) !! 1 =
      Some (mkRound "d4"
              (firstRoundTrials ++
               [mkTrial "c5" false None (Some correctRejection);
                mkTrial "c5" false (Some match_) None;
                mkTrial "c5" false None (Some correctRejection);
                mkTrial "b5" true None (Some miss)])).
Proof.
  do 4 eexists.
  split. { vm_compute. reflexivity. }
  do 3 (split; [reflexivity|]).
  split. { vm_compute. reflexivity. }
  do 3 (split; [reflexivity|]).
  split. { vm_compute. reflexivity. }
  do 2 (split; [reflexivity|]).
  split. { vm_compute. reflexivity. }
  split; reflexivity.
Qed.

(** ** How often a trial is classified *)

(** C1 on two concrete sessions. In the session without responses, at
    [gameOver] the first round holds nine records: the five created at round
    start, none of which carries an outcome, and four appended ones; the
    first stimulus, h2, has no outcome at all. In the session where the
    subject answers "match" to c5, that stimulus has two outcome records at
    [gameOver]. *)
Theorem trials_not_classified_exactly_once :
  (exists c round,
      runEvents cyclicSource 100 initialConfig silentSession = Done c /\
      state c = Node.gameOver /\
      roundData (context c) !! 1 = Some round /\
      trials round =
        firstRoundTrials ++
        [mkTrial "c5" false None (Some correctRejection);
         mkTrial "b5" true None (Some miss);
         mkTrial "e2" true None (Some miss);
         mkTrial "f8" false None (Some correctRejection)] /\
      outcomesRecorded round "h2" = 0%nat) /\
  (exists c round,
      runEvents cyclicSource 100 initialConfig respondingSession = Done c /\
      state c = Node.gameOver /\
      roundData (context c) !! 1 = Some round /\
      outcomesRecorded round "c5" = 2%nat).
Proof.
  split.
  - do 2 eexists.
    split. { vm_compute. reflexivity. }
    split; [reflexivity|].
    split. { vm_compute. reflexivity. }
    split; reflexivity.
  - do 2 eexists.
    split. { vm_compute. reflexivity. }
    split; [reflexivity|].
    split. { vm_compute. reflexivity. }
    reflexivity.
Qed.

(** ** The round generator *)

Lemma at_nonneg {A} (l : list A) (z : Z) :
  0 <= z -> at_ l z = l !! Z.to_nat z.
Proof.
  intros Hz. unfold at_. destruct (Z.ltb_spec z 0); [lia|reflexivity].
Qed.

Lemma floorTimes_range (r : Q) (n : Z) :
  (0 <= r)%Q /\ (r < 1)%Q -> 0 < n -> 0 <= floorTimes r n < n.
Proof.
  intros [Hr0 Hr1] Hn. unfold floorTimes.
  assert (0 < inject_Z n)%Q as Hn'
    by (change (inject_Z 0 < inject_Z n)%Q; rewrite <- Zlt_Qlt; exact Hn).
  split.
  - rewrite <- (Qfloor_Z 0). apply Qfloor_resp_le.
    apply Qmult_le_0_compat; [exact Hr0|apply Qlt_le_weak, Hn'].
  - rewrite Zlt_Qlt.
    eapply Qle_lt_trans; [apply Qfloor_le|].
    rewrite <- (Qmult_1_l (inject_Z n)) at 2.
    apply Qmult_lt_compat_r; assumption.
Qed.

Section GeneratorProperties.

Variable rs : RandomSource.
Hypothesis rs_range : unitRange rs.

Lemma getRandomArrayElement_done {T} (array : list T) (s : nat) :
  array <> [] ->
  exists x,
    getRandomArrayElement rs array s = Done (x, S s) /\
    array !! Z.to_nat (floorTimes (rs s) (len array)) = Some x.
Proof.
  intros Hne.
  assert (0 < len array) as Hlen
    by (unfold len; destruct array; [congruence|simpl; lia]).
  pose proof (floorTimes_range (rs s) (len array) (rs_range s) Hlen) as Hk.
  destruct (lookup_lt_is_Some_2 array (Z.to_nat (floorTimes (rs s) (len array))))
    as [x Hx]; [unfold len in *; lia|].
  exists x. split; [|exact Hx].
  unfold getRandomArrayElement, bind, Math_random, lift.
  rewrite at_nonneg by lia. rewrite Hx. reflexivity.
Qed.

Lemma getRandomArrayElement_elem {T} (array : list T) (s s' : nat) (x : T) :
  getRandomArrayElement rs array s = Done (x, s') -> x ∈ array /\ s' = S s.
Proof.
  unfold getRandomArrayElement, bind, Math_random, lift, at_.
  destruct (Z.ltb _ 0); simpl; [discriminate|].
  destruct (array !! _) as [y|] eqn:Hy; simpl; [|discriminate].
  intros [= <- <-]. split; [|reflexivity].
  apply list_elem_of_lookup. eexists; exact Hy.
Qed.

(** More fuel does not change a completed retry loop. *)
Lemma redraw_mono (next : Rand string) (selected : list string)
    (fuel fuel' : nat) (x : string) (s : nat) (r : string * nat) :
  (fuel <= fuel')%nat ->
  redraw fuel next selected x s = Done r ->
  redraw fuel' next selected x s = Done r.
Proof.
  revert fuel' x s. induction fuel as [|fuel IH]; intros fuel' x s Hle H.
  - destruct fuel'; simpl in *; destruct (includes selected x);
      try discriminate; exact H.
  - destruct fuel' as [|fuel']; [lia|]. simpl in *.
    destruct (includes selected x); [|exact H].
    unfold bind in *. destruct (next s) as [[x1 s1]|]; [|discriminate].
    apply IH; [lia|exact H].
Qed.

Hypothesis rs_fair : fair rs.

(** With a fair source the retry loop ends, on an element that is not yet
    selected. *)
Lemma redraw_done (array selected : list string) :
  (0 < length array <= 64)%nat ->
  (exists y, y ∈ array /\ y ∉ selected) ->
  forall (x : string) (s : nat),
  exists fuel x' s',
    redraw fuel (getRandomArrayElement rs array) selected x s = Done (x', s') /\
    (x' ∉ selected) /\ (x' = x \/ x' ∈ array).
Proof.
  intros Hlen (y & Hy & Hfresh) x s.
  apply list_elem_of_lookup in Hy. destruct Hy as [k Hk].
  assert (k < length array)%nat as Hklt by (eapply lookup_lt_Some; exact Hk).
  destruct (rs_fair s (length array) k Hlen Hklt) as (i & Hi & Hdraw).
  remember (i - s)%nat as d eqn:Hd.
  revert x s Hi Hd. induction d as [|d IH]; intros x s Hi Hd.
  - destruct (includes selected x) eqn:Hinc.
    + assert (i = s) as -> by lia.
      exists 1%nat, y, (S s). split; [|split; [exact Hfresh|right]].
      * simpl. rewrite Hinc. unfold bind.
        destruct (getRandomArrayElement_done array s) as (x1 & -> & Hx1);
          [destruct array; simpl in *; [lia|congruence]|].
        unfold len in Hx1. rewrite Hdraw, Nat2Z.id, Hk in Hx1.
        injection Hx1 as <-.
        apply includes_false in Hfresh.
        simpl. rewrite Hfresh. reflexivity.
      * apply list_elem_of_lookup. eexists; exact Hk.
    + exists 0%nat, x, s. simpl. rewrite Hinc.
      split; [reflexivity|]. split; [apply includes_false, Hinc|left; reflexivity].
  - destruct (includes selected x) eqn:Hinc.
    + destruct (getRandomArrayElement_done array s) as (x1 & Hget & Hx1);
        [destruct array; simpl in *; [lia|congruence]|].
      destruct (IH x1 (S s) ltac:(lia) ltac:(lia)) as (fuel & x' & s' & Hre & Hnot & Hin).
      exists (S fuel), x', s'. split; [|split; [exact Hnot|right]].
      * simpl. rewrite Hinc. unfold bind. rewrite Hget. exact Hre.
      * destruct Hin as [->|Hin]; [|exact Hin].
        apply list_elem_of_lookup. eexists; exact Hx1.
    + exists 0%nat, x, s. simpl. rewrite Hinc.
      split; [reflexivity|]. split; [apply includes_false, Hinc|left; reflexivity].
Qed.

End GeneratorProperties.

(** Fewer selected squares than distinct candidates leaves a candidate that
    is not selected. *)
Lemma fresh_exists (array selected : list string) :
  (length selected < length (remove_dups array))%nat ->
  exists y, y ∈ array /\ y ∉ selected.
Proof.
  intros Hlt.
  destruct (decide (Exists (fun y => y ∉ selected) array)) as [Hex|Hnex].
  - apply Exists_exists in Hex. exact Hex.
  - exfalso. apply not_Exists_Forall in Hnex; [|intros y; apply _].
    rewrite Forall_forall in Hnex.
    assert (remove_dups array ⊆+ selected) as Hsub.
    { apply NoDup_submseteq; [apply NoDup_remove_dups|].
      intros y Hy. rewrite elem_of_remove_dups in Hy.
      specialize (Hnex y Hy). simpl in Hnex.
      destruct (decide (y ∈ selected)); [assumption|contradiction]. }
    apply submseteq_length in Hsub. lia.
Qed.

Lemma squares_distinct : length (remove_dups squares) = 64%nat.
Proof. vm_compute. reflexivity. Qed.

Lemma squares_length : length squares = 64%nat.
Proof. reflexivity. Qed.

Section SelectPositions.

Variable rs : RandomSource.
Hypothesis rs_range : unitRange rs.
Hypothesis rs_fair : fair rs.

Variable reachablePositions : list string.
Variable targetReachableCount : Z.
Hypothesis reachable_squares : Forall isSquare reachablePositions.
Hypothesis reachable_length : (length reachablePositions <= 64)%nat.
Hypothesis reachable_enough :
  targetReachableCount <= len (remove_dups reachablePositions).

Lemma selectPositions_mono (fuel fuel' : nat) :
  (fuel <= fuel')%nat ->
  forall (iterations : nat) (i : Z) (selected : list string) (s : nat)
         (r : list string * nat),
    selectPositions rs fuel reachablePositions targetReachableCount
      iterations i selected s = Done r ->
    selectPositions rs fuel' reachablePositions targetReachableCount
      iterations i selected s = Done r.
Proof.
  intros Hle. induction iterations as [|n IH]; intros i selected s r H;
    simpl in *; [exact H|].
  unfold bind in *. destruct (Z.ltb i targetReachableCount).
  - destruct (getRandomArrayElement rs reachablePositions s) as [[x s1]|];
      [|discriminate].
    destruct (redraw fuel _ selected x s1) as [[chosen s2]|] eqn:Hre;
      [|discriminate].
    rewrite (redraw_mono _ _ _ _ _ _ _ Hle Hre). apply IH, H.
  - destruct (getRandomSquare rs s) as [[x s1]|]; [|discriminate].
    destruct (redraw fuel _ selected x s1) as [[chosen s2]|] eqn:Hre;
      [|discriminate].
    rewrite (redraw_mono _ _ _ _ _ _ _ Hle Hre). apply IH, H.
Qed.

(** One iteration of the [for] loop: a square that is not yet selected is
    found, among the reachable ones while targets are being drawn. *)
Lemma choose_done (i : Z) (selected : list string) (s : nat) :
  len selected = i ->
  (length selected < 64)%nat ->
  (i < targetReachableCount -> forall x, x ∈ selected -> x ∈ reachablePositions) ->
  exists fuel chosen s',
    (if Z.ltb i targetReachableCount then
       bind (getRandomArrayElement rs reachablePositions)
         (fun x => redraw fuel (getRandomArrayElement rs reachablePositions)
                     selected x)
     else
       bind (getRandomSquare rs)
         (fun x => redraw fuel (getRandomSquare rs) selected x)) s
      = Done (chosen, s') /\
    (chosen ∉ selected) /\ isSquare chosen /\
    (i < targetReachableCount -> chosen ∈ reachablePositions).
Proof.
  intros Hlen Hroom Hsub. destruct (Z.ltb_spec i targetReachableCount) as [Hlt|Hge].
  - assert (length selected < length (remove_dups reachablePositions))%nat
      as Hfew by (unfold len in *; lia).
    destruct (fresh_exists _ _ Hfew) as (y & Hy & Hfresh).
    assert (reachablePositions <> []) as Hne
      by (intros ->; inversion Hy).
    assert (0 < length reachablePositions <= 64)%nat as Hbound
      by (destruct reachablePositions; simpl in *; [congruence|lia]).
    destruct (getRandomArrayElement_done rs rs_range reachablePositions s Hne)
      as (x & Hget & Hx).
    destruct (redraw_done rs rs_range rs_fair reachablePositions selected Hbound
                (ex_intro _ y (conj Hy Hfresh)) x (S s))
      as (fuel & chosen & s' & Hre & Hnot & Hin).
    exists fuel, chosen, s'. unfold bind. rewrite Hget.
    split; [exact Hre|]. split; [exact Hnot|].
    assert (chosen ∈ reachablePositions) as Hchosen.
    { destruct Hin as [->|Hin]; [|exact Hin].
      apply list_elem_of_lookup. eexists; exact Hx. }
    split; [|intros _; exact Hchosen].
    rewrite Forall_forall in reachable_squares. apply reachable_squares, Hchosen.
  - assert (length selected < length (remove_dups squares))%nat
      as Hfew by (rewrite squares_distinct; exact Hroom).
    destruct (fresh_exists _ _ Hfew) as (y & Hy & Hfresh).
    assert (0 < length squares <= 64)%nat as Hbound
      by (rewrite squares_length; lia).
    destruct (getRandomArrayElement_done rs rs_range squares s ltac:(discriminate))
      as (x & Hget & Hx).
    destruct (redraw_done rs rs_range rs_fair squares selected Hbound
                (ex_intro _ y (conj Hy Hfresh)) x (S s))
      as (fuel & chosen & s' & Hre & Hnot & Hin).
    exists fuel, chosen, s'. unfold bind.
    change (getRandomSquare rs) with (getRandomArrayElement rs squares).
    rewrite Hget.
    split; [exact Hre|]. split; [exact Hnot|].
    split; [|intros Hlt; lia].
    destruct Hin as [->|Hin]; [|exact Hin].
    apply list_elem_of_lookup. eexists; exact Hx.
Qed.

Lemma selectPositions_done (iterations : nat) :
  forall (i : Z) (selected : list string) (s : nat),
    len selected = i ->
    NoDup selected ->
    Forall isSquare selected ->
    (i < targetReachableCount -> forall x, x ∈ selected -> x ∈ reachablePositions) ->
    (length selected + iterations <= 64)%nat ->
    exists fuel result s',
      selectPositions rs fuel reachablePositions targetReachableCount
        iterations i selected s = Done (result, s') /\
      length result = (length selected + iterations)%nat /\
      NoDup result /\ Forall isSquare result.
Proof.
  induction iterations as [|n IH]; intros i selected s Hlen Hnodup Hsq Hsub Hroom.
  - exists 0%nat, selected, s. simpl. split; [reflexivity|].
    split; [lia|]. split; assumption.
  - destruct (choose_done i selected s Hlen ltac:(lia) Hsub)
      as (fuel1 & chosen & s1 & Hchoose & Hnot & Hchosen & Hreach).
    destruct (IH (i + 1) (selected ++ [chosen]) s1) as
      (fuel2 & result & s2 & Hrest & Hlength & Hnd & Hall).
    + unfold len in *. rewrite length_app. simpl. lia.
    + apply NoDup_app. split; [exact Hnodup|]. split; [|apply NoDup_singleton].
      intros x Hx Hx'. apply list_elem_of_singleton in Hx'. subst. contradiction.
    + apply Forall_app. split; [exact Hsq|]. constructor; [exact Hchosen|constructor].
    + intros Hlt x Hx. apply elem_of_app in Hx. destruct Hx as [Hx|Hx].
      * apply Hsub; [lia|exact Hx].
      * apply list_elem_of_singleton in Hx. subst. apply Hreach. lia.
    + rewrite length_app. simpl. lia.
    + exists (Nat.max fuel1 fuel2), result, s2.
      split; [|split; [|split; assumption]].
      * apply (selectPositions_mono (Nat.max fuel1 fuel2) (Nat.max fuel1 fuel2)
                 (Nat.le_refl _)).
        simpl. unfold bind at 1.
        assert ((if Z.ltb i targetReachableCount then
                   bind (getRandomArrayElement rs reachablePositions)
                     (fun x => redraw (Nat.max fuel1 fuel2)
                                 (getRandomArrayElement rs reachablePositions)
                                 selected x)
                 else
                   bind (getRandomSquare rs)
                     (fun x => redraw (Nat.max fuel1 fuel2)
                                 (getRandomSquare rs) selected x)) s
                = Done (chosen, s1)) as ->.
        { destruct (Z.ltb i targetReachableCount); unfold bind in *.
          - destruct (getRandomArrayElement rs reachablePositions s) as [[x sx]|];
              [|discriminate].
            eapply redraw_mono; [|exact Hchoose]. lia.
          - destruct (getRandomSquare rs s) as [[x sx]|]; [|discriminate].
            eapply redraw_mono; [|exact Hchoose]. lia. }
        eapply selectPositions_mono; [|exact Hrest]. lia.
      * rewrite Hlength, length_app. simpl. lia.
Qed.

End SelectPositions.

(** ** The shuffle *)

Lemma swap_done {T} (l : list T) (i j : nat) :
  (i < length l)%nat -> (j < length l)%nat ->
  exists l', swap l i j = Done l' /\ l' ≡ₚ l.
Proof.
  intros Hi Hj.
  destruct (lookup_lt_is_Some_2 l i Hi) as [ai Hai].
  destruct (lookup_lt_is_Some_2 l j Hj) as [aj Haj].
  exists (<[j := ai]> (<[i := aj]> l)). split.
  - unfold swap. rewrite Haj, Hai. reflexivity.
  - apply Permutation_inj. split; [rewrite !length_insert; reflexivity|].
    exists (fun x => if decide (x = i) then j else if decide (x = j) then i else x).
    split.
    + intros x y. repeat case_decide; intros; subst; congruence.
    + intros x. destruct (decide (x = j)) as [->|Hxj].
      * rewrite list_lookup_insert_eq by (rewrite length_insert; exact Hj).
        destruct (decide (j = i)) as [->|Hji]; [rewrite Haj; congruence|].
        symmetry; exact Hai.
      * rewrite list_lookup_insert_ne by congruence.
        destruct (decide (x = i)) as [->|Hxi].
        -- rewrite list_lookup_insert_eq by exact Hi. symmetry; exact Haj.
        -- rewrite list_lookup_insert_ne by congruence. reflexivity.
Qed.

Lemma shuffleFrom_done {T} (rs : RandomSource) (i : nat) :
  unitRange rs ->
  forall (l : list T) (s : nat),
    (i = 0 \/ i < length l)%nat ->
    exists l' s', shuffleFrom rs i l s = Done (l', s') /\ l' ≡ₚ l.
Proof.
  intros Hrange. induction i as [|i IH]; intros l s Hi.
  - exists l, s. split; reflexivity.
  - destruct Hi as [Hi|Hi]; [discriminate|].
    pose proof (floorTimes_range (rs s) (Z.of_nat (S i) + 1) (Hrange s) ltac:(lia))
      as Hj.
    destruct (swap_done l (S i) (Z.to_nat (floorTimes (rs s) (Z.of_nat (S i) + 1)))
                Hi ltac:(lia)) as (l1 & Hswap & Hperm1).
    destruct (IH l1 (S s)) as (l' & s' & Hrest & Hperm2).
    { right. rewrite (Permutation_length Hperm1). lia. }
    exists l', s'. split; [|etransitivity; eassumption].
    simpl. unfold bind, Math_random, lift. rewrite Hswap. exact Hrest.
Qed.

Lemma shuffleArray_done {T} (rs : RandomSource) (array : list T) (s : nat) :
  unitRange rs ->
  exists l' s', shuffleArray rs array s = Done (l', s') /\ l' ≡ₚ array.
Proof.
  intros Hrange. unfold shuffleArray. apply shuffleFrom_done; [exact Hrange|].
  destruct array; simpl; [left; reflexivity|right; lia].
Qed.

(** ** Rounds are duplicate-free *)

Lemma reachableCheck_all :
  forallb (fun position =>
             reachableCheck knight position && reachableCheck bishop position)
          squares = true.
Proof. vm_compute. reflexivity. Qed.

Lemma reachable_from_square (piece : Piece) (position : string) :
  isSquare position ->
  exists l,
    getReachablePositions piece position = Done l /\
    (1 <= length l <= 13)%nat /\ Forall isSquare l.
Proof.
  intros Hsq. pose proof reachableCheck_all as Hall.
  rewrite forallb_forall in Hall.
  specialize (Hall position (proj1 (list_elem_of_In _ _) Hsq)).
  apply andb_true_iff in Hall as [Hk Hb].
  assert (reachableCheck piece position = true) as Hcheck
    by (destruct piece; assumption).
  unfold reachableCheck in Hcheck.
  destruct (getReachablePositions piece position) as [l|]; [|discriminate].
  apply andb_true_iff in Hcheck as [Hlen Hin].
  apply andb_true_iff in Hlen as [Hlen1 Hlen].
  apply Nat.leb_le in Hlen1, Hlen.
  exists l. split; [reflexivity|]. split; [lia|].
  apply Forall_forall. intros x Hx. rewrite forallb_forall in Hin.
  apply includes_elem_of, Hin, list_elem_of_In, Hx.
Qed.

Lemma remove_dups_length_le (l : list string) :
  (length (remove_dups l) <= length l)%nat.
Proof.
  apply submseteq_length, NoDup_submseteq; [apply NoDup_remove_dups|].
  intros x. rewrite elem_of_remove_dups. tauto.
Qed.

(** A target count of at most 13 bounds the round length by 34. *)
Lemma roundLength_bound (rs : RandomSource) (calls_ roundLength : nat) :
  targetCountFor rs calls_ roundLength <= 13 -> (roundLength <= 34)%nat.
Proof.
  unfold targetCountFor, chosenFraction. intros H.
  destruct (Qle_bool (rs calls_) (5 # 10)).
  - pose proof (Qlt_floor (inject_Z (Z.of_nat roundLength) * (4 # 10))) as Hfl.
    assert (inject_Z (Z.of_nat roundLength) * (4 # 10) < inject_Z 14)%Q as Hlt.
    { eapply Qlt_le_trans; [exact Hfl|]. rewrite <- Zle_Qle. lia. }
    unfold Qlt in Hlt. simpl in Hlt. lia.
  - pose proof (Qlt_floor (inject_Z (Z.of_nat roundLength) * (6 # 10))) as Hfl.
    assert (inject_Z (Z.of_nat roundLength) * (6 # 10) < inject_Z 14)%Q as Hlt.
    { eapply Qlt_le_trans; [exact Hfl|]. rewrite <- Zle_Qle. lia. }
    unfold Qlt in Hlt. simpl in Hlt. lia.
Qed.

(** C6. For a piece on a square of the board and a round length whose
    target count, for the fraction the source selects, does not exceed the
    number of distinct reachable squares, the generator returns (its retry
    loops end, under any bound on redraws that is large enough, when the
    draws lie in the unit interval and are fair): the positions are as many
    as the round length, without duplicates, and all squares of the
    board. *)
Theorem generatePositionsForRound_returns (rs : RandomSource) (piece : Piece)
    (position : string) (roundLength calls_ : nat) :
  unitRange rs -> fair rs ->
  isSquare position ->
  targetCountFor rs calls_ roundLength <= reachableCount piece position ->
  exists fuel0 positions positiveSampleCount calls',
    (forall fuel, (fuel0 <= fuel)%nat ->
       generatePositionsForRound rs fuel piece position roundLength calls_ =
       Done ((positions, positiveSampleCount), calls')) /\
    length positions = roundLength /\
    NoDup positions /\
    Forall isSquare positions.
Proof.
  intros Hrange Hfair Hsq Henough.
  destruct (reachable_from_square piece position Hsq) as (l & Hl & Hlen & Hall).
  unfold reachableCount in Henough. rewrite Hl in Henough.
  assert (targetCountFor rs calls_ roundLength <= 13) as Hsmall.
  { pose proof (remove_dups_length_le l). unfold len in Henough. lia. }
  pose proof (roundLength_bound rs calls_ roundLength Hsmall) as Hround.
  destruct (selectPositions_done rs Hrange Hfair l
              (targetCountFor rs calls_ roundLength) Hall ltac:(lia) Henough
              roundLength 0 [] (S calls_) eq_refl (NoDup_nil_2) (Forall_nil_2 _)
              ltac:(intros _ x Hx; inversion Hx) ltac:(simpl; lia))
    as (fuel0 & selected & s1 & Hselect & Hlength & Hnodup & Hsquares).
  destruct (shuffleArray_done rs selected s1 Hrange)
    as (positions & s2 & Hshuffle & Hperm).
  exists fuel0, positions, (targetCountFor rs calls_ roundLength), s2.
  split; [|split; [|split]].
  - intros fuel Hfuel.
    pose proof (selectPositions_mono rs l (targetCountFor rs calls_ roundLength)
                  fuel0 fuel Hfuel _ _ _ _ _ Hselect) as Hselect'.
    unfold generatePositionsForRound, bind, lift, Math_random.
    rewrite Hl. unfold targetCountFor, chosenFraction in Hselect'.
    rewrite Hselect', Hshuffle. reflexivity.
  - rewrite (Permutation_length Hperm), Hlength. reflexivity.
  - rewrite Hperm. exact Hnodup.
  - rewrite Hperm. exact Hsquares.
Qed.

(** *** The concrete source is a legitimate one *)

Lemma cyclicSource_range : unitRange cyclicSource.
Proof.
  intros i. unfold cyclicSource, Qle, Qlt; simpl.
  pose proof (Nat.mod_upper_bound (i * 37 + 27) 64 ltac:(lia)).
  split; lia.
Qed.

Lemma cyclicSource_period (i c : nat) :
  cyclicSource (i + 64 * c)%nat = cyclicSource i.
Proof.
  unfold cyclicSource.
  replace ((i + 64 * c) * 37 + 27)%nat with (i * 37 + 27 + (c * 37) * 64)%nat by lia.
  rewrite Nat.Div0.mod_add. reflexivity.
Qed.

Lemma cyclicHits_all :
  forallb (fun n => forallb (cyclicHits n) (seq 0 n)) (seq 1 64) = true.
Proof. vm_compute. reflexivity. Qed.

Lemma cyclicSource_fair : fair cyclicSource.
Proof.
  intros calls_ n k Hn Hk.
  pose proof cyclicHits_all as Hcheck.
  rewrite forallb_forall in Hcheck.
  specialize (Hcheck n ltac:(apply in_seq; lia)).
  rewrite forallb_forall in Hcheck.
  specialize (Hcheck k ltac:(apply in_seq; lia)).
  exists (cyclicCall n k + 64 * calls_)%nat. split; [lia|].
  rewrite cyclicSource_period. apply Z.eqb_eq, Hcheck.
Qed.

Example generatePositionsForRound_d4 :
  generatePositionsForRound cyclicSource 100 knight "d4" 5 1%nat =
  Done ((["h2"; "c5"; "b5"; "e2"; "f8"], 2), 11%nat).
Proof. vm_compute. reflexivity. Qed.

Lemma generatePositionsForRound_returns_witness :
  unitRange cyclicSource /\ fair cyclicSource /\ isSquare "d4" /\
  targetCountFor cyclicSource 1%nat 5%nat <= reachableCount knight "d4" /\
  exists fuel0 positions positiveSampleCount calls',
    (forall fuel, (fuel0 <= fuel)%nat ->
       generatePositionsForRound cyclicSource fuel knight "d4" 5%nat 1%nat =
       Done ((positions, positiveSampleCount), calls')) /\
    length positions = 5%nat /\
    NoDup positions /\
    Forall isSquare positions.
Proof.
  assert (isSquare "d4") as Hsq
    by (apply includes_elem_of; reflexivity).
  assert (targetCountFor cyclicSource 1%nat 5%nat <= reachableCount knight "d4") as Hcount
    by (vm_compute; discriminate).
  split; [exact cyclicSource_range|]. split; [exact cyclicSource_fair|].
  split; [exact Hsq|]. split; [exact Hcount|].
  exact (generatePositionsForRound_returns cyclicSource knight "d4" 5%nat 1%nat
           cyclicSource_range cyclicSource_fair Hsq Hcount).
Defined.

(** ** The records created at round start are never updated *)

Lemma selectPositions_length (rs : RandomSource) (fuel : nat)
    (reachablePositions : list string) (targetReachableCount : Z)
    (iterations : nat) :
  forall (i : Z) (selected : list string) (s : nat) (result : list string)
         (s' : nat),
    selectPositions rs fuel reachablePositions targetReachableCount
      iterations i selected s = Done (result, s') ->
    length result = (length selected + iterations)%nat.
Proof.
  induction iterations as [|n IH]; intros i selected s result s' H; simpl in H.
  - invert_run. lia.
  - apply bind_inv in H. destruct H as (chosen & s1 & _ & H).
    apply IH in H. rewrite H, length_app. simpl. lia.
Qed.

Lemma swap_length {T} (l l' : list T) (i j : nat) :
  swap l i j = Done l' -> length l' = length l.
Proof.
  unfold swap. intros H. invert_run. rewrite !length_insert. reflexivity.
Qed.

Lemma shuffleFrom_length {T} (rs : RandomSource) (i : nat) :
  forall (l l' : list T) (s s' : nat),
    shuffleFrom rs i l s = Done (l', s') -> length l' = length l.
Proof.
  induction i as [|i IH]; intros l l' s s' H; simpl in H.
  - invert_run. reflexivity.
  - apply bind_inv in H. destruct H as (r & s1 & _ & H).
    apply bind_inv in H. destruct H as (swapped & s2 & Hswap & H).
    apply lift_inv in Hswap. destruct Hswap as [Hswap _].
    apply swap_length in Hswap. apply IH in H. congruence.
Qed.

Lemma generatePositionsForRound_length (rs : RandomSource) (fuel : nat)
    (piece : Piece) (position : string) (roundLength : nat) (s s' : nat)
    (positions : list string) (positiveSampleCount : Z) :
  generatePositionsForRound rs fuel piece position roundLength s =
    Done ((positions, positiveSampleCount), s') ->
  length positions = roundLength.
Proof.
  unfold generatePositionsForRound. intros H.
  apply bind_inv in H. destruct H as (reachablePositions & s1 & _ & H).
  apply bind_inv in H. destruct H as (r & s2 & _ & H).
  apply bind_inv in H. destruct H as (selected & s3 & Hselect & H).
  apply bind_inv in H. destruct H as (shuffled & s4 & Hshuffle & H).
  apply ret_inv in H. destruct H as [[= -> ->] _].
  apply selectPositions_length in Hselect.
  apply shuffleFrom_length in Hshuffle. simpl in Hselect. lia.
Qed.

Lemma mapRun_untouched (position : string) (positions : list string)
    (l : list Trial) :
  mapRun (fun stimulus =>
            do isTarget' <- isReachable knight position stimulus;
            Done (mkTrial stimulus isTarget' None None)) positions = Done l ->
  length l = length positions /\ Forall untouched l.
Proof.
  revert l. induction positions as [|p rest IH]; intros l H; simpl in H.
  - injection H as <-. split; [reflexivity|constructor].
  - apply run_bind_inv in H. destruct H as (t & Ht & H).
    apply run_bind_inv in H. destruct H as (ts & Hts & H).
    injection H as <-. destruct (IH ts Hts) as [Hlen Hall].
    apply run_bind_inv in Ht. destruct Ht as (b & _ & Ht). injection Ht as <-.
    split; [simpl; lia|]. constructor; [split; reflexivity|exact Hall].
Qed.

Lemma untouched_withoutMatchOutcome (l : list Trial) :
  Forall untouched l -> Forall withoutMatchOutcome l.
Proof.
  intros H. eapply Forall_impl; [exact H|].
  intros t [_ Ho]. unfold withoutMatchOutcome.
  rewrite Ho. split; discriminate.
Qed.

Lemma roundShape_snoc (position : string) (round : Round) (trial : Trial) :
  roundShape round -> withoutMatchOutcome trial ->
  roundShape (mkRound position (trials round ++ [trial])).
Proof.
  intros (Hlen & Hfirst & Hall) Htrial. unfold roundShape. simpl.
  split; [rewrite length_app; lia|]. split.
  - rewrite take_app_le by exact Hlen. exact Hfirst.
  - apply Forall_app. split; [exact Hall|]. constructor; [exact Htrial|constructor].
Qed.

(** The record that [saveUserResponse] and [evaluateGuess] read is one of
    those created at round start. *)
Lemma currentTrial_untouched (context_ : GameContext) (round : Round)
    (trial : Trial) :
  1 <= guessesRemainingInRound context_ <= Z.of_nat TRIALS_PER_ROUND ->
  roundShape round ->
  currentTrialOf context_ round = Some trial ->
  untouched trial.
Proof.
  intros Hremaining (Hlen & Hfirst & _) Htrial.
  unfold currentTrialOf in Htrial. rewrite at_nonneg in Htrial by lia.
  rewrite Forall_forall in Hfirst. apply Hfirst.
  apply list_elem_of_lookup.
  exists (Z.to_nat (Z.of_nat TRIALS_PER_ROUND - guessesRemainingInRound context_)).
  rewrite lookup_take_lt; [exact Htrial|]. unfold TRIALS_PER_ROUND in *. lia.
Qed.

Lemma roundShape_insert (data : gmap Z Round) (k : Z) (round : Round) :
  (forall k' round', data !! k' = Some round' -> roundShape round') ->
  roundShape round ->
  forall k' round', <[k := round]> data !! k' = Some round' -> roundShape round'.
Proof.
  intros Hall Hround k' round' Hlookup.
  destruct (decide (k = k')) as [->|Hne].
  - rewrite lookup_insert_eq in Hlookup. injection Hlookup as <-. exact Hround.
  - rewrite lookup_insert_ne in Hlookup by exact Hne. eapply Hall, Hlookup.
Qed.

Lemma initialiseNextRound_invariant (rs : RandomSource) (fuel : nat)
    (context_ context' : GameContext) (s s' : nat) :
  contextInvariant context_ ->
  Actions.initialiseNextRound rs fuel context_ s = Done (context', s') ->
  contextInvariant context'.
Proof.
  intros [_ Hrounds] H. unfold Actions.initialiseNextRound in H.
  apply bind_inv in H. destruct H as (position & s1 & _ & H).
  apply bind_inv in H. destruct H as ([positions count] & s2 & Hgen & H).
  apply bind_inv in H. destruct H as (trials' & s3 & Hmap & H).
  apply lift_inv in Hmap. destruct Hmap as [Hmap _]. simpl in Hmap.
  apply ret_inv in H. destruct H as [-> _].
  apply generatePositionsForRound_length in Hgen.
  apply mapRun_untouched in Hmap. destruct Hmap as [Hlen Hall].
  split; [simpl; unfold TRIALS_PER_ROUND; lia|]. simpl.
  apply roundShape_insert; [exact Hrounds|].
  unfold roundShape. simpl. split; [lia|]. split.
  - apply Forall_take, Hall.
  - apply untouched_withoutMatchOutcome, Hall.
Qed.

Lemma saveUserResponse_invariant (context_ context' : GameContext)
    (params : Response) :
  contextInvariant context_ ->
  Actions.saveUserResponse context_ params = Done context' ->
  contextInvariant context'.
Proof.
  intros [Hremaining Hrounds] H. unfold Actions.saveUserResponse in H.
  apply run_bind_inv in H. destruct H as (round & Hround & H).
  apply run_bind_inv in H. destruct H as (trial & Htrial & H).
  injection H as <-.
  unfold currentRoundDataOf in Hround.
  destruct (roundData context_ !! currentRound context_) as [round0|] eqn:Hlookup;
    [|discriminate]. injection Hround as ->.
  destruct (currentTrialOf context_ round) as [trial0|] eqn:Hcurrent;
    [|discriminate]. injection Htrial as ->.
  pose proof (Hrounds _ _ Hlookup) as Hshape.
  destruct (currentTrial_untouched _ _ _ Hremaining Hshape Hcurrent) as [_ Hnone].
  split; [exact Hremaining|]. simpl.
  apply roundShape_insert; [exact Hrounds|].
  apply roundShape_snoc; [exact Hshape|].
  unfold withoutMatchOutcome. simpl. rewrite Hnone. split; discriminate.
Qed.

Lemma evaluateGuess_invariant (context_ context' : GameContext) :
  contextInvariant context_ ->
  Actions.evaluateGuess context_ = Done context' ->
  contextInvariant context'.
Proof.
  intros [Hremaining Hrounds] H. unfold Actions.evaluateGuess in H.
  apply run_bind_inv in H. destruct H as (round & Hround & H).
  apply run_bind_inv in H. destruct H as (trial & Htrial & H).
  apply run_bind_inv in H. destruct H as (isTarget' & _ & H).
  injection H as <-.
  unfold currentRoundDataOf in Hround.
  destruct (roundData context_ !! currentRound context_) as [round0|] eqn:Hlookup;
    [|discriminate]. injection Hround as ->.
  destruct (currentTrialOf context_ round) as [trial0|] eqn:Hcurrent;
    [|discriminate]. injection Htrial as ->.
  pose proof (Hrounds _ _ Hlookup) as Hshape.
  destruct (currentTrial_untouched _ _ _ Hremaining Hshape Hcurrent) as [Hresponse _].
  split; [exact Hremaining|]. simpl.
  apply roundShape_insert; [exact Hrounds|].
  apply roundShape_snoc; [exact Hshape|].
  unfold withoutMatchOutcome. simpl. rewrite Hresponse.
  destruct isTarget'; split; discriminate.
Qed.

Lemma execAction_invariant (rs : RandomSource) (fuel : nat) (a : Action.t)
    (event : Event.t) (context_ context' : GameContext) (s s' : nat) :
  a <> Action.decrementGuessesRemainingInRound ->
  contextInvariant context_ ->
  execAction rs fuel a event context_ s = Done (context', s') ->
  contextInvariant context'.
Proof.
  intros Ha Hinv H. destruct a; simpl in H; try congruence.
  all: try (invert_run; exact Hinv).
  - eapply initialiseNextRound_invariant; eassumption.
  - destruct event; invert_run; try discriminate.
    eapply saveUserResponse_invariant; eassumption.
  - invert_run. eapply evaluateGuess_invariant; eassumption.
Qed.

Lemma execActions_invariant (rs : RandomSource) (fuel : nat)
    (l : list Action.t) (event : Event.t) :
  ~ In Action.decrementGuessesRemainingInRound l ->
  forall (context_ context' : GameContext) (s s' : nat),
    contextInvariant context_ ->
    execActions rs fuel l event context_ s = Done (context', s') ->
    contextInvariant context'.
Proof.
  induction l as [|a rest IH]; intros Hnot context_ context' s s' Hinv H;
    simpl in H.
  - invert_run. exact Hinv.
  - apply bind_inv in H. destruct H as (ctx1 & s1 & Ha & Hrest).
    eapply (IH (fun Hin => Hnot (or_intror Hin))); [|exact Hrest].
    eapply execAction_invariant; [|exact Hinv|exact Ha].
    intros ->. apply Hnot. left; reflexivity.
Qed.

(** The decrement is written once, first in the transition that is guarded
    by more than one remaining guess. *)
Lemma decrement_guarded (tr : Transition) :
  In tr allTransitions ->
  ~ In Action.decrementGuessesRemainingInRound (actions tr) \/
  (guard tr = Some Guard.inline_guessesRemaining /\
   exists rest,
     actions tr = Action.decrementGuessesRemainingInRound :: rest /\
     ~ In Action.decrementGuessesRemainingInRound rest).
Proof.
  intros H. vm_compute in H.
  repeat (destruct H as [<-|H];
          [first [ left; simpl; intuition discriminate
                 | right; split; [reflexivity|]; eexists; split; [reflexivity|];
                   simpl; intuition discriminate ] |]).
  destruct H.
Qed.

Lemma entry_without_decrement (entered : list Node.t) :
  ~ In Action.decrementGuessesRemainingInRound (flat_map entry entered).
Proof.
  intros H. apply in_flat_map in H. destruct H as (n & _ & H).
  destruct n; simpl in H; intuition discriminate.
Qed.

(** X24. In every configuration a session can reach, every round keeps the five
    records created at round start as they were, without response and without
    outcome, and no record carries the outcome hit or falseAlarm: the
    responses and outcomes are appended as further records, and outcomes are
    computed from the records created at round start. *)
Theorem round_start_records_never_updated (rs : RandomSource) (c : Config) :
  reachable rs c -> contextInvariant (context c).
Proof.
  intros Hreach. induction Hreach as [|c event fuel c' Hreach IH Hstep].
  - split; [simpl; unfold TRIALS_PER_ROUND; lia|]. intros k round H. simpl in H.
    rewrite lookup_empty in H. discriminate.
  - destruct (transition_inv _ _ _ _ _ Hstep)
      as [->|(n & tr & Hn & Htr & Hguard & Hexec & _)]; [exact IH|].
    simpl in Hexec.
    destruct (decrement_guarded tr (allTransitions_complete _ _ _ Htr))
      as [Hnone|(Hg & rest & Hactions & Hrest)].
    + eapply execActions_invariant; [|exact IH|exact Hexec].
      intros Hin. apply in_app_or in Hin. destruct Hin as [Hin|Hin];
        [exact (Hnone Hin)|exact (entry_without_decrement _ Hin)].
    + specialize (Hguard _ Hg). simpl in Hguard. injection Hguard as Hguard.
      apply Z.ltb_lt in Hguard.
      rewrite Hactions in Hexec. simpl in Hexec.
      apply bind_inv in Hexec. destruct Hexec as (ctx1 & s1 & Hdec & Hexec).
      apply ret_inv in Hdec. destruct Hdec as [-> ->].
      eapply execActions_invariant; [| |exact Hexec].
      * intros Hin. apply in_app_or in Hin. destruct Hin as [Hin|Hin];
          [exact (Hrest Hin)|exact (entry_without_decrement _ Hin)].
      * destruct IH as [Hremaining Hrounds]. split; [simpl; lia|exact Hrounds].
Qed.

Lemma round_start_records_never_updated_witness :
  exists c round,
    reachable cyclicSource c /\ state c = Node.gameOver /\
    roundData (context c) !! 1 = Some round /\
    roundShape round.
Proof.
  assert (reachable cyclicSource initialConfig) as H0 by constructor.
  destruct (runEvents cyclicSource 100 initialConfig respondingSession)
    as [c|f] eqn:Hrun.
  - assert (reachable cyclicSource c) as Hc
      by exact (reachable_runEvents cyclicSource 100%nat respondingSession
                  initialConfig c H0 Hrun).
    destruct (roundData (context c) !! 1) as [round|] eqn:Hround.
    + exists c, round. split; [exact Hc|]. split.
      * vm_compute in Hrun. injection Hrun as <-. reflexivity.
      * split; [exact Hround|].
        exact (proj2 (round_start_records_never_updated cyclicSource c Hc)
                 1 round Hround).
    + vm_compute in Hrun. injection Hrun as <-. vm_compute in Hround.
      discriminate.
  - vm_compute in Hrun. discriminate.
Defined.

(** ** Sessions do not crash *)

Lemma isReachable_done (position x : string) :
  isSquare position -> exists b, isReachable knight position x = Done b.
Proof.
  intros H. destruct (reachable_from_square knight position H) as (l & Hl & _).
  unfold isReachable. rewrite Hl. eexists; reflexivity.
Qed.

(** A retry loop whose draws succeed can only stop short for lack of
    fuel. *)
Lemma redraw_fault (fuel : nat) (next : Rand string) (selected : list string) :
  (forall s, exists r, next s = Done r) ->
  forall (x : string) (s : nat) (f : fault),
    redraw fuel next selected x s = Fault f -> f = OutOfFuel.
Proof.
  intros Hnext. induction fuel as [|fuel IH]; intros x s f H; simpl in H;
    destruct (includes selected x); try discriminate.
  - injection H as <-. reflexivity.
  - unfold bind in H. destruct (Hnext s) as [[x1 s1] Hx]. rewrite Hx in H.
    eapply IH, H.
Qed.

Section Progress.

Variable rs : RandomSource.
Hypothesis rs_range : unitRange rs.

Lemma getRandomArrayElement_total {T} (array : list T) :
  array <> [] -> forall s, exists r, getRandomArrayElement rs array s = Done r.
Proof.
  intros Hne s.
  destruct (getRandomArrayElement_done rs rs_range array s Hne) as (x & Hx & _).
  eexists; exact Hx.
Qed.

Lemma selectPositions_fault (fuel : nat) (reachablePositions : list string)
    (targetReachableCount : Z) :
  reachablePositions <> [] ->
  forall (iterations : nat) (i : Z) (selected : list string) (s : nat) (f : fault),
    selectPositions rs fuel reachablePositions targetReachableCount
      iterations i selected s = Fault f ->
    f = OutOfFuel.
Proof.
  intros Hne. induction iterations as [|n IH]; intros i selected s f H;
    simpl in H; [discriminate|].
  unfold bind in H. destruct (Z.ltb i targetReachableCount).
  - destruct (getRandomArrayElement_total reachablePositions Hne s) as [[x s1] Hget].
    rewrite Hget in H.
    destruct (redraw fuel _ selected x s1) as [[chosen s2]|f'] eqn:Hre.
    + eapply IH, H.
    + injection H as <-. eapply redraw_fault; [|exact Hre].
      apply getRandomArrayElement_total, Hne.
  - change (getRandomSquare rs) with (getRandomArrayElement rs squares) in H.
    destruct (getRandomArrayElement_total squares ltac:(discriminate) s)
      as [[x s1] Hget].
    rewrite Hget in H.
    destruct (redraw fuel _ selected x s1) as [[chosen s2]|f'] eqn:Hre.
    + eapply IH, H.
    + injection H as <-. eapply redraw_fault; [|exact Hre].
      apply getRandomArrayElement_total. discriminate.
Qed.

Lemma generatePositionsForRound_fault (fuel : nat) (position : string)
    (roundLength s : nat) (f : fault) :
  isSquare position ->
  generatePositionsForRound rs fuel knight position roundLength s = Fault f ->
  f = OutOfFuel.
Proof.
  intros Hsq H.
  destruct (reachable_from_square knight position Hsq) as (l & Hl & Hlen & _).
  unfold generatePositionsForRound, bind, lift, Math_random in H.
  rewrite Hl in H.
  match type of H with
  | context [selectPositions rs fuel l ?tc roundLength 0 [] (S s)] =>
      destruct (selectPositions rs fuel l tc roundLength 0 [] (S s))
        as [[selected s1]|f'] eqn:Hselect
  end.
  - destruct (shuffleArray_done rs selected s1 rs_range)
      as (positions & s2 & Hshuffle & _).
    rewrite Hshuffle in H. discriminate.
  - injection H as <-. eapply selectPositions_fault; [|exact Hselect].
    intros ->. simpl in Hlen. lia.
Qed.

Lemma mapRun_done (position : string) (positions : list string) :
  isSquare position ->
  exists l,
    mapRun (fun stimulus =>
              do isTarget' <- isReachable knight position stimulus;
              Done (mkTrial stimulus isTarget' None None)) positions = Done l.
Proof.
  intros Hsq. induction positions as [|p rest [l IH]]; simpl.
  - eexists; reflexivity.
  - destruct (isReachable_done position p Hsq) as [b ->]. simpl.
    rewrite IH. simpl. eexists; reflexivity.
Qed.

Lemma initialiseNextRound_fault (fuel : nat) (context_ : GameContext)
    (s : nat) (f : fault) :
  Actions.initialiseNextRound rs fuel context_ s = Fault f -> f = OutOfFuel.
Proof.
  intros H. unfold Actions.initialiseNextRound in H.
  change (getRandomSquare rs) with (getRandomArrayElement rs squares) in H.
  unfold bind at 1 in H.
  destruct (getRandomArrayElement_done rs rs_range squares s ltac:(discriminate))
    as (position & Hget & Hposition).
  rewrite Hget in H.
  assert (isSquare position) as Hsq
    by (apply list_elem_of_lookup; eexists; exact Hposition).
  unfold bind at 1 in H.
  destruct (generatePositionsForRound rs fuel knight position TRIALS_PER_ROUND (S s))
    as [[generated s1]|f'] eqn:Hgen.
  - unfold bind, lift, ret in H.
    destruct (mapRun_done position (fst generated) Hsq) as [l Hl].
    rewrite Hl in H. discriminate.
  - injection H as <-. eapply generatePositionsForRound_fault; eassumption.
Qed.

End Progress.

Lemma initialiseNextRound_roundReady (rs : RandomSource) (fuel : nat)
    (context_ context' : GameContext) (s s' : nat) :
  Actions.initialiseNextRound rs fuel context_ s = Done (context', s') ->
  roundReady context'.
Proof.
  intros H. unfold Actions.initialiseNextRound in H.
  apply bind_inv in H. destruct H as (position & s1 & Hget & H).
  apply bind_inv in H. destruct H as (generated & s2 & _ & H).
  apply bind_inv in H. destruct H as (trials' & s3 & _ & H).
  apply ret_inv in H. destruct H as [-> _].
  change (getRandomSquare rs) with (getRandomArrayElement rs squares) in Hget.
  apply getRandomArrayElement_elem in Hget. destruct Hget as [Hsq _].
  exists (mkRound position trials'). simpl.
  rewrite lookup_insert_eq. repeat split; assumption.
Qed.

Lemma currentTrial_exists (context_ : GameContext) (round : Round) :
  1 <= guessesRemainingInRound context_ <= Z.of_nat TRIALS_PER_ROUND ->
  roundShape round ->
  exists trial, currentTrialOf context_ round = Some trial.
Proof.
  intros Hremaining (Hlen & _). unfold currentTrialOf.
  rewrite at_nonneg by lia. apply lookup_lt_is_Some_2.
  unfold TRIALS_PER_ROUND in *. lia.
Qed.

Lemma saveUserResponse_done (context_ : GameContext) (params : Response) :
  contextInvariant context_ -> roundReady context_ ->
  exists context',
    Actions.saveUserResponse context_ params = Done context' /\
    roundReady context'.
Proof.
  intros [Hremaining Hrounds] (round & Hround & Hsq & Hsq').
  destruct (currentTrial_exists context_ round Hremaining (Hrounds _ _ Hround))
    as [trial Htrial].
  unfold Actions.saveUserResponse, currentRoundDataOf.
  rewrite Hround. simpl. rewrite Htrial. simpl.
  eexists. split; [reflexivity|].
  eexists. simpl. rewrite lookup_insert_eq. repeat split; assumption.
Qed.

Lemma evaluateGuess_done (context_ : GameContext) :
  contextInvariant context_ -> roundReady context_ ->
  exists context',
    Actions.evaluateGuess context_ = Done context' /\
    roundReady context'.
Proof.
  intros [Hremaining Hrounds] (round & Hround & Hsq & Hsq').
  destruct (currentTrial_exists context_ round Hremaining (Hrounds _ _ Hround))
    as [trial Htrial].
  destruct (isReachable_done (round_piecePositionForRound round) (stimulus trial) Hsq)
    as [b Hb].
  unfold Actions.evaluateGuess, currentRoundDataOf.
  rewrite Hround. simpl. rewrite Htrial. simpl. rewrite Hb. simpl.
  eexists. split; [reflexivity|].
  eexists. simpl. rewrite lookup_insert_eq. repeat split; assumption.
Qed.

Lemma execAction_roundReady (rs : RandomSource) (fuel : nat) (a : Action.t)
    (event : Event.t) (context_ context' : GameContext) (s s' : nat) :
  contextInvariant context_ ->
  roundReady context_ \/ a = Action.initialiseNextRound ->
  execAction rs fuel a event context_ s = Done (context', s') ->
  roundReady context'.
Proof.
  intros Hinv Hready H. destruct a; simpl in H.
  all: try (destruct Hready as [Hready|Hready]; [|discriminate];
            invert_run; exact Hready).
  - eapply initialiseNextRound_roundReady, H.
  - destruct Hready as [Hready|Hready]; [|discriminate].
    destruct event as [|r| | | |]; invert_run; try discriminate.
    destruct (saveUserResponse_done context_ r Hinv Hready)
      as (ctx1 & Hdone & Hready1).
    congruence.
  - destruct Hready as [Hready|Hready]; [|discriminate]. invert_run.
    destruct (evaluateGuess_done context_ Hinv Hready) as (ctx1 & Hdone & Hready1).
    congruence.
Qed.

Section Safety.

Variable rs : RandomSource.
Hypothesis rs_range : unitRange rs.
Variable fuel : nat.

Lemma execAction_fault (a : Action.t) (event : Event.t)
    (context_ : GameContext) (s : nat) (f : fault) :
  contextInvariant context_ ->
  (readsRound a = true -> roundReady context_) ->
  (a = Action.saveUserResponse -> exists r, event = Event.userResponse r) ->
  execAction rs fuel a event context_ s = Fault f ->
  f = OutOfFuel.
Proof.
  intros Hinv Hready Hevent H. destruct a; simpl in H; try discriminate.
  - eapply initialiseNextRound_fault; eassumption.
  - destruct (Hevent eq_refl) as [r ->].
    destruct (saveUserResponse_done context_ r Hinv (Hready eq_refl))
      as (ctx1 & Hdone & _).
    rewrite Hdone in H. discriminate.
  - destruct (evaluateGuess_done context_ Hinv (Hready eq_refl))
      as (ctx1 & Hdone & _).
    rewrite Hdone in H. discriminate.
Qed.

(** A list of actions without the decrement: it can only stop for lack of
    fuel, it keeps the invariant of the context, and it leaves a recorded
    round when it started with one or initialises one. *)
Lemma execActions_safe (event : Event.t) (l : list Action.t) :
  ~ In Action.decrementGuessesRemainingInRound l ->
  (In Action.saveUserResponse l -> exists r, event = Event.userResponse r) ->
  forall (context_ : GameContext) (s : nat),
    contextInvariant context_ ->
    roundReady context_ \/ existsb readsRound l = false ->
    (forall f, execActions rs fuel l event context_ s = Fault f -> f = OutOfFuel) /\
    (forall context' s',
        execActions rs fuel l event context_ s = Done (context', s') ->
        contextInvariant context' /\
        (roundReady context_ \/ In Action.initialiseNextRound l ->
         roundReady context')).
Proof.
  induction l as [|a rest IH]; intros Hnodec Hevent context_ s Hinv Hpre.
  - split; [discriminate|]. intros context' s' H. simpl in H. invert_run.
    split; [exact Hinv|]. intros [Hready|[]]. exact Hready.
  - assert (a <> Action.decrementGuessesRemainingInRound) as Ha
      by (intros ->; apply Hnodec; left; reflexivity).
    assert (readsRound a = true -> roundReady context_) as Hreads.
    { intros Hr. destruct Hpre as [Hready|Hnone]; [exact Hready|].
      simpl in Hnone. rewrite Hr in Hnone. discriminate. }
    simpl. unfold bind.
    destruct (execAction rs fuel a event context_ s) as [[ctx1 s1]|f1] eqn:Hfirst.
    + pose proof (execAction_invariant _ _ _ _ _ _ _ _ Ha Hinv Hfirst) as Hinv1.
      assert (roundReady ctx1 \/ existsb readsRound rest = false) as Hpre1.
      { destruct Hpre as [Hready|Hnone].
        - left. eapply execAction_roundReady; [exact Hinv|left; exact Hready|exact Hfirst].
        - right. simpl in Hnone. apply orb_false_iff in Hnone. apply Hnone. }
      destruct (IH (fun Hin => Hnodec (or_intror Hin))
                   (fun Hin => Hevent (or_intror Hin)) ctx1 s1 Hinv1 Hpre1)
        as [Hfault Hdone].
      split; [exact Hfault|]. intros context' s' H.
      destruct (Hdone context' s' H) as [Hinv' Hready']. split; [exact Hinv'|].
      intros [Hready|[->|Hin]].
      * apply Hready'. left.
        eapply execAction_roundReady; [exact Hinv|left; exact Hready|exact Hfirst].
      * apply Hready'. left.
        eapply execAction_roundReady; [exact Hinv|right; reflexivity|exact Hfirst].
      * apply Hready'. right. exact Hin.
    + split; [|discriminate]. intros f [= <-].
      eapply execAction_fault; [exact Hinv|exact Hreads| |exact Hfirst].
      intros ->. apply Hevent. left; reflexivity.
Qed.

(** The same for the lists the machine runs, where the decrement may come
    first under the guard of more than one remaining guess. *)
Lemma execActions_guarded (event : Event.t) (l : list Action.t)
    (context_ : GameContext) (s : nat) :
  (~ In Action.decrementGuessesRemainingInRound l \/
   (1 < guessesRemainingInRound context_ /\
    exists rest, l = Action.decrementGuessesRemainingInRound :: rest /\
                 ~ In Action.decrementGuessesRemainingInRound rest)) ->
  (In Action.saveUserResponse l -> exists r, event = Event.userResponse r) ->
  contextInvariant context_ ->
  roundReady context_ \/ existsb readsRound l = false ->
  (forall f, execActions rs fuel l event context_ s = Fault f -> f = OutOfFuel) /\
  (forall context' s',
      execActions rs fuel l event context_ s = Done (context', s') ->
      contextInvariant context' /\
      (roundReady context_ \/ In Action.initialiseNextRound l ->
       roundReady context')).
Proof.
  intros [Hnodec|(Hguard & rest & -> & Hnodec)] Hevent Hinv Hpre.
  - apply execActions_safe; assumption.
  - assert (contextInvariant
              (Actions.decrementGuessesRemainingInRound context_)) as Hinv1
      by (destruct Hinv as [Hremaining Hrounds]; split; [simpl; lia|exact Hrounds]).
    destruct (execActions_safe event rest Hnodec
                (fun Hin => Hevent (or_intror Hin))
                (Actions.decrementGuessesRemainingInRound context_) s Hinv1 Hpre)
      as [Hfault Hdone].
    split; [exact Hfault|]. intros context' s' H.
    destruct (Hdone context' s' H) as [Hinv' Hready']. split; [exact Hinv'|].
    intros [Hready|[Hin|Hin]]; [apply Hready'; left; exact Hready|discriminate|].
    apply Hready'. right. exact Hin.
Qed.

End Safety.

(** *** Where the machine reads the round *)

Lemma readers_in_round (n : Node.t) (event : Event.t) (tr : Transition) :
  In tr (on n event) ->
  existsb readsRound (actions tr) = true \/ guard tr = Some Guard.isHit ->
  inRound n = true.
Proof.
  intros Htr H. destruct n; try reflexivity; destruct event; simpl in Htr;
    repeat (destruct Htr as [<-|Htr]); try contradiction;
    simpl in H; destruct H; discriminate.
Qed.

Lemma inRound_path (st n : Node.t) :
  In n (st :: ancestors st) -> inRound n = true -> inRound st = true.
Proof.
  intros Hn H. destruct st; try reflexivity; simpl in Hn;
    repeat (destruct Hn as [<-|Hn]); try contradiction; discriminate.
Qed.

Lemma saveUserResponse_event (n : Node.t) (event : Event.t) (tr : Transition) :
  In tr (on n event) -> In Action.saveUserResponse (actions tr) ->
  exists r, event = Event.userResponse r.
Proof.
  intros Htr H. destruct event as [|r| | | |]; [|exists r; reflexivity|..];
    destruct n; simpl in Htr;
    repeat (destruct Htr as [<-|Htr]); try contradiction;
    simpl in H; intuition discriminate.
Qed.

Lemma entry_reads_nothing (entered : list Node.t) :
  existsb readsRound (flat_map entry entered) = false /\
  ~ In Action.saveUserResponse (flat_map entry entered).
Proof.
  induction entered as [|n rest [IH1 IH2]]; [split; [reflexivity|intros []]|].
  simpl. rewrite existsb_app, IH1, orb_false_r. split.
  - destruct n; reflexivity.
  - intros H. apply in_app_or in H. destruct H as [H|H]; [|exact (IH2 H)].
    destruct n; simpl in H; intuition discriminate.
Qed.

(** A round state is entered from a round state or through
    [initialiseNextRound]. *)
Lemma entering_round (st n : Node.t) (event : Event.t) (tr : Transition) :
  In n (st :: ancestors st) -> In tr (on n event) ->
  let entered := match target tr with
                 | Some target_ => enteredNodes n target_
                 | None => []
                 end in
  inRound (List.last entered st) = true ->
  inRound st = true \/
  In Action.initialiseNextRound (actions tr ++ flat_map entry entered).
Proof.
  intros Hn Htr.
  destruct st; simpl in Hn; repeat (destruct Hn as [<-|Hn]); try contradiction;
    destruct event; simpl in Htr;
    repeat (destruct Htr as [<-|Htr]); try contradiction;
    vm_compute; intuition.
Qed.

Lemma isHit_done (context_ : GameContext) :
  isSquare (piecePositionForRound context_) ->
  exists b, Guards.isHit context_ = Done b.
Proof.
  intros Hsq. unfold Guards.isHit.
  destruct (currentSquare context_) as [[|a rest]|];
    try (eexists; reflexivity).
  apply isReachable_done, Hsq.
Qed.

Lemma evalGuard_fault (g : Guard.t) (context_ : GameContext) (f : fault) :
  evalGuard g context_ = Fault f -> g = Guard.isHit.
Proof. destruct g; simpl; intros H; try discriminate; reflexivity. Qed.

Lemma firstEnabled_fault (candidates : list Transition) (context_ : GameContext)
    (f : fault) :
  firstEnabled candidates context_ = Fault f ->
  exists tr g,
    In tr candidates /\ guard tr = Some g /\ evalGuard g context_ = Fault f.
Proof.
  induction candidates as [|x rest IH]; simpl; [discriminate|].
  destruct (guard x) as [g|] eqn:Hg; [|discriminate].
  destruct (evalGuard g context_) as [[|]|f'] eqn:Heval; simpl.
  - discriminate.
  - intros H. destruct (IH H) as (tr & g' & Hin & Hg' & Hf).
    exists tr, g'. split; [right; exact Hin|split; assumption].
  - intros [= <-]. exists x, g. split; [left; reflexivity|split; assumption].
Qed.

Lemma selectTransition_fault (path : list Node.t) (event : Event.t)
    (context_ : GameContext) (f : fault) :
  selectTransition path event context_ = Fault f ->
  exists n tr g,
    In n path /\ In tr (on n event) /\ guard tr = Some g /\
    evalGuard g context_ = Fault f.
Proof.
  induction path as [|x rest IH]; simpl; [discriminate|].
  destruct (firstEnabled (on x event) context_) as [[tr|]|f'] eqn:Hfirst; simpl.
  - discriminate.
  - intros H. destruct (IH H) as (n & tr & g & Hn & Htr & Hg & Hf).
    exists n, tr, g. split; [right; exact Hn|repeat split; assumption].
  - intros [= <-]. destruct (firstEnabled_fault _ _ _ Hfirst) as (tr & g & Htr & Hg & Hf).
    exists x, tr, g. split; [left; reflexivity|repeat split; assumption].
Qed.

Lemma transition_fault_inv (rs : RandomSource) (fuel : nat) (c : Config)
    (event : Event.t) (f : fault) :
  transition rs fuel c event = Fault f ->
  selectTransition (state c :: ancestors (state c)) event (context c) = Fault f \/
  exists n tr,
    In n (state c :: ancestors (state c)) /\ In tr (on n event) /\
    (forall g, guard tr = Some g -> evalGuard g (context c) = Done true) /\
    let entered := match target tr with
                   | Some target_ => enteredNodes n target_
                   | None => []
                   end in
    execActions rs fuel (actions tr ++ flat_map entry entered) event
      (context c) (calls c) = Fault f.
Proof.
  unfold transition.
  destruct (selectTransition _ event (context c)) as [[[n tr]|]|f'] eqn:Hsel; simpl.
  - destruct (selectTransition_in _ _ _ _ _ Hsel) as (Hn & Htr & Hguard).
    destruct (execActions _ _ _ _ _ _) as [[ctx' calls']|f'] eqn:Hexec; simpl;
      [discriminate|].
    intros [= <-]. right. exists n, tr. simpl. repeat split; assumption.
  - discriminate.
  - intros [= <-]. left; reflexivity.
Qed.

(** The premises of [execActions_guarded], for the list a transition of the
    machine runs from a configuration that satisfies the invariant. *)
Lemma transition_list_premises (c : Config) (n : Node.t) (event : Event.t)
    (tr : Transition) (entered : list Node.t) :
  sessionInvariant c ->
  In n (state c :: ancestors (state c)) -> In tr (on n event) ->
  (forall g, guard tr = Some g -> evalGuard g (context c) = Done true) ->
  let l := actions tr ++ flat_map entry entered in
  (~ In Action.decrementGuessesRemainingInRound l \/
   (1 < guessesRemainingInRound (context c) /\
    exists rest, l = Action.decrementGuessesRemainingInRound :: rest /\
                 ~ In Action.decrementGuessesRemainingInRound rest)) /\
  (In Action.saveUserResponse l -> exists r, event = Event.userResponse r) /\
  (roundReady (context c) \/ existsb readsRound l = false).
Proof.
  intros [Hinv Hround] Hn Htr Hguard l. subst l.
  destruct (entry_reads_nothing entered) as [Hentry Hsave].
  split; [|split].
  - destruct (decrement_guarded tr (allTransitions_complete _ _ _ Htr))
      as [Hnone|(Hg & rest & Hactions & Hrest)].
    + left. intros Hin. apply in_app_or in Hin. destruct Hin as [Hin|Hin];
        [exact (Hnone Hin)|exact (entry_without_decrement _ Hin)].
    + right. specialize (Hguard _ Hg). simpl in Hguard.
      injection Hguard as Hguard. apply Z.ltb_lt in Hguard.
      split; [exact Hguard|]. exists (rest ++ flat_map entry entered).
      split; [rewrite Hactions; reflexivity|].
      intros Hin. apply in_app_or in Hin. destruct Hin as [Hin|Hin];
        [exact (Hrest Hin)|exact (entry_without_decrement _ Hin)].
  - intros Hin. apply in_app_or in Hin. destruct Hin as [Hin|Hin];
      [|contradiction]. eapply saveUserResponse_event; eassumption.
  - rewrite existsb_app, Hentry, orb_false_r.
    destruct (existsb readsRound (actions tr)) eqn:Hreads; [left|right; reflexivity].
    apply Hround. eapply inRound_path; [exact Hn|].
    eapply readers_in_round; [exact Htr|left; exact Hreads].
Qed.

Lemma transition_sessionInvariant (rs : RandomSource) (fuel : nat)
    (c c' : Config) (event : Event.t) :
  unitRange rs ->
  sessionInvariant c ->
  transition rs fuel c event = Done c' ->
  sessionInvariant c'.
Proof.
  intros Hrange Hinv Hstep.
  destruct (transition_inv _ _ _ _ _ Hstep)
    as [->|(n & tr & Hn & Htr & Hguard & Hexec & Hstate)]; [exact Hinv|].
  simpl in Hexec, Hstate.
  destruct (transition_list_premises c n event tr
              (match target tr with
               | Some target_ => enteredNodes n target_
               | None => []
               end) Hinv Hn Htr Hguard)
    as (Hdec & Hsave & Hpre).
  destruct (execActions_guarded rs Hrange fuel event _ (context c) (calls c)
              Hdec Hsave (proj1 Hinv) Hpre) as [_ Hdone].
  destruct (Hdone _ _ Hexec) as [Hinv' Hready']. split; [exact Hinv'|].
  intros Hin. rewrite Hstate in Hin. apply Hready'.
  destruct (entering_round (state c) n event tr Hn Htr Hin) as [Hold|Hinit];
    [left; apply (proj2 Hinv), Hold|right; exact Hinit].
Qed.

Lemma reachable_sessionInvariant (rs : RandomSource) (c : Config) :
  unitRange rs -> reachable rs c -> sessionInvariant c.
Proof.
  intros Hrange Hreach.
  induction Hreach as [|c event fuel c' Hreach IH Hstep].
  - split; [|discriminate].
    split; [simpl; unfold TRIALS_PER_ROUND; lia|].
    intros k round H. simpl in H. rewrite lookup_empty in H. discriminate.
  - eapply transition_sessionInvariant; eassumption.
Qed.

Lemma transition_fault_kind (rs : RandomSource) (fuel : nat) (c : Config)
    (event : Event.t) (f : fault) :
  unitRange rs -> sessionInvariant c ->
  transition rs fuel c event = Fault f -> f = OutOfFuel.
Proof.
  intros Hrange Hinv Hfault.
  destruct (transition_fault_inv _ _ _ _ _ Hfault)
    as [Hsel|(n & tr & Hn & Htr & Hguard & Hexec)].
  - exfalso.
    destruct (selectTransition_fault _ _ _ _ Hsel) as (n & tr & g & Hn & Htr & Hg & Hf).
    pose proof (evalGuard_fault _ _ _ Hf) as ->.
    assert (roundReady (context c)) as (round & _ & _ & Hsq).
    { apply (proj2 Hinv). eapply inRound_path; [exact Hn|].
      eapply readers_in_round; [exact Htr|right; exact Hg]. }
    destruct (isHit_done (context c) Hsq) as [b Hb].
    simpl in Hf. congruence.
  - simpl in Hexec.
    destruct (transition_list_premises c n event tr
                (match target tr with
                 | Some target_ => enteredNodes n target_
                 | None => []
                 end) Hinv Hn Htr Hguard)
      as (Hdec & Hsave & Hpre).
    destruct (execActions_guarded rs Hrange fuel event _ (context c) (calls c)
                Hdec Hsave (proj1 Hinv) Hpre) as [Hfaults _].
    eapply Hfaults, Hexec.
Qed.

(** X25. With draws in the unit interval, every configuration a session can
    reach satisfies the invariant, and a step from it raises no [TypeError]
    and lets no [undefined] through: the only way a step fails to complete
    is the retry loop of the round generator not ending. *)
Theorem reachable_steps_safe (rs : RandomSource) (c : Config) :
  unitRange rs ->
  reachable rs c ->
  sessionInvariant c /\
  forall (fuel : nat) (event : Event.t) (f : fault),
    transition rs fuel c event = Fault f -> f = OutOfFuel.
Proof.
  intros Hrange Hreach.
  pose proof (reachable_sessionInvariant rs c Hrange Hreach) as Hinv.
  split; [exact Hinv|]. intros fuel event f Hfault.
  exact (transition_fault_kind rs fuel c event f Hrange Hinv Hfault).
Qed.

Lemma reachable_steps_safe_witness :
  unitRange cyclicSource /\
  exists c,
    reachable cyclicSource c /\ state c = Node.waitingForResponse /\
    sessionInvariant c /\
    forall (fuel : nat) (event : Event.t) (f : fault),
      transition cyclicSource fuel c event = Fault f -> f = OutOfFuel.
Proof.
  assert (reachable cyclicSource initialConfig) as H0 by constructor.
  split; [exact cyclicSource_range|].
  destruct (runEvents cyclicSource 100 initialConfig
              [Event.start; Event.after_3000]) as [c|f] eqn:Hrun.
  - assert (reachable cyclicSource c) as Hc
      by exact (reachable_runEvents cyclicSource 100%nat
                  [Event.start; Event.after_3000] initialConfig c H0 Hrun).
    exists c. split; [exact Hc|]. split.
    + vm_compute in Hrun. injection Hrun as <-. reflexivity.
    + exact (reachable_steps_safe cyclicSource c cyclicSource_range Hc).
  - vm_compute in Hrun. discriminate.
Defined.

(** * Further properties of the code *)

(** ** Square colours *)

Lemma assoc_None {A} (k : string) (l : list (string * A)) :
  ~ In k (map fst l) -> assoc k l = None.
Proof.
  induction l as [|[k' v] rest IH]; simpl; [reflexivity|].
  intros Hnot. destruct (String.eqb_spec k' k) as [->|Hne].
  - exfalso. apply Hnot. left; reflexivity.
  - apply IH. intros Hin. apply Hnot. right; exact Hin.
Qed.

Lemma assoc_Some {A} (k : string) (l : list (string * A)) (v : A) :
  assoc k l = Some v -> In k (map fst l).
Proof.
  induction l as [|[k' v'] rest IH]; simpl; [discriminate|].
  destruct (String.eqb_spec k' k) as [->|Hne]; [left; reflexivity|].
  intros H. right. exact (IH H).
Qed.

Lemma parityColor_all :
  forallb (fun f =>
    forallb (fun r =>
      memberColor_eqb (getSquareColor (square f r)) (own (parityColor f r)))
      range8) range8 = true.
Proof. vm_compute. reflexivity. Qed.

Lemma memberColor_eqb_eq (a b : Member SquareColor) :
  memberColor_eqb a b = true <-> a = b.
Proof.
  destruct a as [[|]|x|], b as [[|]|y|]; simpl; split; try congruence.
  - intros H. apply String.eqb_eq in H. congruence.
  - intros [= ->]. apply String.eqb_refl.
Qed.

(** X1. The colour table built by [generateSquareColors] answers, for the
    square on file [f] and rank [r] of the board, dark when [f + r] is even
    and light when it is odd (a1 is dark). A colour is found for the 64
    square names and for no other string: the table is an object literal,
    so for a name that [Object.prototype] defines ("constructor",
    "toString", ...) the lookup gives the inherited member, and for every
    other string [undefined]. *)
Theorem getSquareColor_parity :
  (forall f r : Z, onBoard f r ->
     getSquareColor (square f r) = own (parityColor f r)) /\
  (forall s : string,
     (exists color, getSquareColor s = own color) <-> isSquare s) /\
  (forall s : string,
     getSquareColor s = inherited s <-> In s Object_prototype) /\
  (forall s : string,
     getSquareColor s = absent <-> ~ isSquare s /\ ~ In s Object_prototype).
Proof.
  assert (forall s, isSquare s -> exists color, getSquareColor s = own color)
    as Hsquares.
  { intros s Hs. apply isSquare_inv in Hs. destruct Hs as (f & r & [Hf Hr] & ->).
    pose proof parityColor_all as Hall.
    rewrite forallb_forall in Hall.
    specialize (Hall f (range8_complete f Hf)).
    rewrite forallb_forall in Hall.
    specialize (Hall r (range8_complete r Hr)).
    eexists. apply memberColor_eqb_eq, Hall. }
  assert (forall s, In s Object_prototype -> ~ isSquare s) as Hnames.
  { intros s Hin Hs. apply includes_elem_of in Hs.
    simpl in Hin.
    repeat (destruct Hin as [<-|Hin]; [discriminate Hs|]). destruct Hin. }
  assert (forall s, ~ isSquare s ->
            getSquareColor s =
            if includes Object_prototype s then inherited s else absent)
    as Hother.
  { intros s Hs. unfold getSquareColor. rewrite assoc_None; [reflexivity|].
    intros Hin. apply Hs. unfold isSquare, squares. apply list_elem_of_In, Hin. }
  assert (forall s, includes Object_prototype s = true <-> In s Object_prototype)
    as Hincludes.
  { intros s. rewrite <- list_elem_of_In. apply includes_elem_of. }
  split; [|split; [|split]].
  - intros f r [Hf Hr]. pose proof parityColor_all as Hall.
    rewrite forallb_forall in Hall.
    specialize (Hall f (range8_complete f Hf)).
    rewrite forallb_forall in Hall.
    specialize (Hall r (range8_complete r Hr)).
    apply memberColor_eqb_eq, Hall.
  - intros s. split; [|apply Hsquares].
    intros [color Hcolor]. unfold getSquareColor in Hcolor.
    destruct (assoc s squareColors) as [c|] eqn:Hassoc.
    + apply assoc_Some in Hassoc. unfold isSquare, squares.
      apply list_elem_of_In, Hassoc.
    + destruct (includes Object_prototype s); discriminate Hcolor.
  - intros s. split.
    + intros H. destruct (decide (isSquare s)) as [Hs|Hs].
      * destruct (Hsquares s Hs) as [color Hcolor]. congruence.
      * rewrite (Hother s Hs) in H. apply Hincludes.
        destruct (includes Object_prototype s); [reflexivity|discriminate H].
    + intros Hin. rewrite (Hother s (Hnames s Hin)).
      apply Hincludes in Hin. rewrite Hin. reflexivity.
  - intros s. split.
    + intros H. assert (~ isSquare s) as Hs.
      { intros Hs. destruct (Hsquares s Hs) as [color Hcolor]. congruence. }
      split; [exact Hs|]. intros Hin. rewrite (Hother s Hs) in H.
      apply Hincludes in Hin. rewrite Hin in H. discriminate H.
    + intros [Hs Hnot]. rewrite (Hother s Hs).
      destruct (includes Object_prototype s) eqn:Hin; [|reflexivity].
      exfalso. apply Hnot, Hincludes, Hin.
Qed.

Lemma getSquareColor_parity_witness :
  onBoard 1 1 /\ getSquareColor (square 1 1) = own dark /\
  In "constructor" Object_prototype /\
  getSquareColor "constructor" = inherited "constructor" /\
  (~ isSquare "i9" /\ ~ In "i9" Object_prototype) /\
  getSquareColor "i9" = absent.
Proof.
  assert (onBoard 1 1) as H by (unfold onBoard; lia).
  assert (In "constructor" Object_prototype) as Hin by (simpl; tauto).
  assert (~ isSquare "i9" /\ ~ In "i9" Object_prototype) as Hno.
  { split; [intros Hs; apply includes_elem_of in Hs; discriminate Hs|].
    simpl. intuition discriminate. }
  destruct getSquareColor_parity as (Hparity & _ & Hinherited & Habsent).
  split; [exact H|]. split; [exact (Hparity 1 1 H)|].
  split; [exact Hin|]. split; [exact (proj2 (Hinherited "constructor") Hin)|].
  split; [exact Hno|]. exact (proj2 (Habsent "i9") Hno).
Defined.

Lemma colourCheck_all :
  forallb (fun origin =>
             colourCheck knight origin && colourCheck bishop origin)
          squares = true.
Proof. vm_compute. reflexivity. Qed.

(** X2. From a square of the board, every square in the knight's reachable
    list has the other colour than the origin, and every square in the
    bishop's reachable list has the colour of the origin. *)
Theorem reachable_square_colours (piece : Piece) (origin t : string)
    (l : list string) :
  isSquare origin ->
  getReachablePositions piece origin = Done l ->
  t ∈ l ->
  match piece with
  | knight => getSquareColor t <> getSquareColor origin
  | bishop => getSquareColor t = getSquareColor origin
  end.
Proof.
  intros Hsq Hl Ht. pose proof colourCheck_all as Hall.
  rewrite forallb_forall in Hall.
  specialize (Hall origin (proj1 (list_elem_of_In _ _) Hsq)).
  apply andb_true_iff in Hall as [Hk Hb].
  destruct piece.
  - unfold colourCheck in Hk. rewrite Hl in Hk.
    rewrite forallb_forall in Hk.
    specialize (Hk t (proj1 (list_elem_of_In _ _) Ht)).
    intros Heq. apply memberColor_eqb_eq in Heq. rewrite Heq in Hk. discriminate.
  - unfold colourCheck in Hb. rewrite Hl in Hb.
    rewrite forallb_forall in Hb.
    specialize (Hb t (proj1 (list_elem_of_In _ _) Ht)).
    apply memberColor_eqb_eq, Hb.
Qed.

Lemma reachable_square_colours_witness :
  isSquare "d4" /\
  getReachablePositions knight "d4" =
    Done ["b3"; "b5"; "c2"; "c6"; "e2"; "e6"; "f3"; "f5"] /\
  "c6" ∈ ["b3"; "b5"; "c2"; "c6"; "e2"; "e6"; "f3"; "f5"] /\
  getSquareColor "c6" <> getSquareColor "d4".
Proof.
  assert (isSquare "d4") as Hsq by (apply includes_elem_of; reflexivity).
  assert (getReachablePositions knight "d4" =
            Done ["b3"; "b5"; "c2"; "c6"; "e2"; "e6"; "f3"; "f5"]) as Hl
    by reflexivity.
  assert ("c6" ∈ ["b3"; "b5"; "c2"; "c6"; "e2"; "e6"; "f3"; "f5"]) as Hin
    by (apply includes_elem_of; reflexivity).
  split; [exact Hsq|]. split; [exact Hl|]. split; [exact Hin|].
  exact (reachable_square_colours knight "d4" "c6" _ Hsq Hl Hin).
Defined.

(** ** Bishop geometry *)

Lemma bishopOffsetb_spec (df dr : Z) :
  bishopOffsetb df dr = true <-> bishopOffset df dr.
Proof.
  unfold bishopOffsetb, bishopOffset.
  rewrite andb_true_iff, negb_true_iff, Z.eqb_eq, Z.eqb_neq. reflexivity.
Qed.

Lemma bishopCheck_all :
  forallb (fun f => forallb (bishopCheck f) range8) range8 = true.
Proof. vm_compute. reflexivity. Qed.

(** X3. From every square of the board the bishop list is free of
    duplicates and holds exactly the other squares of the board on the two
    diagonals through the origin, however far along them: the loop slides
    until it leaves the board. *)
Theorem bishop_reachable_exact (f r : Z) :
  onBoard f r ->
  exists l,
    getReachablePositions bishop (square f r) = Done l /\
    NoDup l /\
    forall s, s ∈ l <->
      exists f' r', onBoard f' r' /\ bishopOffset (f' - f) (r' - r) /\
                    s = square f' r'.
Proof.
  intros [Hf Hr].
  pose proof bishopCheck_all as Hall.
  rewrite forallb_forall in Hall.
  specialize (Hall f (range8_complete f Hf)).
  rewrite forallb_forall in Hall.
  specialize (Hall r (range8_complete r Hr)).
  unfold bishopCheck in Hall.
  destruct (getReachablePositions bishop (square f r)) as [l|]; [|discriminate].
  apply andb_true_iff in Hall as [Hall Hgrid].
  apply andb_true_iff in Hall as [Hnodup Hsq].
  exists l. split; [reflexivity|].
  split; [apply bool_decide_eq_true in Hnodup; exact Hnodup|].
  rewrite forallb_forall in Hsq, Hgrid.
  assert (Hcell : forall f' r', onBoard f' r' ->
            includes l (square f' r') = bishopOffsetb (f' - f) (r' - r)).
  { intros f' r' [Hf' Hr'].
    specialize (Hgrid f' (range8_complete f' Hf')).
    rewrite forallb_forall in Hgrid.
    specialize (Hgrid r' (range8_complete r' Hr')).
    apply Bool.eqb_prop in Hgrid. exact Hgrid. }
  intros s. split.
  - intros Hs.
    assert (isSquare s) as Hsquare
      by (apply includes_elem_of, Hsq, list_elem_of_In, Hs).
    destruct (isSquare_inv s Hsquare) as (f' & r' & Hon & ->).
    exists f', r'. split; [exact Hon|]. split; [|reflexivity].
    apply bishopOffsetb_spec. rewrite <- (Hcell f' r' Hon).
    apply includes_elem_of, Hs.
  - intros (f' & r' & Hon & Hoff & ->).
    apply includes_elem_of. rewrite (Hcell f' r' Hon).
    apply bishopOffsetb_spec, Hoff.
Qed.

Lemma bishop_reachable_exact_witness :
  onBoard 1 1 /\
  exists l,
    getReachablePositions bishop (square 1 1) = Done l /\
    NoDup l /\
    forall s, s ∈ l <->
      exists f' r', onBoard f' r' /\ bishopOffset (f' - 1) (r' - 1) /\
                    s = square f' r'.
Proof.
  assert (onBoard 1 1) as H by (unfold onBoard; lia).
  split; [exact H|]. exact (bishop_reachable_exact 1 1 H).
Defined.

(** ** Reachable lists of arbitrary positions *)

Lemma inBounds_isSquare (newFile newRank : Z) :
  inBounds newFile newRank = true -> isSquare (squareName newFile newRank).
Proof.
  unfold inBounds. rewrite !andb_true_iff, !Z.leb_le.
  change (charCode "a") with 97. change (charCode "h") with 104.
  change (charCode "1") with 49. change (charCode "8") with 56.
  intros [[[Ha Hh] H1] H8].
  replace newFile with (96 + (newFile - 96)) by lia.
  replace newRank with (48 + (newRank - 48)) by lia.
  apply (isSquare_square (newFile - 96) (newRank - 48)). unfold onBoard. lia.
Qed.

Lemma knightStep_squares (file rank : ascii) (moves : list (Z * Z)) :
  forall acc, Forall isSquare acc ->
    Forall isSquare (fold_left (knightStep file rank) moves acc).
Proof.
  induction moves as [|[df dr] rest IH]; intros acc Hacc; simpl; [exact Hacc|].
  apply IH. unfold knightStep.
  destruct (inBounds _ _) eqn:Hin; [|exact Hacc].
  apply Forall_app. split; [exact Hacc|].
  constructor; [apply inBounds_isSquare, Hin|constructor].
Qed.

Lemma bishopSlide_squares (fuel : nat) (file rank : ascii) (move : Z * Z) :
  forall (fileOffset rankOffset : Z) (acc l : list string),
    Forall isSquare acc ->
    bishopSlide fuel file rank move fileOffset rankOffset acc = Done l ->
    Forall isSquare l.
Proof.
  induction fuel as [|fuel IH]; intros fo ro acc l Hacc H; simpl in H;
    destruct (inBounds _ _) eqn:Hin; try discriminate.
  - injection H as <-. exact Hacc.
  - eapply IH; [|exact H]. apply Forall_app. split; [exact Hacc|].
    constructor; [apply inBounds_isSquare, Hin|constructor].
  - injection H as <-. exact Hacc.
Qed.

Lemma bishopLoop_squares (file rank : ascii) (moves : list (Z * Z)) :
  forall (acc l : list string),
    Forall isSquare acc ->
    bishopLoop file rank moves acc = Done l ->
    Forall isSquare l.
Proof.
  induction moves as [|move rest IH]; intros acc l Hacc H; cbn [bishopLoop] in H.
  - injection H as <-. exact Hacc.
  - apply run_bind_inv in H. destruct H as (acc' & Hslide & H).
    eapply IH; [|exact H]. eapply bishopSlide_squares; eassumption.
Qed.

(** X4. Whatever string is given as position: with fewer than two
    characters the reachable list cannot be computed (a [TypeError] on the
    missing file or rank); with two or more, only the first two characters
    are read, the list is returned, and everything in it is a square of the
    board, also when the position itself is not. *)
Theorem getReachablePositions_any_position (piece : Piece) (position : string) :
  ((String.length position < 2)%nat ->
     getReachablePositions piece position = Fault TypeError) /\
  (forall (file rank : ascii) (rest : string),
     position = String file (String rank rest) ->
     exists l,
       getReachablePositions piece position = Done l /\
       Forall isSquare l /\
       getReachablePositions piece (String file (String rank "")) = Done l).
Proof.
  split.
  - intros Hlen. destruct position as [|a [|b rest]]; simpl in Hlen; try lia;
      destruct piece; reflexivity.
  - intros file rank rest ->. destruct piece.
    + eexists. split; [reflexivity|]. split; [|reflexivity].
      apply knightStep_squares. constructor.
    + destruct (bishopLoop_done file rank bishopMoves (fun m Hm => Hm) [])
        as [l Hl].
      exists l. unfold getReachablePositions. cbn [splitFileRank run_bind].
      split; [exact Hl|]. split; [|exact Hl].
      eapply bishopLoop_squares; [|exact Hl]. constructor.
Qed.

Lemma getReachablePositions_any_position_witness :
  (String.length "d" < 2)%nat /\
  getReachablePositions knight "d" = Fault TypeError /\
  exists l,
    getReachablePositions knight "i5x" = Done l /\
    Forall isSquare l /\
    getReachablePositions knight "i5" = Done l.
Proof.
  assert (String.length "d" < 2)%nat as H by (simpl; lia).
  split; [exact H|].
  split; [exact (proj1 (getReachablePositions_any_position knight "d") H)|].
  exact (proj2 (getReachablePositions_any_position knight "i5x")
           "i"%char "5"%char "x" eq_refl).
Defined.

(** ** Reachability *)

Lemma symmetryCheck_all :
  forallb (fun a =>
    forallb (fun b => symmetryCheck knight a b && symmetryCheck bishop a b)
      squares) squares = true.
Proof. vm_compute. reflexivity. Qed.

(** X5. Between squares of the board reachability is symmetric, for the
    knight and for the bishop: [isReachable] answers the same from [a] to
    [b] as from [b] to [a]; and no square is reachable from itself. *)
Theorem isReachable_symmetric (piece : Piece) (a b : string) :
  isSquare a -> isSquare b ->
  exists answer,
    isReachable piece a b = Done answer /\
    isReachable piece b a = Done answer /\
    isReachable piece a a = Done false.
Proof.
  intros Ha Hb. pose proof symmetryCheck_all as Hall.
  rewrite forallb_forall in Hall.
  specialize (Hall a (proj1 (list_elem_of_In _ _) Ha)).
  rewrite forallb_forall in Hall.
  specialize (Hall b (proj1 (list_elem_of_In _ _) Hb)).
  apply andb_true_iff in Hall as [Hk Hbi].
  assert (symmetryCheck piece a b = true) as Hcheck by (destruct piece; assumption).
  unfold symmetryCheck in Hcheck.
  destruct (isReachable piece a b) as [x|]; [|discriminate].
  destruct (isReachable piece b a) as [y|]; [|discriminate].
  destruct (isReachable piece a a) as [z|]; [|discriminate].
  apply andb_true_iff in Hcheck as [Hxy Hz].
  apply Bool.eqb_prop in Hxy. apply negb_true_iff in Hz. subst.
  exists y. repeat split; reflexivity.
Qed.

Lemma isReachable_symmetric_witness :
  isSquare "d4" /\ isSquare "f5" /\
  exists answer,
    isReachable knight "d4" "f5" = Done answer /\
    isReachable knight "f5" "d4" = Done answer /\
    isReachable knight "d4" "d4" = Done false.
Proof.
  assert (isSquare "d4") as Ha by (apply includes_elem_of; reflexivity).
  assert (isSquare "f5") as Hb by (apply includes_elem_of; reflexivity).
  split; [exact Ha|]. split; [exact Hb|].
  exact (isReachable_symmetric knight "d4" "f5" Ha Hb).
Defined.

(** ** Random picks *)

(** X6. [getRandomArrayElement] makes one call to [Math.random]; from an
    array that is not empty it returns an element of the array, from the
    empty array it returns [undefined]. *)
Theorem getRandomArrayElement_in_array (rs : RandomSource) {T : Type}
    (array : list T) (s : nat) :
  unitRange rs ->
  (array = [] -> getRandomArrayElement rs array s = Fault Undefined) /\
  (array <> [] ->
     exists x, getRandomArrayElement rs array s = Done (x, S s) /\ x ∈ array).
Proof.
  intros Hrange. split.
  - intros ->. unfold getRandomArrayElement, bind, Math_random, lift, at_.
    destruct (Z.ltb _ 0); reflexivity.
  - intros Hne.
    destruct (getRandomArrayElement_done rs Hrange array s Hne) as (x & Hx & Hlook).
    exists x. split; [exact Hx|]. apply list_elem_of_lookup. eexists; exact Hlook.
Qed.

Lemma getRandomArrayElement_in_array_witness :
  unitRange cyclicSource /\
  getRandomArrayElement cyclicSource (@nil string) 0%nat = Fault Undefined /\
  ["b3"; "c2"] <> [] /\
  exists x,
    getRandomArrayElement cyclicSource ["b3"; "c2"] 0%nat = Done (x, 1%nat) /\
    x ∈ ["b3"; "c2"].
Proof.
  assert (["b3"; "c2"] <> @nil string) as Hne by discriminate.
  split; [exact cyclicSource_range|].
  split; [exact (proj1 (getRandomArrayElement_in_array cyclicSource
                          (@nil string) 0%nat cyclicSource_range) eq_refl)|].
  split; [exact Hne|].
  exact (proj2 (getRandomArrayElement_in_array cyclicSource
                  ["b3"; "c2"] 0%nat cyclicSource_range) Hne).
Defined.

Lemma squareIndexCheck_all : forallb squareIndexCheck (seq 0 64) = true.
Proof. vm_compute. reflexivity. Qed.

(** X7. [getRandomSquare] makes one call to [Math.random] and returns a
    square of the board: for the draw [x] it is the square number
    [floor (64 x)] in the order a1, a2, ..., a8, b1, ..., h8. *)
Theorem getRandomSquare_on_board (rs : RandomSource) (s : nat) :
  unitRange rs ->
  exists f r,
    onBoard f r /\
    getRandomSquare rs s = Done (square f r, S s) /\
    8 * (f - 1) + (r - 1) = floorTimes (rs s) 64.
Proof.
  intros Hrange.
  pose proof (floorTimes_range (rs s) 64 (Hrange s) ltac:(lia)) as Hk.
  set (k := floorTimes (rs s) 64) in *.
  pose proof squareIndexCheck_all as Hall. rewrite forallb_forall in Hall.
  specialize (Hall (Z.to_nat k) ltac:(apply in_seq; lia)).
  unfold squareIndexCheck in Hall.
  destruct (squares !! Z.to_nat k) as [sq|] eqn:Hsq; [|discriminate].
  apply String.eqb_eq in Hall. rewrite Z2Nat.id in Hall by lia.
  exists (k / 8 + 1), (k mod 8 + 1). split; [|split].
  - unfold onBoard.
    pose proof (Z.mod_pos_bound k 8 ltac:(lia)).
    assert (0 <= k / 8 < 8)
      by (split; [apply Z.div_pos; lia|apply Z.div_lt_upper_bound; lia]).
    lia.
  - unfold getRandomSquare, bind, Math_random, lift.
    change (len squares) with 64. fold k.
    rewrite at_nonneg by lia. rewrite Hsq. simpl. rewrite Hall. reflexivity.
  - pose proof (Z.div_mod k 8 ltac:(lia)). lia.
Qed.

Lemma getRandomSquare_on_board_witness :
  unitRange cyclicSource /\
  exists f r,
    onBoard f r /\
    getRandomSquare cyclicSource 0%nat = Done (square f r, 1%nat) /\
    8 * (f - 1) + (r - 1) = floorTimes (cyclicSource 0%nat) 64.
Proof.
  split; [exact cyclicSource_range|].
  exact (getRandomSquare_on_board cyclicSource 0%nat cyclicSource_range).
Defined.

(** ** The shuffle, as a whole *)

Lemma shuffleFrom_calls {T} (rs : RandomSource) (i : nat) :
  forall (l l' : list T) (s s' : nat),
    shuffleFrom rs i l s = Done (l', s') -> s' = (s + i)%nat.
Proof.
  induction i as [|i IH]; intros l l' s s' H; simpl in H.
  - invert_run. lia.
  - apply bind_inv in H. destruct H as (r & s1 & Hr & H).
    unfold Math_random in Hr. injection Hr as _ <-.
    apply bind_inv in H. destruct H as (swapped & s2 & Hswap & H).
    apply lift_inv in Hswap. destruct Hswap as [_ ->].
    apply IH in H. lia.
Qed.

(** X8. With draws in the unit interval [shuffleArray] always returns: the
    result is a permutation of the array given (the same elements, each as
    often), and an array of [n] elements costs [n - 1] calls to
    [Math.random], none when it is empty. *)
Theorem shuffleArray_permutation (rs : RandomSource) {T : Type}
    (array : list T) (s : nat) :
  unitRange rs ->
  exists shuffled,
    shuffleArray rs array s = Done (shuffled, (s + (length array - 1))%nat) /\
    shuffled ≡ₚ array.
Proof.
  intros Hrange.
  destruct (shuffleArray_done rs array s Hrange) as (l' & s' & Hdone & Hperm).
  exists l'. split; [|exact Hperm].
  pose proof (shuffleFrom_calls rs _ _ _ _ _ Hdone) as ->. exact Hdone.
Qed.

Lemma shuffleArray_permutation_witness :
  unitRange cyclicSource /\
  exists shuffled,
    shuffleArray cyclicSource ["a1"; "b2"; "c3"] 0%nat = Done (shuffled, 2%nat) /\
    shuffled ≡ₚ ["a1"; "b2"; "c3"].
Proof.
  split; [exact cyclicSource_range|].
  exact (shuffleArray_permutation cyclicSource ["a1"; "b2"; "c3"] 0%nat
           cyclicSource_range).
Defined.

(** ** What a generated round contains *)

Lemma redraw_result (fuel : nat) (next : Rand string) (selected : list string) :
  forall (x : string) (s : nat) (x' : string) (s' : nat),
    redraw fuel next selected x s = Done (x', s') ->
    (x' ∉ selected) /\ (x' = x \/ exists s0 s1, next s0 = Done (x', s1)).
Proof.
  induction fuel as [|fuel IH]; intros x s x' s' H; simpl in H;
    destruct (includes selected x) eqn:Hinc; try discriminate.
  - injection H as <- <-. split; [apply includes_false, Hinc|left; reflexivity].
  - apply bind_inv in H. destruct H as (x1 & s1 & Hnext & H).
    destruct (IH _ _ _ _ H) as [Hnot [->|Hfrom]].
    + split; [exact Hnot|]. right. exists s, s1. exact Hnext.
    + split; [exact Hnot|]. right. exact Hfrom.
  - injection H as <- <-. split; [apply includes_false, Hinc|left; reflexivity].
Qed.

(** A square chosen by one iteration of the [for] loop is new, and is
    reachable while targets are being drawn. *)
Lemma choose_result (rs : RandomSource) (fuel : nat)
    (reachablePositions : list string) (targetReachableCount i : Z)
    (selected : list string) (s : nat) (chosen : string) (s' : nat) :
  (if Z.ltb i targetReachableCount then
     bind (getRandomArrayElement rs reachablePositions)
       (fun x => redraw fuel (getRandomArrayElement rs reachablePositions)
                   selected x)
   else
     bind (getRandomSquare rs)
       (fun x => redraw fuel (getRandomSquare rs) selected x)) s
    = Done (chosen, s') ->
  (chosen ∉ selected) /\
  (i < targetReachableCount -> chosen ∈ reachablePositions).
Proof.
  intros H. destruct (Z.ltb_spec i targetReachableCount) as [Hlt|Hge].
  - apply bind_inv in H. destruct H as (x & s1 & Hget & H).
    apply getRandomArrayElement_elem in Hget. destruct Hget as [Hx _].
    destruct (redraw_result _ _ _ _ _ _ _ H) as [Hnot [->|(s0 & s2 & Hfrom)]].
    + split; [exact Hnot|intros _; exact Hx].
    + apply getRandomArrayElement_elem in Hfrom. destruct Hfrom as [Hy _].
      split; [exact Hnot|intros _; exact Hy].
  - apply bind_inv in H. destruct H as (x & s1 & _ & H).
    destruct (redraw_result _ _ _ _ _ _ _ H) as [Hnot _].
    split; [exact Hnot|lia].
Qed.

Lemma selectPositions_partial (rs : RandomSource) (fuel : nat)
    (reachablePositions : list string) (targetReachableCount : Z)
    (iterations : nat) :
  forall (i : Z) (selected : list string) (s : nat) (result : list string)
         (s' : nat),
    selectPositions rs fuel reachablePositions targetReachableCount
      iterations i selected s = Done (result, s') ->
    NoDup selected ->
    exists chosen,
      result = selected ++ chosen /\
      length chosen = iterations /\
      NoDup result /\
      Forall (fun p => p ∈ reachablePositions)
             (take (Z.to_nat (targetReachableCount - i)) chosen).
Proof.
  induction iterations as [|n IH]; intros i selected s result s' H Hnodup;
    simpl in H.
  - invert_run. exists []. rewrite app_nil_r.
    split; [reflexivity|]. split; [reflexivity|]. split; [exact Hnodup|].
    rewrite take_nil. constructor.
  - apply bind_inv in H. destruct H as (c & s1 & Hchoose & H).
    destruct (choose_result _ _ _ _ _ _ _ _ _ Hchoose) as [Hnot Hreach].
    destruct (IH _ _ _ _ _ H) as (chosen & -> & Hlen & Hnd & Htake).
    { apply NoDup_app. split; [exact Hnodup|]. split; [|apply NoDup_singleton].
      intros x Hx Hx'. apply list_elem_of_singleton in Hx'. subst. contradiction. }
    exists (c :: chosen). rewrite <- app_assoc. simpl.
    split; [reflexivity|]. split; [simpl; lia|]. split.
    { rewrite <- app_assoc in Hnd. exact Hnd. }
    destruct (Z.ltb_spec i targetReachableCount) as [Hlt|Hge].
    + replace (Z.to_nat (targetReachableCount - i))
        with (S (Z.to_nat (targetReachableCount - (i + 1)))) by lia.
      simpl. constructor; [apply Hreach, Hlt|exact Htake].
    + replace (Z.to_nat (targetReachableCount - i)) with 0%nat by lia.
      constructor.
Qed.

Lemma swap_Permutation {T} (l l' : list T) (i j : nat) :
  swap l i j = Done l' -> l' ≡ₚ l.
Proof.
  intros H.
  assert (i < length l /\ j < length l)%nat as [Hi Hj].
  { unfold swap in H.
    destruct (l !! j) as [aj|] eqn:Haj; [|discriminate].
    destruct (l !! i) as [ai|] eqn:Hai; [|discriminate].
    split; eapply lookup_lt_Some; eassumption. }
  destruct (swap_done l i j Hi Hj) as (l'' & Hdone & Hperm).
  congruence.
Qed.

Lemma shuffleFrom_Permutation {T} (rs : RandomSource) (i : nat) :
  forall (l l' : list T) (s s' : nat),
    shuffleFrom rs i l s = Done (l', s') -> l' ≡ₚ l.
Proof.
  induction i as [|i IH]; intros l l' s s' H; simpl in H.
  - invert_run. reflexivity.
  - apply bind_inv in H. destruct H as (r & s1 & _ & H).
    apply bind_inv in H. destruct H as (swapped & s2 & Hswap & H).
    apply lift_inv in Hswap. destruct Hswap as [Hswap _].
    apply swap_Permutation in Hswap. apply IH in H.
    etransitivity; eassumption.
Qed.

Lemma targetCountFor_range (rs : RandomSource) (s roundLength : nat) :
  0 <= targetCountFor rs s roundLength <= Z.of_nat roundLength.
Proof.
  unfold targetCountFor, chosenFraction.
  assert (forall p : Q, (0 <= p)%Q -> (p <= 1)%Q ->
            0 <= Qfloor (inject_Z (Z.of_nat roundLength) * p)
              <= Z.of_nat roundLength) as Hfloor.
  { intros p Hp0 Hp1.
    assert (0 <= inject_Z (Z.of_nat roundLength))%Q as Hn
      by (change 0%Q with (inject_Z 0); rewrite <- Zle_Qle; lia).
    split.
    - rewrite <- (Qfloor_Z 0). apply Qfloor_resp_le.
      apply Qmult_le_0_compat; assumption.
    - rewrite <- (Qfloor_Z (Z.of_nat roundLength)) at 2. apply Qfloor_resp_le.
      rewrite <- (Qmult_1_r (inject_Z (Z.of_nat roundLength))) at 2.
      rewrite !(Qmult_comm (inject_Z (Z.of_nat roundLength))).
      apply Qmult_le_compat_r; assumption. }
  destruct (Qle_bool (rs s) (5 # 10)); apply Hfloor; discriminate.
Qed.

Lemma choose_source (rs : RandomSource) (fuel : nat)
    (reachablePositions : list string) (targetReachableCount i : Z)
    (selected : list string) (s : nat) (chosen : string) (s' : nat) :
  (if Z.ltb i targetReachableCount then
     bind (getRandomArrayElement rs reachablePositions)
       (fun x => redraw fuel (getRandomArrayElement rs reachablePositions)
                   selected x)
   else
     bind (getRandomSquare rs)
       (fun x => redraw fuel (getRandomSquare rs) selected x)) s
    = Done (chosen, s') ->
  chosen ∈ reachablePositions \/ chosen ∈ squares.
Proof.
  intros H. destruct (Z.ltb i targetReachableCount).
  - left. apply bind_inv in H. destruct H as (x & s1 & Hget & H).
    apply getRandomArrayElement_elem in Hget. destruct Hget as [Hx _].
    destruct (redraw_result _ _ _ _ _ _ _ H) as [_ [->|(s0 & s2 & Hfrom)]];
      [exact Hx|].
    apply getRandomArrayElement_elem in Hfrom. apply Hfrom.
  - right. change (getRandomSquare rs) with (getRandomArrayElement rs squares) in H.
    apply bind_inv in H. destruct H as (x & s1 & Hget & H).
    apply getRandomArrayElement_elem in Hget. destruct Hget as [Hx _].
    destruct (redraw_result _ _ _ _ _ _ _ H) as [_ [->|(s0 & s2 & Hfrom)]];
      [exact Hx|].
    apply getRandomArrayElement_elem in Hfrom. apply Hfrom.
Qed.

Lemma selectPositions_squares (rs : RandomSource) (fuel : nat)
    (reachablePositions : list string) (targetReachableCount : Z)
    (iterations : nat) :
  Forall isSquare reachablePositions ->
  forall (i : Z) (selected : list string) (s : nat) (result : list string)
         (s' : nat),
    Forall isSquare selected ->
    selectPositions rs fuel reachablePositions targetReachableCount
      iterations i selected s = Done (result, s') ->
    Forall isSquare result.
Proof.
  intros Hreach. induction iterations as [|n IH];
    intros i selected s result s' Hsel H; simpl in H.
  - invert_run. exact Hsel.
  - apply bind_inv in H. destruct H as (c & s1 & Hchoose & H).
    eapply IH; [|exact H]. apply Forall_app. split; [exact Hsel|].
    constructor; [|constructor].
    destruct (choose_source _ _ _ _ _ _ _ _ _ Hchoose) as [Hc|Hc]; [|exact Hc].
    rewrite Forall_forall in Hreach. apply Hreach, Hc.
Qed.

(** A round that the generator returns for a piece on a square: as many
    positions as asked for, all different, all squares. *)
Lemma generatePositionsForRound_shape (rs : RandomSource) (fuel : nat)
    (piece : Piece) (position : string) (roundLength s s' : nat)
    (positions : list string) (positiveSampleCount : Z) :
  isSquare position ->
  generatePositionsForRound rs fuel piece position roundLength s =
    Done ((positions, positiveSampleCount), s') ->
  length positions = roundLength /\ NoDup positions /\ Forall isSquare positions.
Proof.
  intros Hsq H.
  pose proof (generatePositionsForRound_length _ _ _ _ _ _ _ _ _ H) as Hlen.
  destruct (reachable_from_square piece position Hsq) as (l & Hl & _ & Hall).
  unfold generatePositionsForRound in H.
  apply bind_inv in H. destruct H as (reachablePositions & s1 & Hreach & H).
  apply lift_inv in Hreach. destruct Hreach as [Hreach ->].
  assert (reachablePositions = l) as -> by congruence.
  apply bind_inv in H. destruct H as (r & s2 & _ & H).
  apply bind_inv in H. destruct H as (selected & s3 & Hselect & H).
  apply bind_inv in H. destruct H as (shuffled & s4 & Hshuffle & H).
  apply ret_inv in H. destruct H as [Hpair _].
  assert (positions = shuffled) as -> by (injection Hpair as -> _; reflexivity).
  apply shuffleFrom_Permutation in Hshuffle.
  destruct (selectPositions_partial _ _ _ _ _ _ _ _ _ _ Hselect (NoDup_nil_2))
    as (chosen & _ & _ & Hnodup & _).
  pose proof (selectPositions_squares _ _ _ _ _ Hall _ _ _ _ _
                (Forall_nil_2 _) Hselect) as Hsquares.
  split; [exact Hlen|]. split; rewrite Hshuffle; assumption.
Qed.

(** X9. Whenever the round generator returns, for a piece on a square of
    the board, any random source and any bound on redraws: the positions are
    as many as the round length, free of duplicates and squares of the
    board, the sample count returned is the floor of the round length times
    the fraction drawn (0.4 or 0.6), and at least that many of the positions
    are in the reachable list of the piece, which is not empty (the
    distractors are drawn from the whole board and may add more). *)
Theorem generatePositionsForRound_targets (rs : RandomSource) (fuel : nat)
    (piece : Piece) (position : string) (roundLength s s' : nat)
    (positions : list string) (positiveSampleCount : Z) :
  isSquare position ->
  generatePositionsForRound rs fuel piece position roundLength s =
    Done ((positions, positiveSampleCount), s') ->
  exists reachablePositions,
    getReachablePositions piece position = Done reachablePositions /\
    reachablePositions <> [] /\
    positiveSampleCount = targetCountFor rs s roundLength /\
    0 <= positiveSampleCount <= Z.of_nat roundLength /\
    length positions = roundLength /\
    NoDup positions /\
    Forall isSquare positions /\
    positiveSampleCount <=
      len (filter (fun p => p ∈ reachablePositions) positions).
Proof.
  intros Hsq H.
  pose proof (generatePositionsForRound_shape _ _ _ _ _ _ _ _ _ Hsq H)
    as (_ & _ & Hsquares).
  destruct (reachable_from_square piece position Hsq) as (l0 & Hl0 & Hlen0 & _).
  pose proof (generatePositionsForRound_length _ _ _ _ _ _ _ _ _ H) as Hlen.
  unfold generatePositionsForRound in H.
  apply bind_inv in H. destruct H as (reachablePositions & s1 & Hreach & H).
  apply lift_inv in Hreach. destruct Hreach as [Hreach ->].
  apply bind_inv in H. destruct H as (r & s2 & Hr & H).
  unfold Math_random in Hr. injection Hr as <- <-.
  apply bind_inv in H. destruct H as (selected & s3 & Hselect & H).
  apply bind_inv in H. destruct H as (shuffled & s4 & Hshuffle & H).
  apply ret_inv in H. destruct H as [Hpair _].
  assert (positions = shuffled /\
          positiveSampleCount = targetCountFor rs s roundLength) as [-> Hcnt]
    by (injection Hpair as -> ->; split; reflexivity).
  assert (selectPositions rs fuel reachablePositions
            (targetCountFor rs s roundLength) roundLength 0 [] (S s)
          = Done (selected, s3)) as Hselect' by exact Hselect.
  clear Hselect Hpair.
  pose proof (targetCountFor_range rs s roundLength) as Hcount.
  rewrite <- Hcnt in Hselect', Hcount.
  destruct (selectPositions_partial _ _ _ _ _ _ _ _ _ _ Hselect' (NoDup_nil_2))
    as (chosen & Hresult & Hchosen & Hnodup & Htake).
  simpl in Hresult. subst selected.
  apply shuffleFrom_Permutation in Hshuffle.
  exists reachablePositions. split; [exact Hreach|].
  split; [intros ->; rewrite Hreach in Hl0; injection Hl0 as <-;
          simpl in Hlen0; lia|].
  split; [exact Hcnt|].
  split; [exact Hcount|]. split; [exact Hlen|].
  split; [rewrite Hshuffle; exact Hnodup|]. split; [exact Hsquares|].
  unfold len. rewrite Hshuffle. rewrite Z.sub_0_r in Htake.
  rewrite <- (take_drop (Z.to_nat positiveSampleCount) chosen).
  rewrite filter_app, length_app.
  assert (filter (fun p => p ∈ reachablePositions)
            (take (Z.to_nat positiveSampleCount) chosen)
          = take (Z.to_nat positiveSampleCount) chosen) as ->.
  { clear -Htake. induction Htake as [|x l Hx Hl IH]; [reflexivity|].
    rewrite filter_cons_True by exact Hx. rewrite IH. reflexivity. }
  rewrite length_take. lia.
Qed.

Lemma generatePositionsForRound_targets_witness :
  isSquare "d4" /\
  generatePositionsForRound cyclicSource 100 knight "d4" 5 1%nat =
    Done ((["h2"; "c5"; "b5"; "e2"; "f8"], 2), 11%nat) /\
  exists reachablePositions,
    getReachablePositions knight "d4" = Done reachablePositions /\
    reachablePositions <> [] /\
    2 = targetCountFor cyclicSource 1%nat 5%nat /\
    0 <= 2 <= Z.of_nat 5 /\
    length ["h2"; "c5"; "b5"; "e2"; "f8"] = 5%nat /\
    NoDup ["h2"; "c5"; "b5"; "e2"; "f8"] /\
    Forall isSquare ["h2"; "c5"; "b5"; "e2"; "f8"] /\
    2 <= len (filter (fun p => p ∈ reachablePositions)
                ["h2"; "c5"; "b5"; "e2"; "f8"]).
Proof.
  assert (isSquare "d4") as Hsq by (apply includes_elem_of; reflexivity).
  assert (generatePositionsForRound cyclicSource 100 knight "d4" 5 1%nat =
            Done ((["h2"; "c5"; "b5"; "e2"; "f8"], 2), 11%nat)) as H
    by (vm_compute; reflexivity).
  split; [exact Hsq|]. split; [exact H|].
  exact (generatePositionsForRound_targets cyclicSource 100%nat knight "d4"
           5%nat 1%nat 11%nat _ 2 Hsq H).
Defined.

(** ** When the generator cannot return *)

Lemma NoDup_within_distinct (l array : list string) :
  NoDup l -> (forall x, x ∈ l -> x ∈ array) ->
  (length l <= length (remove_dups array))%nat.
Proof.
  intros Hnodup Hsub. apply submseteq_length, NoDup_submseteq; [exact Hnodup|].
  intros x Hx. apply elem_of_remove_dups, Hsub, Hx.
Qed.

(** While more targets are wanted than there are distinct reachable
    squares, the target phase of the loop cannot complete. *)
Lemma selectPositions_stuck (rs : RandomSource) (fuel : nat)
    (reachablePositions : list string) (targetReachableCount : Z) :
  unitRange rs ->
  reachablePositions <> [] ->
  len (remove_dups reachablePositions) < targetReachableCount ->
  forall (iterations : nat) (i : Z) (selected : list string) (s : nat),
    len selected = i ->
    NoDup selected ->
    (forall x, x ∈ selected -> x ∈ reachablePositions) ->
    i < targetReachableCount ->
    targetReachableCount - i <= Z.of_nat iterations ->
    selectPositions rs fuel reachablePositions targetReachableCount
      iterations i selected s = Fault OutOfFuel.
Proof.
  intros Hrange Hne Hfew.
  induction iterations as [|n IH]; intros i selected s Hlen Hnodup Hsub Hlt Hiter;
    [lia|].
  destruct (selectPositions rs fuel reachablePositions targetReachableCount
              (S n) i selected s) as [[result s']|f] eqn:Hrun.
  - exfalso. simpl in Hrun.
    apply bind_inv in Hrun. destruct Hrun as (c & s1 & Hchoose & Hrest).
    destruct (choose_result _ _ _ _ _ _ _ _ _ Hchoose) as [Hnot Hreach].
    specialize (Hreach Hlt).
    assert (NoDup (selected ++ [c])) as Hnodup'.
    { apply NoDup_app. split; [exact Hnodup|]. split; [|apply NoDup_singleton].
      intros x Hx Hx'. apply list_elem_of_singleton in Hx'. subst. contradiction. }
    assert (forall x, x ∈ selected ++ [c] -> x ∈ reachablePositions) as Hsub'.
    { intros x Hx. apply elem_of_app in Hx. destruct Hx as [Hx|Hx];
        [apply Hsub, Hx|]. apply list_elem_of_singleton in Hx. subst. exact Hreach. }
    pose proof (NoDup_within_distinct _ _ Hnodup' Hsub') as Hbound.
    rewrite length_app in Hbound. simpl in Hbound.
    destruct (Z_lt_le_dec (i + 1) targetReachableCount) as [Hmore|Hdone].
    + rewrite (IH (i + 1) (selected ++ [c]) s1) in Hrest; try assumption;
        try lia; [discriminate|].
      unfold len in *. rewrite length_app. simpl. lia.
    + unfold len in *. lia.
  - f_equal. eapply selectPositions_fault; eassumption.
Qed.

Lemma generator_stuck (rs : RandomSource) (piece : Piece) (position : string)
    (roundLength s : nat) (l : list string) :
  unitRange rs ->
  getReachablePositions piece position = Done l ->
  l <> [] ->
  len (remove_dups l) < targetCountFor rs s roundLength ->
  forall fuel,
    generatePositionsForRound rs fuel piece position roundLength s =
    Fault OutOfFuel.
Proof.
  intros Hrange Hl Hne Hfew fuel.
  pose proof (targetCountFor_range rs s roundLength) as Hcount.
  assert (selectPositions rs fuel l (targetCountFor rs s roundLength)
            roundLength 0 [] (S s) = Fault OutOfFuel) as Hstuck.
  { apply selectPositions_stuck; try assumption; try reflexivity.
    - constructor.
    - intros x Hx. inversion Hx.
    - unfold len in Hfew. lia.
    - lia. }
  unfold generatePositionsForRound, bind, lift, Math_random. rewrite Hl.
  unfold targetCountFor, chosenFraction in Hstuck. rewrite Hstuck. reflexivity.
Qed.

(** X10. When the target count for the fraction drawn exceeds the number
    of distinct squares the piece can reach from a square of the board, the
    generator never returns: whatever bound is put on the redraws, the
    retry loop of the target phase exhausts it. *)
Theorem generatePositionsForRound_never_returns (rs : RandomSource)
    (piece : Piece) (position : string) (roundLength s : nat) :
  unitRange rs ->
  isSquare position ->
  reachableCount piece position < targetCountFor rs s roundLength ->
  forall fuel,
    generatePositionsForRound rs fuel piece position roundLength s =
    Fault OutOfFuel.
Proof.
  intros Hrange Hsq Hfew fuel.
  destruct (reachable_from_square piece position Hsq) as (l & Hl & Hlen & _).
  unfold reachableCount in Hfew. rewrite Hl in Hfew.
  apply (generator_stuck rs piece position roundLength s l); try assumption.
  intros ->. simpl in Hlen. lia.
Qed.

Lemma generatePositionsForRound_never_returns_witness :
  unitRange cyclicSource /\ isSquare "a1" /\
  reachableCount knight "a1" < targetCountFor cyclicSource 2%nat 5%nat /\
  forall fuel,
    generatePositionsForRound cyclicSource fuel knight "a1" 5 2%nat =
    Fault OutOfFuel.
Proof.
  assert (isSquare "a1") as Hsq by (apply includes_elem_of; reflexivity).
  assert (reachableCount knight "a1" < targetCountFor cyclicSource 2%nat 5%nat)
    as Hfew by (vm_compute; reflexivity).
  split; [exact cyclicSource_range|]. split; [exact Hsq|]. split; [exact Hfew|].
  exact (generatePositionsForRound_never_returns cyclicSource knight "a1"
           5%nat 2%nat cyclicSource_range Hsq Hfew).
Defined.

Lemma cornerSource_range : unitRange cornerSource.
Proof.
  intros i. unfold cornerSource. destruct (Nat.eqb i 0);
    split; unfold Qle, Qlt; simpl; lia.
Qed.

(** X11. [initialiseNextRound] places the knight on a random square and
    asks for a round of five trials; when the square drawn has fewer
    reachable squares than the target count for the fraction drawn next (a
    corner with the fraction 0.6), entering [startingRound] never completes:
    the [start] event in [idle] leaves the machine stuck in the entry
    action. *)
Theorem start_can_freeze (rs : RandomSource) (context_ : GameContext)
    (calls_ : nat) (position : string) :
  unitRange rs ->
  getRandomSquare rs calls_ = Done (position, S calls_) ->
  reachableCount knight position
    < targetCountFor rs (S calls_) TRIALS_PER_ROUND ->
  forall fuel,
    transition rs fuel (mkConfig Node.idle context_ calls_) Event.start =
    Fault OutOfFuel.
Proof.
  intros Hrange Hget Hfew fuel.
  assert (isSquare position) as Hsq.
  { change (getRandomSquare rs) with (getRandomArrayElement rs squares) in Hget.
    apply getRandomArrayElement_elem in Hget. apply Hget. }
  destruct (reachable_from_square knight position Hsq) as (l & Hl & Hlen & _).
  unfold reachableCount in Hfew. rewrite Hl in Hfew.
  assert (l <> []) as Hne by (intros ->; simpl in Hlen; lia).
  pose proof (generator_stuck rs knight position TRIALS_PER_ROUND (S calls_) l
                Hrange Hl Hne Hfew fuel) as Hgen.
  assert (Actions.initialiseNextRound rs fuel context_ calls_ = Fault OutOfFuel)
    as Hinit.
  { unfold Actions.initialiseNextRound. unfold bind at 1. rewrite Hget.
    unfold bind at 1. rewrite Hgen. reflexivity. }
  assert (transition rs fuel (mkConfig Node.idle context_ calls_) Event.start =
          do result <- execActions rs fuel
                         [Action.initialiseNextRound; Action.announcePiecePosition]
                         Event.start context_ calls_;
          Done (mkConfig Node.startingRound (fst result) (snd result))) as ->
    by reflexivity.
  simpl. unfold bind at 1. rewrite Hinit. reflexivity.
Qed.

Lemma start_can_freeze_witness :
  unitRange cornerSource /\
  getRandomSquare cornerSource 0%nat = Done ("a1", 1%nat) /\
  reachableCount knight "a1" < targetCountFor cornerSource 1%nat TRIALS_PER_ROUND /\
  forall fuel,
    transition cornerSource fuel initialConfig Event.start = Fault OutOfFuel.
Proof.
  assert (getRandomSquare cornerSource 0%nat = Done ("a1", 1%nat)) as Hget
    by (vm_compute; reflexivity).
  assert (reachableCount knight "a1"
            < targetCountFor cornerSource 1%nat TRIALS_PER_ROUND) as Hfew
    by (vm_compute; reflexivity).
  split; [exact cornerSource_range|]. split; [exact Hget|]. split; [exact Hfew|].
  exact (start_can_freeze cornerSource initialContext 0%nat "a1"
           cornerSource_range Hget Hfew).
Defined.

(** ** The voice flag *)

Lemma execAction_keeps_voice (rs : RandomSource) (fuel : nat) (a : Action.t)
    (event : Event.t) (context_ context' : GameContext) (s s' : nat) :
  a <> Action.inline_voiceToggle ->
  execAction rs fuel a event context_ s = Done (context', s') ->
  voiceEnabled context' = voiceEnabled context_.
Proof.
  intros Ha H. destruct a; simpl in H; try congruence.
  all: try (invert_run; reflexivity).
  - unfold Actions.initialiseNextRound in H. invert_run. reflexivity.
  - destruct event; invert_run; try discriminate.
    unfold Actions.saveUserResponse in H. invert_run. reflexivity.
  - unfold Actions.evaluateGuess in H. invert_run. reflexivity.
Qed.

Lemma execActions_keep_voice (rs : RandomSource) (fuel : nat)
    (l : list Action.t) (event : Event.t) :
  ~ In Action.inline_voiceToggle l ->
  forall (context_ context' : GameContext) (s s' : nat),
    execActions rs fuel l event context_ s = Done (context', s') ->
    voiceEnabled context' = voiceEnabled context_.
Proof.
  induction l as [|a rest IH]; intros Hnot context_ context' s s' H; simpl in H.
  - invert_run. reflexivity.
  - apply bind_inv in H. destruct H as (ctx1 & s1 & Ha & Hrest).
    rewrite (IH (fun Hin => Hnot (or_intror Hin)) _ _ _ _ Hrest).
    eapply execAction_keeps_voice; [|exact Ha].
    intros ->. apply Hnot. left; reflexivity.
Qed.

Lemma voiceToggle_only_in_idle (st n : Node.t) (event : Event.t)
    (tr : Transition) (entered : list Node.t) :
  In n (st :: ancestors st) -> In tr (on n event) ->
  In Action.inline_voiceToggle (actions tr ++ flat_map entry entered) ->
  st = Node.idle /\ event = Event.voice_toggle.
Proof.
  intros Hn Htr Hin. apply in_app_or in Hin. destruct Hin as [Hin|Hin].
  - destruct st; simpl in Hn; repeat (destruct Hn as [<-|Hn]); try contradiction;
      destruct event; simpl in Htr;
      repeat (destruct Htr as [<-|Htr]); try contradiction;
      simpl in Hin; intuition discriminate.
  - exfalso. apply in_flat_map in Hin. destruct Hin as (m & _ & Hin).
    destruct m; simpl in Hin; intuition discriminate.
Qed.

(** X12. [voice.toggle] in [idle] flips the voice flag and leaves the state
    and every other field; two toggles in a row restore the configuration.
    No other step changes the flag: in every other state the event is
    ignored, and no other event touches the flag in any state. *)
Theorem voice_flag_changes_only_by_toggle_in_idle :
  (forall (rs : RandomSource) (fuel : nat) (context_ : GameContext) (calls_ : nat),
      transition rs fuel (mkConfig Node.idle context_ calls_) Event.voice_toggle =
      Done (mkConfig Node.idle
              (set_voiceEnabled (negb (voiceEnabled context_)) context_) calls_) /\
      runEvents rs fuel (mkConfig Node.idle context_ calls_)
        [Event.voice_toggle; Event.voice_toggle] =
      Done (mkConfig Node.idle context_ calls_)) /\
  (forall (rs : RandomSource) (fuel : nat) (c c' : Config) (event : Event.t),
      transition rs fuel c event = Done c' ->
      state c <> Node.idle \/ event <> Event.voice_toggle ->
      voiceEnabled (context c') = voiceEnabled (context c)).
Proof.
  split.
  - intros rs fuel context_ calls_. split; [reflexivity|].
    destruct context_ as [cs sc pp gr ve cd cg ic pr cr ac rd].
    destruct ve; reflexivity.
  - intros rs fuel c c' event Hstep Hother.
    destruct (transition_inv _ _ _ _ _ Hstep)
      as [->|(n & tr & Hn & Htr & _ & Hexec & _)]; [reflexivity|].
    simpl in Hexec. eapply execActions_keep_voice; [|exact Hexec].
    intros Hin.
    destruct (voiceToggle_only_in_idle _ _ _ _ _ Hn Htr Hin) as [Hst Hev].
    destruct Hother as [Hother|Hother]; contradiction.
Qed.

Lemma voice_flag_changes_only_by_toggle_in_idle_witness :
  exists c',
    transition cyclicSource 100 initialConfig Event.start = Done c' /\
    (state initialConfig <> Node.idle \/ Event.start <> Event.voice_toggle) /\
    voiceEnabled (context c') = voiceEnabled (context initialConfig).
Proof.
  destruct (transition cyclicSource 100 initialConfig Event.start) as [c'|f] eqn:Hstep.
  - assert (state initialConfig <> Node.idle \/ Event.start <> Event.voice_toggle)
      as Hother by (right; discriminate).
    exists c'. split; [reflexivity|]. split; [exact Hother|].
    exact (proj2 voice_flag_changes_only_by_toggle_in_idle cyclicSource 100%nat
             initialConfig c' Event.start Hstep Hother).
  - vm_compute in Hstep. discriminate.
Defined.

(** ** The countdown state *)

Lemma set_countdown_same (context_ : GameContext) :
  set_countdown (countdown context_) context_ = context_.
Proof. destruct context_. reflexivity. Qed.

(** X13. The [countdown] state, as declared: a tick with a countdown other
    than 0 decrements it and stays; so from a countdown of [k] or more, or
    from a negative one, [k] ticks leave the machine in [countdown] with the
    value lowered by [k] and nothing else changed, and a negative countdown
    never completes. A tick at 0, when it completes, enters [startingRound]
    with the countdown back at 3 and the round number raised by one. *)
Theorem countdown_ticks (rs : RandomSource) (fuel : nat) (calls_ : nat) :
  (forall (k : nat) (context_ : GameContext),
      countdown context_ < 0 \/ Z.of_nat k <= countdown context_ ->
      runEvents rs fuel (mkConfig Node.countdown context_ calls_)
        (repeat Event.tick k) =
      Done (mkConfig Node.countdown
              (set_countdown (countdown context_ - Z.of_nat k) context_) calls_)) /\
  (forall (context_ : GameContext) (c' : Config),
      countdown context_ = 0 ->
      transition rs fuel (mkConfig Node.countdown context_ calls_) Event.tick
        = Done c' ->
      state c' = Node.startingRound /\
      countdown (context c') = 3 /\
      currentRound (context c') = currentRound context_ + 1).
Proof.
  split.
  - induction k as [|k IH]; intros context_ Hk.
    + simpl. rewrite Z.sub_0_r, set_countdown_same. reflexivity.
    + assert (Z.eqb (countdown context_) 0 = false) as Hnz
        by (apply Z.eqb_neq; lia).
      assert (transition rs fuel (mkConfig Node.countdown context_ calls_)
                Event.tick =
              Done (mkConfig Node.countdown
                      (set_countdown (countdown context_ - 1) context_) calls_))
        as Hstep.
      { unfold transition. simpl. unfold Guards.countdownComplete.
        rewrite Hnz. reflexivity. }
      cbn [repeat runEvents]. rewrite Hstep. cbn [run_bind].
      rewrite IH by (simpl; lia).
      simpl. do 2 f_equal. unfold set_countdown. simpl. f_equal. lia.
  - intros context_ c' Hzero Hstep.
    unfold transition in Hstep. simpl in Hstep.
    unfold Guards.countdownComplete in Hstep. rewrite Hzero in Hstep.
    simpl in Hstep.
    apply run_bind_inv in Hstep. destruct Hstep as ([ctx' s'] & Hexec & Hdone).
    injection Hdone as <-.
    unfold bind at 1 in Hexec. unfold ret at 1 in Hexec.
    apply bind_inv in Hexec. destruct Hexec as (ctx1 & s1 & Hinit & Hrest).
    invert_run.
    unfold Actions.initialiseNextRound in Hinit. invert_run.
    repeat split; reflexivity.
Qed.

Lemma countdown_ticks_witness :
  (countdown initialContext < 0 \/ Z.of_nat 3 <= countdown initialContext) /\
  runEvents cyclicSource 100 (mkConfig Node.countdown initialContext 0)
    (repeat Event.tick 3) =
  Done (mkConfig Node.countdown
          (set_countdown (countdown initialContext - Z.of_nat 3) initialContext) 0).
Proof.
  assert (countdown initialContext < 0 \/ Z.of_nat 3 <= countdown initialContext)
    as H by (right; simpl; lia).
  split; [exact H|].
  exact (proj1 (countdown_ticks cyclicSource 100%nat 0%nat) 3%nat initialContext H).
Defined.

(** ** Invariants of the context, action by action *)

Section ActionInvariant.

Variable rs : RandomSource.
Variable fuel : nat.

(** [Inv] is kept by every action but the decrement, which keeps it under
    its guard; [Est] is kept by every action and established by
    [initialiseNextRound]. *)
Variable Inv Est : GameContext -> Prop.

Hypothesis Inv_step :
  forall (a : Action.t) (event : Event.t) (context_ context' : GameContext)
         (s s' : nat),
    a <> Action.decrementGuessesRemainingInRound ->
    Inv context_ ->
    execAction rs fuel a event context_ s = Done (context', s') ->
    Inv context' /\
    (Est context_ \/ a = Action.initialiseNextRound -> Est context').

Hypothesis Inv_decrement :
  forall context_ : GameContext,
    1 < guessesRemainingInRound context_ ->
    Inv context_ ->
    Inv (Actions.decrementGuessesRemainingInRound context_) /\
    (Est context_ -> Est (Actions.decrementGuessesRemainingInRound context_)).

Lemma execActions_kept (event : Event.t) (l : list Action.t) :
  ~ In Action.decrementGuessesRemainingInRound l ->
  forall (context_ context' : GameContext) (s s' : nat),
    Inv context_ ->
    execActions rs fuel l event context_ s = Done (context', s') ->
    Inv context' /\
    (Est context_ \/ In Action.initialiseNextRound l -> Est context').
Proof.
  induction l as [|a rest IH]; intros Hnodec context_ context' s s' Hinv H;
    simpl in H.
  - invert_run. split; [exact Hinv|]. intros [Hest|[]]. exact Hest.
  - apply bind_inv in H. destruct H as (ctx1 & s1 & Ha & Hrest).
    assert (a <> Action.decrementGuessesRemainingInRound) as Hne
      by (intros ->; apply Hnodec; left; reflexivity).
    destruct (Inv_step _ _ _ _ _ _ Hne Hinv Ha) as [Hinv1 Hest1].
    destruct (IH (fun Hin => Hnodec (or_intror Hin)) _ _ _ _ Hinv1 Hrest)
      as [Hinv' Hest'].
    split; [exact Hinv'|].
    intros [Hest|[->|Hin]].
    + apply Hest'. left. apply Hest1. left. exact Hest.
    + apply Hest'. left. apply Hest1. right. reflexivity.
    + apply Hest'. right. exact Hin.
Qed.

Lemma transition_kept (c c' : Config) (event : Event.t) :
  Inv (context c) /\ (inRound (state c) = true -> Est (context c)) ->
  transition rs fuel c event = Done c' ->
  Inv (context c') /\ (inRound (state c') = true -> Est (context c')).
Proof.
  intros [Hinv Hest] Hstep.
  destruct (transition_inv _ _ _ _ _ Hstep)
    as [->|(n & tr & Hn & Htr & Hguard & Hexec & Hstate)];
    [split; assumption|].
  simpl in Hexec, Hstate.
  assert (Inv (context c') /\
          (Est (context c) \/
           In Action.initialiseNextRound
             (actions tr ++
              flat_map entry
                match target tr with
                | Some target_ => enteredNodes n target_
                | None => []
                end) -> Est (context c'))) as [Hinv' Hest'].
  { destruct (decrement_guarded tr (allTransitions_complete _ _ _ Htr))
      as [Hnone|(Hg & rest & Hactions & Hrest)].
    - eapply execActions_kept; [|exact Hinv|exact Hexec].
      intros Hin. apply in_app_or in Hin. destruct Hin as [Hin|Hin];
        [exact (Hnone Hin)|exact (entry_without_decrement _ Hin)].
    - specialize (Hguard _ Hg). simpl in Hguard. injection Hguard as Hguard.
      apply Z.ltb_lt in Hguard.
      rewrite Hactions in Hexec |- *. simpl in Hexec.
      apply bind_inv in Hexec. destruct Hexec as (ctx1 & s1 & Hdec & Hexec).
      apply ret_inv in Hdec. destruct Hdec as [-> ->].
      destruct (Inv_decrement _ Hguard Hinv) as [Hinv1 Hest1].
      destruct (execActions_kept event _
                  (fun Hin => match in_app_or _ _ _ Hin with
                              | or_introl H1 => Hrest H1
                              | or_intror H2 => entry_without_decrement _ H2
                              end) _ _ _ _ Hinv1 Hexec) as [Hinv' Hest'].
      split; [exact Hinv'|].
      intros [Hold|[Hin|Hin]]; [apply Hest'; left; exact (Hest1 Hold)
                               |discriminate|apply Hest'; right; exact Hin]. }
  split; [exact Hinv'|]. intros Hin. rewrite Hstate in Hin. apply Hest'.
  destruct (entering_round (state c) n event tr Hn Htr Hin) as [Hold|Hinit];
    [left; apply Hest, Hold|right; exact Hinit].
Qed.

End ActionInvariant.

(** ** The ledger of rounds *)

Lemma mapRun_records (position : string) (positions : list string)
    (l : list Trial) :
  mapRun (fun stimulus =>
            do isTarget' <- isReachable knight position stimulus;
            Done (mkTrial stimulus isTarget' None None)) positions = Done l ->
  stimulus <$> l = positions /\
  Forall (fun trial =>
            isReachable knight position (stimulus trial) = Done (isTarget trial))
         l.
Proof.
  revert l. induction positions as [|p rest IH]; intros l H; simpl in H.
  - injection H as <-. split; [reflexivity|constructor].
  - apply run_bind_inv in H. destruct H as (t & Ht & H).
    apply run_bind_inv in H. destruct H as (ts & Hts & H).
    injection H as <-. destruct (IH ts Hts) as [Hstim Hall].
    apply run_bind_inv in Ht. destruct Ht as (b & Hb & Ht). injection Ht as <-.
    split; [rewrite fmap_cons, Hstim; reflexivity|].
    constructor; [exact Hb|exact Hall].
Qed.

Lemma initialiseNextRound_ledger (rs : RandomSource) (fuel : nat)
    (context_ context' : GameContext) (s s' : nat) :
  ledger context_ ->
  Actions.initialiseNextRound rs fuel context_ s = Done (context', s') ->
  ledger context' /\ bookedRound context'.
Proof.
  intros (Hinv & [Hcr Hkeys] & Hrecords) H.
  pose proof (initialiseNextRound_invariant _ _ _ _ _ _ Hinv H) as Hinv'.
  unfold Actions.initialiseNextRound in H.
  apply bind_inv in H. destruct H as (position & s1 & Hget & H).
  apply bind_inv in H. destruct H as ([positions count] & s2 & Hgen & H).
  apply bind_inv in H. destruct H as (trials' & s3 & Hmap & H).
  apply lift_inv in Hmap. destruct Hmap as [Hmap _]. simpl in Hmap.
  apply ret_inv in H. destruct H as [-> _].
  change (getRandomSquare rs) with (getRandomArrayElement rs squares) in Hget.
  apply getRandomArrayElement_elem in Hget. destruct Hget as [Hsq _].
  destruct (generatePositionsForRound_shape _ _ _ _ _ _ _ _ _ Hsq Hgen)
    as (Hlen & Hnodup & Hsquares).
  pose proof (mapRun_untouched _ _ _ Hmap) as [Hlen' _].
  destruct (mapRun_records _ _ _ Hmap) as [Hstim Hflags].
  assert (take TRIALS_PER_ROUND trials' = trials') as Htake
    by (apply take_ge; lia).
  split; [split; [exact Hinv'|split]|].
  - split; [simpl; lia|]. intros k. simpl.
    destruct (decide (currentRound context_ + 1 = k)) as [<-|Hne].
    + rewrite lookup_insert_eq. split; [intros _; lia|intros _; eexists; reflexivity].
    + rewrite lookup_insert_ne by exact Hne. rewrite Hkeys. lia.
  - simpl. intros k round Hlookup.
    destruct (decide (currentRound context_ + 1 = k)) as [<-|Hne].
    + rewrite lookup_insert_eq in Hlookup. injection Hlookup as <-.
      unfold roundRecord. simpl. rewrite Htake, Hstim.
      split; [exact Hsq|]. split; [exact Hnodup|].
      rewrite Forall_forall in Hflags. rewrite Forall_forall in Hsquares.
      apply Forall_forall.
      intros t Ht.
      assert (stimulus t ∈ positions) as Hin
        by (rewrite <- Hstim; apply list_elem_of_fmap; exists t; split; [reflexivity|exact Ht]).
      split; [apply Hsquares, Hin|]. split; [apply Hflags, Ht|exact Hin].
    + rewrite lookup_insert_ne in Hlookup by exact Hne. eapply Hrecords, Hlookup.
  - eexists. simpl. rewrite lookup_insert_eq. split; [reflexivity|].
    simpl. rewrite Htake. split; [reflexivity|exact Hstim].
Qed.

(** Appending a copy of the current trial, with its stimulus and flag, to
    the current round keeps the ledger. *)
Lemma ledger_append (context_ : GameContext) (round : Round)
    (trial copy : Trial) :
  ledger context_ ->
  roundData context_ !! currentRound context_ = Some round ->
  currentTrialOf context_ round = Some trial ->
  stimulus copy = stimulus trial -> isTarget copy = isTarget trial ->
  let context' :=
    set_roundData
      (<[currentRound context_ :=
           mkRound (round_piecePositionForRound round) (trials round ++ [copy])]>
         (roundData context_)) context_ in
  contextInvariant context' ->
  ledger context' /\ (bookedRound context_ -> bookedRound context').
Proof.
  intros (Hinv & [Hcr Hkeys] & Hrecords) Hround Htrial Hstim Hflag context' Hinv'.
  destruct Hinv as [Hremaining Hshapes].
  pose proof (Hshapes _ _ Hround) as (Hlen & _ & _).
  pose proof (Hrecords _ _ Hround) as (Hsq & Hnodup & Hall).
  assert (take TRIALS_PER_ROUND (trials round ++ [copy])
          = take TRIALS_PER_ROUND (trials round)) as Htake
    by (apply take_app_le; exact Hlen).
  assert (trial ∈ trials round) as Hin.
  { unfold currentTrialOf in Htrial. rewrite at_nonneg in Htrial by lia.
    apply list_elem_of_lookup. eexists; exact Htrial. }
  split; [split; [exact Hinv'|split]|].
  - split; [exact Hcr|]. intros k. subst context'. simpl.
    destruct (decide (currentRound context_ = k)) as [<-|Hne].
    + rewrite lookup_insert_eq. rewrite <- Hkeys, Hround.
      split; intros _; eexists; reflexivity.
    + rewrite lookup_insert_ne by exact Hne. apply Hkeys.
  - subst context'. simpl. intros k round' Hlookup.
    destruct (decide (currentRound context_ = k)) as [<-|Hne].
    + rewrite lookup_insert_eq in Hlookup. injection Hlookup as <-.
      unfold roundRecord. simpl. rewrite Htake.
      split; [exact Hsq|]. split; [exact Hnodup|].
      apply Forall_app. split; [exact Hall|].
      constructor; [|constructor].
      rewrite Forall_forall in Hall. rewrite Hstim, Hflag. apply Hall, Hin.
    + rewrite lookup_insert_ne in Hlookup by exact Hne. eapply Hrecords, Hlookup.
  - intros (round0 & Hround0 & Hpiece & Hpositions).
    assert (round0 = round) as -> by congruence.
    eexists. subst context'. simpl. rewrite lookup_insert_eq.
    split; [reflexivity|]. simpl. rewrite Htake. split; assumption.
Qed.

Lemma saveUserResponse_ledger (context_ context' : GameContext)
    (params : Response) :
  ledger context_ ->
  Actions.saveUserResponse context_ params = Done context' ->
  ledger context' /\ (bookedRound context_ -> bookedRound context').
Proof.
  intros Hledger H.
  pose proof (saveUserResponse_invariant _ _ _ (proj1 Hledger) H) as Hinv'.
  unfold Actions.saveUserResponse, currentRoundDataOf in H.
  destruct (roundData context_ !! currentRound context_) as [round|] eqn:Hround;
    [|discriminate]. simpl in H.
  destruct (currentTrialOf context_ round) as [trial|] eqn:Htrial;
    [|discriminate]. simpl in H. injection H as <-.
  apply (ledger_append context_ round trial); try assumption; reflexivity.
Qed.

Lemma evaluateGuess_ledger (context_ context' : GameContext) :
  ledger context_ ->
  Actions.evaluateGuess context_ = Done context' ->
  ledger context' /\ (bookedRound context_ -> bookedRound context').
Proof.
  intros Hledger H.
  pose proof (evaluateGuess_invariant _ _ (proj1 Hledger) H) as Hinv'.
  unfold Actions.evaluateGuess, currentRoundDataOf in H.
  destruct (roundData context_ !! currentRound context_) as [round|] eqn:Hround;
    [|discriminate]. simpl in H.
  destruct (currentTrialOf context_ round) as [trial|] eqn:Htrial;
    [|discriminate]. simpl in H.
  destruct (isReachable knight _ _) as [isTarget'|]; [|discriminate].
  simpl in H. injection H as <-.
  apply (ledger_append context_ round trial); try assumption; reflexivity.
Qed.

Lemma execAction_ledger (rs : RandomSource) (fuel : nat) (a : Action.t)
    (event : Event.t) (context_ context' : GameContext) (s s' : nat) :
  a <> Action.decrementGuessesRemainingInRound ->
  ledger context_ ->
  execAction rs fuel a event context_ s = Done (context', s') ->
  ledger context' /\
  (bookedRound context_ \/ a = Action.initialiseNextRound -> bookedRound context').
Proof.
  intros Ha Hledger H. destruct a; simpl in H; try congruence.
  all: try (invert_run; split; [exact Hledger|];
            intros [Hbooked|Heq]; [exact Hbooked|discriminate Heq]).
  - destruct (initialiseNextRound_ledger _ _ _ _ _ _ Hledger H) as [Hl Hb].
    split; [exact Hl|intros _; exact Hb].
  - destruct event as [|r| | | |]; invert_run; try discriminate.
    destruct (saveUserResponse_ledger _ _ _ Hledger H) as [Hl Hb].
    split; [exact Hl|]. intros [Hbooked|Heq]; [exact (Hb Hbooked)|discriminate Heq].
  - invert_run. destruct (evaluateGuess_ledger _ _ Hledger H) as [Hl Hb].
    split; [exact Hl|]. intros [Hbooked|Heq]; [exact (Hb Hbooked)|discriminate Heq].
Qed.

Lemma decrement_ledger (context_ : GameContext) :
  1 < guessesRemainingInRound context_ ->
  ledger context_ ->
  ledger (Actions.decrementGuessesRemainingInRound context_) /\
  (bookedRound context_ ->
   bookedRound (Actions.decrementGuessesRemainingInRound context_)).
Proof.
  intros Hguard ([Hremaining Hshapes] & Hnumbered & Hrecords).
  split; [|intros H; exact H].
  split; [split; [simpl; lia|exact Hshapes]|]. split; assumption.
Qed.

Lemma execAction_shown (rs : RandomSource) (fuel : nat) (a : Action.t)
    (event : Event.t) (context_ context' : GameContext) (s s' : nat)
    (before : bool) :
  (before = true -> shown context_) ->
  execAction rs fuel a event context_ s = Done (context', s') ->
  showsAfter [a] before = true -> shown context'.
Proof.
  intros Hbefore H Hafter. destruct a; simpl in H, Hafter; try discriminate.
  all: try (invert_run; first [reflexivity | apply Hbefore; reflexivity]).
  - destruct event; invert_run; try discriminate.
    unfold Actions.saveUserResponse in H. invert_run. apply Hbefore; reflexivity.
  - unfold Actions.evaluateGuess in H. invert_run. apply Hbefore; reflexivity.
Qed.

Lemma execActions_shown (rs : RandomSource) (fuel : nat) (event : Event.t)
    (l : list Action.t) :
  forall (before : bool) (context_ context' : GameContext) (s s' : nat),
    (before = true -> shown context_) ->
    execActions rs fuel l event context_ s = Done (context', s') ->
    showsAfter l before = true -> shown context'.
Proof.
  induction l as [|a rest IH]; intros before context_ context' s s' Hbefore H Hafter;
    simpl in H.
  - invert_run. exact (Hbefore Hafter).
  - apply bind_inv in H. destruct H as (ctx1 & s1 & Ha & Hrest).
    eapply (IH (showsAfter [a] before)); [|exact Hrest|exact Hafter].
    eapply execAction_shown; [exact Hbefore|exact Ha].
Qed.

(** A state of [playingRound] is entered from one, or through
    [setupNextTrial] with neither the decrement nor a new round after it. *)
Lemma entering_playingRound (st n : Node.t) (event : Event.t) (tr : Transition) :
  In n (st :: ancestors st) -> In tr (on n event) ->
  let entered := match target tr with
                 | Some target_ => enteredNodes n target_
                 | None => []
                 end in
  inPlayingRound (List.last entered st) = true ->
  showsAfter (actions tr ++ flat_map entry entered) (inPlayingRound st) = true.
Proof.
  intros Hn Htr.
  destruct st; simpl in Hn; repeat (destruct Hn as [<-|Hn]); try contradiction;
    destruct event; simpl in Htr;
    repeat (destruct Htr as [<-|Htr]); try contradiction;
    vm_compute; intuition.
Qed.

Lemma initialConfig_bookkeeping : bookkeeping initialConfig.
Proof.
  split; [|split; intros H; discriminate H].
  split; [|split].
  - split; [vm_compute; split; intros H; discriminate H|].
    intros k round H. discriminate H.
  - split; [simpl; lia|]. intros k. simpl. rewrite lookup_empty.
    split; [intros [x H]; discriminate H|lia].
  - intros k round H. discriminate H.
Qed.

Lemma transition_bookkeeping (rs : RandomSource) (fuel : nat) (c c' : Config)
    (event : Event.t) :
  bookkeeping c -> transition rs fuel c event = Done c' -> bookkeeping c'.
Proof.
  intros (Hledger & Hbooked & Hshown) Hstep.
  destruct (transition_kept rs fuel ledger bookedRound
              (execAction_ledger rs fuel) decrement_ledger c c' event
              (conj Hledger Hbooked) Hstep) as [Hledger' Hbooked'].
  split; [exact Hledger'|]. split; [exact Hbooked'|].
  destruct (transition_inv _ _ _ _ _ Hstep)
    as [->|(n & tr & Hn & Htr & _ & Hexec & Hstate)]; [exact Hshown|].
  simpl in Hexec, Hstate. intros Hin. rewrite Hstate in Hin.
  eapply execActions_shown; [exact Hshown|exact Hexec|].
  exact (entering_playingRound (state c) n event tr Hn Htr Hin).
Qed.

(** ** A response to the trial on display *)

Lemma reachable_bookkeeping (rs : RandomSource) (c : Config) :
  reachable rs c -> bookkeeping c.
Proof.
  induction 1 as [|c event fuel c' _ IH Hstep];
    [exact initialConfig_bookkeeping|].
  exact (transition_bookkeeping rs fuel c c' event IH Hstep).
Qed.

Lemma isSquare_nonempty (s : string) : isSquare s -> s <> "".
Proof.
  intros H ->. apply isSquare_inv in H. destruct H as (f & r & _ & H).
  discriminate H.
Qed.

(** While a trial is on display, the square shown is the stimulus of the
    current trial, a record created at round start, whose flag answers the
    guard [isHit]. *)
Lemma current_trial_shown (context_ : GameContext) :
  ledger context_ -> bookedRound context_ -> shown context_ ->
  exists round trial,
    roundData context_ !! currentRound context_ = Some round /\
    currentTrialOf context_ round = Some trial /\
    (Z.to_nat (Z.of_nat TRIALS_PER_ROUND - guessesRemainingInRound context_)
       < length (trials round))%nat /\
    untouched trial /\
    currentSquare context_ = Some (stimulus trial) /\
    isReachable knight (round_piecePositionForRound round) (stimulus trial)
      = Done (isTarget trial) /\
    Guards.isHit context_ = Done (isTarget trial).
Proof.
  intros ([Hremaining Hshapes] & _ & Hrecords) (round & Hround & Hpiece & Hpositions)
    Hshown.
  pose proof (Hshapes _ _ Hround) as Hshape.
  destruct (currentTrial_exists context_ round Hremaining Hshape) as [trial Htrial].
  pose proof (currentTrial_untouched _ _ _ Hremaining Hshape Htrial) as Huntouched.
  destruct Hshape as (Hlen & _ & _).
  destruct (Hrecords _ _ Hround) as (_ & _ & Hall).
  assert (trials round
            !! Z.to_nat (Z.of_nat TRIALS_PER_ROUND - guessesRemainingInRound context_)
          = Some trial) as Hlookup
    by (unfold currentTrialOf in Htrial; rewrite at_nonneg in Htrial by lia;
        exact Htrial).
  assert (trial ∈ trials round) as Hin
    by (apply list_elem_of_lookup; eexists; exact Hlookup).
  rewrite Forall_forall in Hall. destruct (Hall _ Hin) as (Hsq & Hflag & _).
  assert (currentSquare context_ = Some (stimulus trial)) as Hsquare.
  { unfold shown in Hshown. rewrite Hshown, <- Hpositions.
    rewrite at_nonneg by lia. rewrite list_lookup_fmap, lookup_take_lt.
    - rewrite Hlookup. reflexivity.
    - unfold TRIALS_PER_ROUND in *. lia. }
  exists round, trial. repeat split; try assumption.
  - unfold TRIALS_PER_ROUND in *. lia.
  - apply Huntouched.
  - apply Huntouched.
  - unfold Guards.isHit. rewrite Hsquare, <- Hpiece.
    pose proof (isSquare_nonempty _ Hsq) as Hne.
    destruct (stimulus trial) as [|a rest]; [congruence|exact Hflag].
Qed.


Lemma respond_actions (rs : RandomSource) (fuel : nat) (context_ : GameContext)
    (round : Round) (trial : Trial) (r : Response) (s : nat) :
  roundData context_ !! currentRound context_ = Some round ->
  currentTrialOf context_ round = Some trial ->
  (Z.to_nat (Z.of_nat TRIALS_PER_ROUND - guessesRemainingInRound context_)
     < length (trials round))%nat ->
  untouched trial ->
  isReachable knight (round_piecePositionForRound round) (stimulus trial)
    = Done (isTarget trial) ->
  execActions rs fuel [Action.saveUserResponse; Action.evaluateGuess]
    (Event.userResponse r) context_ s =
  Done (set_roundData
          (<[currentRound context_ :=
               mkRound (round_piecePositionForRound round)
                 (trials round ++
                  [mkTrial (stimulus trial) (isTarget trial) (Some r) None;
                   mkTrial (stimulus trial) (isTarget trial) None
                     (Some (if isTarget trial then miss else correctRejection))])]>
             (roundData context_))
          context_, s).
Proof.
  intros Hround Htrial Hindex [Hresponse Houtcome] Hflag.
  cbn [execActions execAction]. unfold bind, lift, ret.
  unfold Actions.saveUserResponse, currentRoundDataOf.
  rewrite Hround. cbn [of_option run_bind]. rewrite Htrial. cbn [of_option run_bind].
  unfold Actions.evaluateGuess, currentRoundDataOf.
  cbn [roundData currentRound set_roundData]. rewrite lookup_insert_eq.
  cbn [of_option run_bind]. unfold currentTrialOf in *.
  cbn [trials guessesRemainingInRound set_roundData round_piecePositionForRound].
  unfold at_ in *.
  destruct (Z.ltb _ 0); [discriminate|].
  rewrite lookup_app_l by exact Hindex. rewrite Htrial.
  cbn [of_option run_bind]. rewrite Hflag. cbn [of_option run_bind].
  rewrite insert_insert_eq, <- app_assoc, Hresponse, Houtcome.
  destruct (isTarget trial); reflexivity.
Qed.

Lemma respond_step (rs : RandomSource) (fuel : nat) (c : Config)
    (r : Response) :
  reachable rs c -> state c = Node.waitingForResponse ->
  exists round trial,
    roundData (context c) !! currentRound (context c) = Some round /\
    currentTrialOf (context c) round = Some trial /\
    currentSquare (context c) = Some (stimulus trial) /\
    transition rs fuel c (Event.userResponse r) =
    Done (mkConfig (if isTarget trial then Node.hit else Node.falseAlarm)
            (set_roundData
               (<[currentRound (context c) :=
                    mkRound (round_piecePositionForRound round)
                      (trials round ++
                       [mkTrial (stimulus trial) (isTarget trial) (Some r) None;
                        mkTrial (stimulus trial) (isTarget trial) None
                          (Some (if isTarget trial then miss
                                 else correctRejection))])]>
                  (roundData (context c)))
               (context c))
            (calls c)).
Proof.
  intros Hc Hstate.
  destruct (reachable_bookkeeping rs c Hc) as (Hledger & Hbooked & Hshown).
  rewrite Hstate in Hbooked, Hshown.
  destruct (current_trial_shown _ Hledger (Hbooked eq_refl) (Hshown eq_refl))
    as (round & trial & Hround & Htrial & Hindex & Huntouched & Hsquare
        & Hflag & Hhit).
  pose proof (respond_actions rs fuel (context c) round trial r (calls c)
                Hround Htrial Hindex Huntouched Hflag) as Hexec.
  exists round, trial.
  split; [exact Hround|]. split; [exact Htrial|]. split; [exact Hsquare|].
  destruct c as [st context_ calls_]. simpl in Hstate. subst st.
  cbn [context calls] in *.
  unfold transition.
  cbn [state context calls ancestors ancestorsWithin parent selectTransition on
       firstEnabled guard evalGuard].
  rewrite Hhit. cbn [run_bind].
  destruct (isTarget trial).
  - cbn [run_bind target actions].
    change (flat_map entry (enteredNodes Node.waitingForResponse Node.hit))
      with (@nil Action.t).
    rewrite app_nil_r, Hexec. reflexivity.
  - cbn [run_bind target actions firstEnabled guard].
    change (flat_map entry (enteredNodes Node.waitingForResponse Node.falseAlarm))
      with (@nil Action.t).
    rewrite app_nil_r, Hexec. reflexivity.
Qed.

(** X15. A response while a trial waits for one, in any configuration a
    session can reach. The machine moves to [hit] when the trial on display
    is a target and to [falseAlarm] when it is not. Two records are appended
    to the current round: a copy of the trial with the response and no
    outcome, and a copy without the response whose outcome is that of an
    unanswered trial, miss for a target and correctRejection otherwise.
    Nothing else in the context changes, no random number is drawn, and a
    further response is ignored. *)
Theorem userResponse_feedback (rs : RandomSource) (fuel : nat) (c : Config)
    (r r' : Response) :
  reachable rs c -> state c = Node.waitingForResponse ->
  exists round trial c',
    roundData (context c) !! currentRound (context c) = Some round /\
    currentTrialOf (context c) round = Some trial /\
    currentSquare (context c) = Some (stimulus trial) /\
    transition rs fuel c (Event.userResponse r) = Done c' /\
    state c' = (if isTarget trial then Node.hit else Node.falseAlarm) /\
    calls c' = calls c /\
    context c' =
      set_roundData
        (<[currentRound (context c) :=
             mkRound (round_piecePositionForRound round)
               (trials round ++
                [mkTrial (stimulus trial) (isTarget trial) (Some r) None;
                 mkTrial (stimulus trial) (isTarget trial) None
                   (Some (if isTarget trial then miss else correctRejection))])]>
           (roundData (context c)))
        (context c) /\
    transition rs fuel c' (Event.userResponse r') = Done c'.
Proof.
  intros Hc Hstate.
  destruct (respond_step rs fuel c r Hc Hstate)
    as (round & trial & Hround & Htrial & Hsquare & Hstep).
  exists round, trial. eexists.
  split; [exact Hround|]. split; [exact Htrial|]. split; [exact Hsquare|].
  split; [exact Hstep|]. cbn [state context calls].
  repeat split. destruct (isTarget trial); reflexivity.
Qed.

(** ** The length of a session *)

Lemma runEvents_app (rs : RandomSource) (fuel : nat) (l1 l2 : list Event.t)
    (c c' : Config) :
  runEvents rs fuel c (l1 ++ l2) = Done c' ->
  exists c1, runEvents rs fuel c l1 = Done c1 /\ runEvents rs fuel c1 l2 = Done c'.
Proof.
  revert c. induction l1 as [|e rest IH]; intros c H; simpl in H.
  - exists c. split; [reflexivity|exact H].
  - apply run_bind_inv in H. destruct H as (c0 & H0 & H).
    destruct (IH _ H) as (c1 & H1 & H2). exists c1. split; [|exact H2].
    simpl. rewrite H0. exact H1.
Qed.

Lemma initialiseNextRound_position (rs : RandomSource) (fuel : nat)
    (context_ context' : GameContext) (s s' : nat) :
  Actions.initialiseNextRound rs fuel context_ s = Done (context', s') ->
  guessesRemainingInRound context' = Z.of_nat TRIALS_PER_ROUND /\
  currentRound context' = currentRound context_ + 1.
Proof.
  intros H. unfold Actions.initialiseNextRound in H. invert_run.
  split; reflexivity.
Qed.

Lemma start_step (rs : RandomSource) (fuel : nat) (c c' : Config) :
  state c = Node.idle ->
  transition rs fuel c Event.start = Done c' ->
  standsAt c' Node.startingRound (Z.of_nat TRIALS_PER_ROUND)
    (currentRound (context c) + 1).
Proof.
  intros Hstate H. destruct c as [st context_ calls_]. simpl in Hstate. subst st.
  unfold transition in H. simpl in H.
  apply run_bind_inv in H. destruct H as ([ctx' s'] & Hexec & H).
  injection H as <-. unfold bind in Hexec.
  destruct (Actions.initialiseNextRound rs fuel context_ calls_)
    as [[ctx1 s1]|] eqn:Hinit; [|discriminate].
  unfold ret in Hexec. injection Hexec as <- <-.
  destruct (initialiseNextRound_position _ _ _ _ _ _ Hinit) as [H1 H2].
  repeat split; assumption.
Qed.

Lemma after_step (rs : RandomSource) (fuel : nat) (c c' : Config) :
  state c = Node.startingRound ->
  transition rs fuel c Event.after_3000 = Done c' ->
  standsAt c' Node.waitingForResponse (guessesRemainingInRound (context c))
    (currentRound (context c)).
Proof.
  intros Hstate H. destruct c as [st context_ calls_]. simpl in Hstate. subst st.
  unfold transition in H. simpl in H. unfold bind, ret in H. simpl in H.
  injection H as <-. repeat split.
Qed.

Lemma userResponse_step (rs : RandomSource) (fuel : nat) (c c' : Config)
    (r : Response) :
  inPlayingRound (state c) = true ->
  transition rs fuel c (Event.userResponse r) = Done c' ->
  inPlayingRound (state c') = true /\
  guessesRemainingInRound (context c') = guessesRemainingInRound (context c) /\
  currentRound (context c') = currentRound (context c).
Proof.
  intros Hstate H. destruct c as [st context_ calls_].
  destruct st; try discriminate Hstate; unfold transition in H; simpl in H;
    try (injection H as <-; repeat split; reflexivity).
  destruct (Guards.isHit context_) as [[|]|]; simpl in H; try discriminate;
    (apply run_bind_inv in H; destruct H as ([ctx' s'] & Hexec & H);
     injection H as <-;
     unfold bind, lift, ret in Hexec;
     destruct (Actions.saveUserResponse context_ r) as [ctx1|] eqn:Hsave;
       [|discriminate];
     destruct (Actions.evaluateGuess ctx1) as [ctx2|] eqn:Heval; [|discriminate];
     injection Hexec as <- <-;
     unfold Actions.saveUserResponse in Hsave;
     unfold Actions.evaluateGuess in Heval; invert_run;
     repeat split; reflexivity).
Qed.

Lemma tick_step (rs : RandomSource) (fuel : nat) (c c' : Config) :
  inPlayingRound (state c) = true ->
  transition rs fuel c Event.tick = Done c' ->
  if Z.ltb 1 (guessesRemainingInRound (context c)) then
    standsAt c' Node.waitingForResponse
      (guessesRemainingInRound (context c) - 1) (currentRound (context c))
  else if Z.leb NUMBER_OF_ROUNDS (currentRound (context c)) then
    c' = mkConfig Node.gameOver (Actions.calculateAccuracyScore (context c))
           (calls c)
  else
    standsAt c' Node.startingRound (Z.of_nat TRIALS_PER_ROUND)
      (currentRound (context c) + 1).
Proof.
  intros Hstate H. destruct c as [st context_ calls_].
  cbn [context calls].
  destruct st; try discriminate Hstate; unfold transition in H; simpl in H;
    (destruct (Z.ltb 1 (guessesRemainingInRound context_)); simpl in H;
     [ apply run_bind_inv in H; destruct H as ([ctx' s'] & Hexec & H);
       injection H as <-; unfold bind, lift, ret in Hexec; simpl in Hexec;
       destruct (Actions.evaluateGuess _) as [ctx1|] eqn:Heval; [|discriminate];
       injection Hexec as <- <-;
       unfold Actions.evaluateGuess in Heval; invert_run; repeat split
     | destruct (Z.leb NUMBER_OF_ROUNDS (currentRound context_)); simpl in H;
       [ unfold bind, ret in H; simpl in H; injection H as <-; reflexivity
       | apply run_bind_inv in H; destruct H as ([ctx' s'] & Hexec & H);
         injection H as <-; unfold bind in Hexec;
         destruct (Actions.initialiseNextRound rs fuel context_ calls_)
           as [[ctx1 s1]|] eqn:Hinit; [|discriminate];
         unfold ret in Hexec; injection Hexec as <- <-;
         destruct (initialiseNextRound_position _ _ _ _ _ _ Hinit) as [H1 H2];
         repeat split; assumption ] ]).
Qed.

Lemma responses_run (rs : RandomSource) (fuel : nat) (responses : list Response) :
  forall c c' : Config,
    inPlayingRound (state c) = true ->
    runEvents rs fuel c (map Event.userResponse responses) = Done c' ->
    inPlayingRound (state c') = true /\
    guessesRemainingInRound (context c') = guessesRemainingInRound (context c) /\
    currentRound (context c') = currentRound (context c).
Proof.
  induction responses as [|r rest IH]; intros c c' Hstate H; simpl in H.
  - injection H as <-. repeat split; assumption.
  - apply run_bind_inv in H. destruct H as (c1 & Hstep & H).
    destruct (userResponse_step _ _ _ _ _ Hstate Hstep) as (Hstate1 & Hg & Hk).
    destruct (IH _ _ Hstate1 H) as (Hstate' & Hg' & Hk').
    split; [exact Hstate'|]. split; congruence.
Qed.

Lemma trial_run (rs : RandomSource) (fuel : nat) (responses : list Response)
    (c c' : Config) :
  inPlayingRound (state c) = true ->
  runEvents rs fuel c (trialEvents responses) = Done c' ->
  if Z.ltb 1 (guessesRemainingInRound (context c)) then
    standsAt c' Node.waitingForResponse
      (guessesRemainingInRound (context c) - 1) (currentRound (context c))
  else if Z.leb NUMBER_OF_ROUNDS (currentRound (context c)) then
    finished c' (currentRound (context c))
  else
    standsAt c' Node.startingRound (Z.of_nat TRIALS_PER_ROUND)
      (currentRound (context c) + 1).
Proof.
  intros Hstate H. unfold trialEvents in H.
  apply runEvents_app in H. destruct H as (c1 & Hresponses & H).
  destruct (responses_run _ _ _ _ _ Hstate Hresponses) as (Hstate1 & Hg & Hk).
  simpl in H. apply run_bind_inv in H. destruct H as (c2 & Hstep & H).
  injection H as <-. pose proof (tick_step _ _ _ _ Hstate1 Hstep) as Htick.
  rewrite Hg, Hk in Htick.
  destruct (Z.ltb 1 _); [exact Htick|].
  destruct (Z.leb NUMBER_OF_ROUNDS _); [|exact Htick].
  subst c2. repeat split. simpl. exact Hk.
Qed.

Lemma trials_run (rs : RandomSource) (fuel : nat) (round : list (list Response)) :
  forall c c' : Config,
    inPlayingRound (state c) = true ->
    1 <= guessesRemainingInRound (context c) ->
    Z.of_nat (length round) = guessesRemainingInRound (context c) ->
    runEvents rs fuel c (flat_map trialEvents round) = Done c' ->
    if Z.leb NUMBER_OF_ROUNDS (currentRound (context c)) then
      finished c' (currentRound (context c))
    else
      standsAt c' Node.startingRound (Z.of_nat TRIALS_PER_ROUND)
        (currentRound (context c) + 1).
Proof.
  induction round as [|responses rest IH]; intros c c' Hstate Hpos Hlen H.
  - simpl in Hlen. lia.
  - cbn [flat_map] in H. apply runEvents_app in H.
    destruct H as (c1 & Htrial & H).
    pose proof (trial_run _ _ _ _ _ Hstate Htrial) as Hc1.
    destruct (Z.ltb_spec 1 (guessesRemainingInRound (context c))) as [Hmore|Hlast].
    + destruct Hc1 as (Hstate1 & Hg1 & Hk1).
      rewrite <- Hk1. apply IH; [rewrite Hstate1; reflexivity|lia| |exact H].
      rewrite Hg1. simpl in Hlen. lia.
    + assert (rest = []) as -> by (destruct rest; [reflexivity|simpl in Hlen; lia]).
      simpl in H. injection H as <-. exact Hc1.
Qed.

Lemma round_run (rs : RandomSource) (fuel : nat) (round : list (list Response))
    (c c' : Config) :
  state c = Node.startingRound ->
  guessesRemainingInRound (context c) = Z.of_nat TRIALS_PER_ROUND ->
  length round = TRIALS_PER_ROUND ->
  runEvents rs fuel c (roundEvents round) = Done c' ->
  if Z.leb NUMBER_OF_ROUNDS (currentRound (context c)) then
    finished c' (currentRound (context c))
  else
    standsAt c' Node.startingRound (Z.of_nat TRIALS_PER_ROUND)
      (currentRound (context c) + 1).
Proof.
  intros Hstate Hg Hlen H. unfold roundEvents in H. simpl in H.
  apply run_bind_inv in H. destruct H as (c1 & Hstep & H).
  destruct (after_step _ _ _ _ Hstate Hstep) as (Hstate1 & Hg1 & Hk1).
  rewrite <- Hk1. apply (trials_run rs fuel round c1 c'); try assumption.
  - rewrite Hstate1. reflexivity.
  - rewrite Hg1, Hg. unfold TRIALS_PER_ROUND. lia.
  - rewrite Hg1, Hg, Hlen. reflexivity.
Qed.

Lemma rounds_run (rs : RandomSource) (fuel : nat)
    (rounds : list (list (list Response))) :
  forall c c' : Config,
    state c = Node.startingRound ->
    guessesRemainingInRound (context c) = Z.of_nat TRIALS_PER_ROUND ->
    Forall (fun round => length round = TRIALS_PER_ROUND) rounds ->
    Z.of_nat (length rounds)
      = Z.max 1 (NUMBER_OF_ROUNDS + 1 - currentRound (context c)) ->
    runEvents rs fuel c (flat_map roundEvents rounds) = Done c' ->
    finished c' (currentRound (context c) + Z.of_nat (length rounds) - 1).
Proof.
  induction rounds as [|round rest IH]; intros c c' Hstate Hg Hall Hlen H.
  - simpl in Hlen. lia.
  - cbn [flat_map] in H. apply runEvents_app in H.
    destruct H as (c1 & Hround & H).
    inversion Hall as [|? ? Hfive Hrest]; subst.
    pose proof (round_run _ _ _ _ _ Hstate Hg Hfive Hround) as Hc1.
    unfold NUMBER_OF_ROUNDS in *.
    destruct (Z.leb_spec 4 (currentRound (context c))) as [Hover|Hnext].
    + assert (rest = []) as ->
        by (destruct rest; [reflexivity|simpl length in Hlen; lia]).
      simpl in H. injection H as <-.
      replace (currentRound (context c) + Z.of_nat (length [round]) - 1)
        with (currentRound (context c)) by (simpl; lia).
      exact Hc1.
    + destruct Hc1 as (Hstate1 & Hg1 & Hk1).
      replace (currentRound (context c) + Z.of_nat (length (round :: rest)) - 1)
        with (currentRound (context c1) + Z.of_nat (length rest) - 1)
        by (rewrite Hk1; simpl length; lia).
      apply IH; try assumption. rewrite Hk1. simpl length in Hlen. lia.
Qed.

(** X16. How long a session is. From [idle], whatever the context, the
    random source and the responses given during the trials: after [start]
    and as many rounds of five ticks as [NUMBER_OF_ROUNDS] exceeds the round
    number the context holds, and one round at least, the machine is in
    [gameOver], the round number has grown by the rounds played, and the
    accuracy is the one computed from the rounds recorded. *)
Theorem session_length (rs : RandomSource) (fuel : nat)
    (rounds : list (list (list Response))) (c c' : Config) :
  state c = Node.idle ->
  Forall (fun round => length round = TRIALS_PER_ROUND) rounds ->
  Z.of_nat (length rounds)
    = Z.max 1 (NUMBER_OF_ROUNDS - currentRound (context c)) ->
  runEvents rs fuel c (sessionEvents rounds) = Done c' ->
  state c' = Node.gameOver /\
  currentRound (context c') = currentRound (context c) + Z.of_nat (length rounds) /\
  accuracyScore (context c')
    = Some (calculateAccuracyScore (roundData (context c'))).
Proof.
  intros Hstate Hall Hlen H. unfold sessionEvents in H. simpl in H.
  apply run_bind_inv in H. destruct H as (c1 & Hstep & H).
  destruct (start_step _ _ _ _ Hstate Hstep) as (Hstate1 & Hg1 & Hk1).
  destruct (rounds_run rs fuel rounds c1 c' Hstate1 Hg1 Hall) as (Hs & Hk & Ha);
    [rewrite Hk1; lia|exact H|].
  split; [exact Hs|]. split; [rewrite Hk, Hk1; lia|exact Ha].
Qed.

Lemma session_length_witness :
  exists c',
    runEvents cyclicSource 100 initialConfig
      (sessionEvents [[[]; [match_]; []; []; []]; [[]; []; []; []; []];
                      [[]; []; []; []; []]; [[]; []; []; []; []]]) = Done c' /\
    state c' = Node.gameOver /\ currentRound (context c') = 4.
Proof.
  destruct (runEvents cyclicSource 100 initialConfig
              (sessionEvents [[[]; [match_]; []; []; []]; [[]; []; []; []; []];
                              [[]; []; []; []; []]; [[]; []; []; []; []]]))
    as [c'|f] eqn:Hrun.
  - exists c'. split; [reflexivity|].
    destruct (session_length cyclicSource 100
                [[[]; [match_]; []; []; []]; [[]; []; []; []; []];
                 [[]; []; []; []; []]; [[]; []; []; []; []]]
                initialConfig c' eq_refl) as (Hs & Hk & _);
      [repeat constructor|reflexivity|exact Hrun|].
    split; [exact Hs|exact Hk].
  - vm_compute in Hrun. discriminate.
Defined.

Lemma accuracy_guarded (tr : Transition) :
  In tr allTransitions ->
  ~ In Action.calculateAccuracyScore (actions tr) \/
  (guard tr = Some Guard.inline_roundsPlayed /\
   actions tr = [Action.calculateAccuracyScore]).
Proof.
  intros H. vm_compute in H.
  repeat (destruct H as [<-|H];
          [first [ left; simpl; intuition discriminate
                 | right; split; reflexivity ] |]).
  destruct H.
Qed.

Lemma entry_without_accuracy (entered : list Node.t) :
  ~ In Action.calculateAccuracyScore (flat_map entry entered).
Proof.
  intros H. apply in_flat_map in H. destruct H as (n & _ & H).
  destruct n; simpl in H; intuition discriminate.
Qed.

(** Every action but [calculateAccuracyScore] leaves the accuracy as it is
    and the round number as it is or one higher. *)
Lemma execAction_accuracy (rs : RandomSource) (fuel : nat) (a : Action.t)
    (event : Event.t) (context_ context' : GameContext) (s s' : nat) :
  a <> Action.calculateAccuracyScore ->
  execAction rs fuel a event context_ s = Done (context', s') ->
  accuracyScore context' = accuracyScore context_ /\
  currentRound context_ <= currentRound context'.
Proof.
  intros Ha H. destruct a; simpl in H; try congruence.
  all: try (invert_run; split; [reflexivity|apply Z.eq_le_incl; reflexivity]).
  - split; [|destruct (initialiseNextRound_position _ _ _ _ _ _ H); lia].
    unfold Actions.initialiseNextRound in H. invert_run. reflexivity.
  - destruct event; invert_run; try discriminate.
    unfold Actions.saveUserResponse in H. invert_run.
    split; [reflexivity|apply Z.eq_le_incl; reflexivity].
  - unfold Actions.evaluateGuess in H. invert_run.
    split; [reflexivity|apply Z.eq_le_incl; reflexivity].
Qed.

Lemma execActions_accuracy (rs : RandomSource) (fuel : nat) (event : Event.t)
    (l : list Action.t) :
  ~ In Action.calculateAccuracyScore l ->
  forall (context_ context' : GameContext) (s s' : nat),
    execActions rs fuel l event context_ s = Done (context', s') ->
    accuracyScore context' = accuracyScore context_ /\
    currentRound context_ <= currentRound context'.
Proof.
  induction l as [|a rest IH]; intros Hnone context_ context' s s' H; simpl in H.
  - invert_run. split; [reflexivity|lia].
  - apply bind_inv in H. destruct H as (ctx1 & s1 & Ha & Hrest).
    assert (a <> Action.calculateAccuracyScore) as Hne
      by (intros ->; apply Hnone; left; reflexivity).
    destruct (execAction_accuracy _ _ _ _ _ _ _ _ Hne Ha) as [H1 H2].
    destruct (IH (fun Hin => Hnone (or_intror Hin)) _ _ _ _ Hrest) as [H3 H4].
    split; [congruence|lia].
Qed.

Lemma transition_accuracy (rs : RandomSource) (fuel : nat) (c c' : Config)
    (event : Event.t) :
  accuracyInvariant c -> transition rs fuel c event = Done c' ->
  accuracyInvariant c'.
Proof.
  intros [Hnone Hover] Hstep.
  destruct (transition_inv _ _ _ _ _ Hstep)
    as [->|(n & tr & Hn & Htr & Hguard & Hexec & Hstate)];
    [split; assumption|].
  simpl in Hexec, Hstate.
  destruct (accuracy_guarded tr (allTransitions_complete _ _ _ Htr))
    as [Hfree|[Hg Hactions]].
  - destruct (execActions_accuracy rs fuel event _
                (fun Hin => match in_app_or _ _ _ Hin with
                            | or_introl H1 => Hfree H1
                            | or_intror H2 => entry_without_accuracy _ H2
                            end) _ _ _ _ Hexec) as [Hsame Hround].
    split.
    + rewrite Hsame. intros H. specialize (Hnone H). lia.
    + intros Hgo. rewrite Hgo in Hstate. symmetry in Hstate.
      destruct (Node.eqb (state c) Node.gameOver) eqn:Hwas.
      * assert (state c = Node.gameOver) as Hc
          by (destruct (state c); try discriminate; reflexivity).
        rewrite Hc in Hn, Hstate.
        rewrite (leaving_gameOver n event tr Hn Htr) in Hstate. discriminate.
      * assert (state c <> Node.gameOver) as Hc
          by (intros Heq; rewrite Heq in Hwas; discriminate).
        destruct (entering_gameOver _ _ _ _ Hc Hn Htr Hstate) as [_ ->].
        exfalso. apply Hfree. left. reflexivity.
  - specialize (Hguard _ Hg). simpl in Hguard. injection Hguard as Hguard.
    apply Z.leb_le in Hguard.
    destruct tr as [g l t]. simpl in Hg, Hactions. subst g l.
    assert (t = Some Node.gameOver) as ->.
    { pose proof (allTransitions_complete _ _ _ Htr) as Hall. vm_compute in Hall.
      repeat (destruct Hall as [Hall|Hall];
              [try discriminate Hall; injection Hall as <-; reflexivity|]).
      destruct Hall. }
    assert (n = Node.playingRound) as ->.
    { destruct n; destruct event; simpl in Htr;
        repeat (destruct Htr as [Htr|Htr]; try discriminate Htr);
        try contradiction; reflexivity. }
    simpl in Hexec. unfold bind, ret in Hexec. injection Hexec as Hcontext _.
    unfold accuracyInvariant. rewrite <- Hcontext. simpl.
    split; [intros _; exact Hguard|].
    intros _. split; [exact Hguard|reflexivity].
Qed.

Lemma reachable_accuracy (rs : RandomSource) (c : Config) :
  reachable rs c -> accuracyInvariant c.
Proof.
  induction 1 as [|c event fuel c' _ IH Hstep].
  - split; [intros H; exfalso; apply H; reflexivity|intros H; discriminate H].
  - exact (transition_accuracy rs fuel c c' event IH Hstep).
Qed.

(** X14. The ledger of a session. In every configuration a session can
    reach, on every random source: the rounds recorded are those numbered 1
    to [currentRound]; in every round record the knight stands on a square,
    the five stimuli created at round start are different squares, and every
    record, the appended ones included, repeats one of them with the flag
    that [isReachable] gives it; while a round is on, the context names the
    knight square and the stimuli of the current round; and while a trial is
    on display, the square shown is the stimulus at the index of the current
    trial. *)
Theorem session_bookkeeping (rs : RandomSource) (c : Config) :
  reachable rs c ->
  (forall k, is_Some (roundData (context c) !! k)
             <-> 1 <= k <= currentRound (context c)) /\
  (forall k round, roundData (context c) !! k = Some round -> roundRecord round) /\
  (inRound (state c) = true -> bookedRound (context c)) /\
  (inPlayingRound (state c) = true -> shown (context c)).
Proof.
  intros Hc.
  destruct (reachable_bookkeeping rs c Hc)
    as ((_ & [_ Hnumbered] & Hrecords) & Hbooked & Hshown).
  split; [exact Hnumbered|]. split; [exact Hrecords|]. split; assumption.
Qed.

Lemma session_bookkeeping_witness :
  exists c,
    reachable cyclicSource c /\ state c = Node.falseAlarm /\
    roundRecord (mkRound "d4"
                   (firstRoundTrials ++
                    [mkTrial "c5" false None (Some correctRejection);
                     mkTrial "c5" false (Some match_) None;
                     mkTrial "c5" false None (Some correctRejection)])) /\
    shown (context c).
Proof.
  assert (reachable cyclicSource initialConfig) as H0 by constructor.
  destruct (runEvents cyclicSource 100 initialConfig
              [Event.start; Event.after_3000; Event.tick;
               Event.userResponse match_]) as [c|f] eqn:Hrun.
  - assert (reachable cyclicSource c) as Hc
      by exact (reachable_runEvents cyclicSource 100%nat _ initialConfig c H0 Hrun).
    destruct (session_bookkeeping cyclicSource c Hc) as (_ & Hrecords & _ & Hshown).
    vm_compute in Hrun. injection Hrun as <-.
    eexists. split; [exact Hc|]. split; [reflexivity|].
    split; [exact (Hrecords 1 _ eq_refl)|exact (Hshown eq_refl)].
  - vm_compute in Hrun. discriminate.
Defined.

Lemma userResponse_feedback_witness :
  exists c c',
    reachable cyclicSource c /\ state c = Node.waitingForResponse /\
    currentSquare (context c) = Some "h2" /\
    transition cyclicSource 100 c (Event.userResponse match_) = Done c' /\
    state c' = Node.falseAlarm /\
    transition cyclicSource 100 c' (Event.userResponse match_) = Done c'.
Proof.
  assert (reachable cyclicSource initialConfig) as H0 by constructor.
  destruct (runEvents cyclicSource 100 initialConfig
              [Event.start; Event.after_3000]) as [c|f] eqn:Hrun.
  - assert (reachable cyclicSource c) as Hc
      by exact (reachable_runEvents cyclicSource 100%nat _ initialConfig c H0 Hrun).
    assert (state c = Node.waitingForResponse) as Hstate
      by (vm_compute in Hrun; injection Hrun as <-; reflexivity).
    destruct (userResponse_feedback cyclicSource 100 c match_ match_ Hc Hstate)
      as (round & trial & c' & Hround & Htrial & Hsquare & Hstep & Hstate' & _ & _
          & Hagain).
    exists c, c'. split; [exact Hc|]. split; [exact Hstate|].
    assert (trial = mkTrial "h2" false None None) as ->.
    { vm_compute in Hrun. injection Hrun as <-. vm_compute in Hround.
      injection Hround as <-. vm_compute in Htrial. injection Htrial as <-.
      reflexivity. }
    repeat split; assumption.
  - vm_compute in Hrun. discriminate.
Defined.

(** X17. No accuracy is computed before the round number has reached
    [NUMBER_OF_ROUNDS], and in [gameOver] the accuracy held by the context
    is [calculateAccuracyScore] of the rounds recorded. *)
Theorem accuracy_computed_at_gameOver (rs : RandomSource) (c : Config) :
  reachable rs c ->
  (accuracyScore (context c) <> None ->
   NUMBER_OF_ROUNDS <= currentRound (context c)) /\
  (state c = Node.gameOver ->
   accuracyScore (context c)
     = Some (calculateAccuracyScore (roundData (context c)))).
Proof.
  intros Hc. destruct (reachable_accuracy rs c Hc) as [Hnone Hover].
  split; [exact Hnone|]. intros Hstate. exact (proj2 (Hover Hstate)).
Qed.

Lemma accuracy_computed_at_gameOver_witness :
  exists c,
    reachable cyclicSource c /\ state c = Node.gameOver /\
    accuracyScore (context c)
      = Some (calculateAccuracyScore (roundData (context c))).
Proof.
  assert (reachable cyclicSource initialConfig) as H0 by constructor.
  destruct (runEvents cyclicSource 100 initialConfig silentSession)
    as [c|f] eqn:Hrun.
  - assert (reachable cyclicSource c) as Hc
      by exact (reachable_runEvents cyclicSource 100%nat _ initialConfig c H0 Hrun).
    assert (state c = Node.gameOver) as Hstate
      by (vm_compute in Hrun; injection Hrun as <-; reflexivity).
    exists c. split; [exact Hc|]. split; [exact Hstate|].
    exact (proj2 (accuracy_computed_at_gameOver cyclicSource c Hc) Hstate).
  - vm_compute in Hrun. discriminate.
Defined.

Lemma runEvents_fault_kind (rs : RandomSource) (fuel : nat)
    (events : list Event.t) :
  unitRange rs ->
  forall (c : Config) (f : fault),
    reachable rs c -> runEvents rs fuel c events = Fault f -> f = OutOfFuel.
Proof.
  intros Hrange. induction events as [|event rest IH]; intros c f Hc H;
    simpl in H; [discriminate|].
  destruct (transition rs fuel c event) as [c1|f1] eqn:Hstep; simpl in H.
  - apply (IH c1 f); [|exact H]. eapply reachable_step; eassumption.
  - injection H as <-.
    exact (transition_fault_kind rs fuel c event f1 Hrange
             (reachable_sessionInvariant rs c Hrange Hc) Hstep).
Qed.

(** X18. What "Play Again" gives. From a [gameOver] configuration that a
    session can reach, [restart], [start] and one round of five ticks,
    whatever the responses in between, lead when they complete to
    [gameOver] again, with the round number one higher: the context is not
    reset, so the session that follows ends after one round and not four.
    They need not complete: the round generator can fail to return
    ([start_can_freeze]); with draws in the unit interval that is the only
    way. *)
Theorem replay_lasts_one_round (rs : RandomSource) (fuel : nat)
    (round : list (list Response)) (c : Config) :
  reachable rs c -> state c = Node.gameOver ->
  length round = TRIALS_PER_ROUND ->
  match runEvents rs fuel c (Event.restart :: sessionEvents [round]) with
  | Done c' =>
      state c' = Node.gameOver /\
      currentRound (context c') = currentRound (context c) + 1
  | Fault f => unitRange rs -> f = OutOfFuel
  end.
Proof.
  intros Hc Hstate Hfive.
  destruct (runEvents rs fuel c (Event.restart :: sessionEvents [round]))
    as [c'|f] eqn:H;
    [|intros Hrange; exact (runEvents_fault_kind rs fuel _ Hrange c f Hc H)].
  destruct (reachable_accuracy rs c Hc) as [_ Hover].
  destruct (Hover Hstate) as [Hrounds _].
  destruct c as [st context_ calls_]. simpl in Hstate, Hrounds. subst st.
  cbn [context]. unfold sessionEvents in H.
  change (runEvents rs fuel (mkConfig Node.gameOver context_ calls_)
            (Event.restart :: Event.start :: flat_map roundEvents [round]))
    with (do c1 <- transition rs fuel (mkConfig Node.idle context_ calls_)
                     Event.start;
          runEvents rs fuel c1 (flat_map roundEvents [round])) in H.
  apply run_bind_inv in H. destruct H as (c1 & Hstep & H).
  destruct (start_step rs fuel (mkConfig Node.idle context_ calls_) c1
              eq_refl Hstep) as (Hstate1 & Hg1 & Hk1).
  cbn [context] in Hk1.
  destruct (rounds_run rs fuel [round] c1 c' Hstate1 Hg1) as (Hs & Hk & _);
    [constructor; [exact Hfive|constructor]
    |rewrite Hk1; unfold NUMBER_OF_ROUNDS in *; simpl length; lia
    |exact H|].
  split; [exact Hs|]. rewrite Hk, Hk1. simpl length. lia.
Qed.

Lemma replay_lasts_one_round_witness :
  exists c c',
    reachable cyclicSource c /\ state c = Node.gameOver /\
    currentRound (context c) = 4 /\
    runEvents cyclicSource 100 c
      (Event.restart :: sessionEvents [[[]; []; [match_]; []; []]]) = Done c' /\
    state c' = Node.gameOver /\ currentRound (context c') = 5.
Proof.
  assert (reachable cyclicSource initialConfig) as H0 by constructor.
  destruct (runEvents cyclicSource 100 initialConfig silentSession)
    as [c|f] eqn:Hrun.
  - assert (reachable cyclicSource c) as Hc
      by exact (reachable_runEvents cyclicSource 100%nat _ initialConfig c H0 Hrun).
    assert (state c = Node.gameOver /\ currentRound (context c) = 4)
      as [Hstate Hfour]
      by (vm_compute in Hrun; injection Hrun as <-; split; reflexivity).
    pose proof (replay_lasts_one_round cyclicSource 100
                  [[]; []; [match_]; []; []] c Hc Hstate eq_refl) as Hreplay.
    destruct (runEvents cyclicSource 100 c
                (Event.restart :: sessionEvents [[[]; []; [match_]; []; []]]))
      as [c'|f] eqn:Hdone.
    + exists c, c'. split; [exact Hc|]. split; [exact Hstate|].
      split; [exact Hfour|]. split; [exact Hdone|].
      destruct Hreplay as [Hs Hk].
      split; [exact Hs|]. rewrite Hk, Hfour. reflexivity.
    + vm_compute in Hrun. injection Hrun as <-. vm_compute in Hdone.
      discriminate.
  - vm_compute in Hrun. discriminate.
Defined.

Lemma playingRound_tick_witness :
  exists c c',
    runEvents cyclicSource 100 initialConfig [Event.start; Event.after_3000]
      = Done c /\
    transition cyclicSource 100 c Event.tick = Done c' /\
    state c' = Node.waitingForResponse /\
    guessesRemainingInRound (context c') = 4 /\
    currentSquare (context c') = Some "c5".
Proof.
  destruct (runEvents cyclicSource 100 initialConfig
              [Event.start; Event.after_3000]) as [c|f] eqn:Hrun.
  - destruct (transition cyclicSource 100 c Event.tick) as [c'|f] eqn:Hstep.
    + exists c, c'. split; [reflexivity|]. split; [exact Hstep|].
      assert (state c = Node.waitingForResponse /\
              guessesRemainingInRound (context c) = 5 /\
              positionsForRound (context c) = ["h2"; "c5"; "b5"; "e2"; "f8"]%string)
        as (Hstate & Hfive & Hpositions)
        by (vm_compute in Hrun; injection Hrun as <-; repeat split).
      destruct c as [st context_ calls_]. simpl in Hstate, Hfive, Hpositions.
      subst st.
      destruct (playingRound_tick cyclicSource 100 Node.waitingForResponse
                  context_ calls_ c' eq_refl) as
        (round & trial & isTarget' & _ & _ & _ & Hstate' & _ & Hg & Hsquare & _);
        [lia|exact Hstep|].
      split; [exact Hstate'|]. split; [lia|].
      rewrite Hsquare, Hpositions, Hfive. reflexivity.
    + vm_compute in Hrun. injection Hrun as <-. vm_compute in Hstep.
      discriminate.
  - vm_compute in Hrun. discriminate.
Defined.

(** ** The view and the voice *)

Lemma active_step (st n : Node.t) (event : Event.t) (tr : Transition) :
  activeState st = true ->
  In n (st :: ancestors st) -> In tr (on n event) ->
  let entered := match target tr with
                 | Some target_ => enteredNodes n target_
                 | None => []
                 end in
  activeState (List.last entered st) = true /\
  existsb writesCountdown (actions tr ++ flat_map entry entered) = false.
Proof.
  intros Hst Hn Htr.
  destruct st; try discriminate Hst; simpl in Hn;
    repeat (destruct Hn as [<-|Hn]); try contradiction;
    destruct event; simpl in Htr;
    repeat (destruct Htr as [<-|Htr]); try contradiction;
    vm_compute; split; reflexivity.
Qed.

Lemma execAction_fixed (rs : RandomSource) (fuel : nat) (a : Action.t)
    (event : Event.t) (context_ context' : GameContext) (s s' : nat) :
  writesCountdown a = false ->
  execAction rs fuel a event context_ s = Done (context', s') ->
  countdown context' = countdown context_ /\
  (currentGuess context_ = None -> currentGuess context' = None).
Proof.
  intros Ha H. destruct a; simpl in H; try discriminate Ha.
  all: try (invert_run; split; [reflexivity|intros Hg; first [exact Hg|reflexivity]]).
  - unfold Actions.initialiseNextRound in H. invert_run.
    split; [reflexivity|intros Hg; exact Hg].
  - destruct event; invert_run; try discriminate.
    unfold Actions.saveUserResponse in H. invert_run.
    split; [reflexivity|intros Hg; exact Hg].
  - unfold Actions.evaluateGuess in H. invert_run.
    split; [reflexivity|intros Hg; exact Hg].
Qed.

Lemma execActions_fixed (rs : RandomSource) (fuel : nat) (event : Event.t)
    (l : list Action.t) :
  existsb writesCountdown l = false ->
  forall (context_ context' : GameContext) (s s' : nat),
    execActions rs fuel l event context_ s = Done (context', s') ->
    countdown context' = countdown context_ /\
    (currentGuess context_ = None -> currentGuess context' = None).
Proof.
  induction l as [|a rest IH]; intros Hnone context_ context' s s' H; simpl in H.
  - invert_run. split; [reflexivity|intros Hg; exact Hg].
  - simpl in Hnone. apply orb_false_iff in Hnone. destruct Hnone as [Ha Hrest].
    apply bind_inv in H. destruct H as (ctx1 & s1 & Hstep & H).
    destruct (execAction_fixed _ _ _ _ _ _ _ _ Ha Hstep) as [H1 H2].
    destruct (IH Hrest _ _ _ _ H) as [H3 H4].
    split; [congruence|intros Hg; exact (H4 (H2 Hg))].
Qed.

Lemma reachable_active (rs : RandomSource) (c : Config) :
  reachable rs c ->
  activeState (state c) = true /\ countdown (context c) = 3 /\
  currentGuess (context c) = None.
Proof.
  induction 1 as [|c event fuel c' _ (IHs & IHc & IHg) Hstep];
    [repeat split|].
  destruct (transition_inv _ _ _ _ _ Hstep)
    as [->|(n & tr & Hn & Htr & _ & Hexec & Hstate)];
    [repeat split; assumption|].
  simpl in Hexec, Hstate.
  destruct (active_step (state c) n event tr IHs Hn Htr) as [Hactive Hnone].
  simpl in Hactive, Hnone.
  destruct (execActions_fixed _ _ _ _ Hnone _ _ _ _ Hexec) as [Hc Hg].
  rewrite Hstate. split; [exact Hactive|]. split; [congruence|exact (Hg IHg)].
Qed.

(** X19. In every configuration a session can reach, [countdown] is 3 and
    [currentGuess] is undefined, as in the initial context, and the active
    state is one of idle, startingRound, waitingForResponse, hit, falseAlarm
    and gameOver: the actions that write the countdown belong to a state no
    session enters, and [clearCurrentGuess] is the only action that writes
    the guess. *)
Theorem countdown_and_guess_never_written (rs : RandomSource) (c : Config) :
  reachable rs c ->
  countdown (context c) = 3 /\ currentGuess (context c) = None /\
  In (state c) [Node.idle; Node.startingRound; Node.waitingForResponse;
                Node.hit; Node.falseAlarm; Node.gameOver].
Proof.
  intros Hc. destruct (reachable_active rs c Hc) as (Hs & Hcount & Hg).
  split; [exact Hcount|]. split; [exact Hg|].
  destruct (state c); try discriminate Hs; simpl; tauto.
Qed.

Lemma countdown_and_guess_never_written_witness :
  exists c,
    reachable cyclicSource c /\ state c = Node.gameOver /\
    countdown (context c) = 3 /\ currentGuess (context c) = None.
Proof.
  assert (reachable cyclicSource initialConfig) as H0 by constructor.
  destruct (runEvents cyclicSource 100 initialConfig silentSession)
    as [c|f] eqn:Hrun.
  - assert (reachable cyclicSource c) as Hc
      by exact (reachable_runEvents cyclicSource 100%nat _ initialConfig c H0 Hrun).
    exists c. split; [exact Hc|].
    split; [vm_compute in Hrun; injection Hrun as <-; reflexivity|].
    destruct (countdown_and_guess_never_written cyclicSource c Hc)
      as (Hcount & Hguess & _).
    split; assumption.
  - vm_compute in Hrun. discriminate.
Defined.

(** X20. In every configuration a session can reach, the component
    renders one of its three blocks: the one with the Match button while a
    round is on, the one with the Start button in [idle], the one with the
    accuracy in [gameOver]. *)
Theorem one_panel_rendered (rs : RandomSource) (c : Config) :
  reachable rs c ->
  App.panels (state c) =
    [if inRound (state c) then App.playPanel
     else if Node.eqb (state c) Node.idle then App.startPanel
     else App.gameOverPanel].
Proof.
  intros Hc. destruct (reachable_active rs c Hc) as (Hs & _).
  destruct (state c); try discriminate Hs; reflexivity.
Qed.

Lemma one_panel_rendered_witness :
  exists c,
    reachable cyclicSource c /\ state c = Node.startingRound /\
    App.panels (state c) = [App.playPanel].
Proof.
  assert (reachable cyclicSource initialConfig) as H0 by constructor.
  destruct (transition cyclicSource 100 initialConfig Event.start)
    as [c|f] eqn:Hstep.
  - assert (reachable cyclicSource c) as Hc
      by exact (reachable_step cyclicSource initialConfig Event.start 100%nat c
                  H0 Hstep).
    assert (state c = Node.startingRound) as Hstate
      by (vm_compute in Hstep; injection Hstep as <-; reflexivity).
    exists c. split; [exact Hc|]. split; [exact Hstate|].
    rewrite (one_panel_rendered cyclicSource c Hc), Hstate. reflexivity.
  - vm_compute in Hstep. discriminate.
Defined.

Lemma utteranceCheck_all :
  forallb (fun s1 =>
             forallb (fun s2 =>
                        implb (String.eqb (replace "a" "ae" s1)
                                          (replace "a" "ae" s2))
                              (String.eqb s1 s2))
                     squares)
          squares = true.
Proof. vm_compute. reflexivity. Qed.

(** X22. What [announceSquare] says names the square: two contexts that
    show squares and for which the same text is spoken show the same square,
    and the voice is enabled in both. *)
Theorem utterance_names_the_square (context1 context2 : GameContext)
    (s1 s2 u : string) :
  isSquare s1 -> isSquare s2 ->
  currentSquare context1 = Some s1 -> currentSquare context2 = Some s2 ->
  announceSquare_utterance context1 = Some u ->
  announceSquare_utterance context2 = Some u ->
  s1 = s2 /\ voiceEnabled context1 = true /\ voiceEnabled context2 = true.
Proof.
  intros Hs1 Hs2 Hc1 Hc2 Hu1 Hu2. unfold announceSquare_utterance in Hu1, Hu2.
  rewrite Hc1 in Hu1. rewrite Hc2 in Hu2.
  destruct (voiceEnabled context1); [|discriminate].
  destruct (voiceEnabled context2); [|discriminate].
  simpl in Hu1, Hu2.
  destruct (String.eqb s1 ""); [discriminate|].
  destruct (String.eqb s2 ""); [discriminate|].
  simpl in Hu1, Hu2. injection Hu1 as Hu1. injection Hu2 as Hu2.
  split; [|split; reflexivity].
  pose proof utteranceCheck_all as Hcheck.
  rewrite forallb_forall in Hcheck.
  specialize (Hcheck s1 (proj1 (list_elem_of_In _ _) Hs1)).
  rewrite forallb_forall in Hcheck.
  specialize (Hcheck s2 (proj1 (list_elem_of_In _ _) Hs2)).
  rewrite Hu1, Hu2, String.eqb_refl in Hcheck. simpl in Hcheck.
  apply String.eqb_eq, Hcheck.
Qed.

Lemma utterance_names_the_square_witness :
  isSquare "a1" /\
  announceSquare_utterance (set_currentSquare (Some "a1") initialContext)
    = Some "ae1" /\
  "a1" = "a1" /\ voiceEnabled initialContext = true.
Proof.
  assert (isSquare "a1") as Ha by (apply includes_elem_of; reflexivity).
  split; [exact Ha|]. split; [reflexivity|].
  destruct (utterance_names_the_square
              (set_currentSquare (Some "a1") initialContext)
              (set_currentSquare (Some "a1") initialContext)
              "a1" "a1" "ae1" Ha Ha eq_refl eq_refl eq_refl eq_refl)
    as (Hs & Hv & _).
  split; [exact Hs|exact Hv].
Defined.

Lemma last_two {A} (l : list A) (x y d : A) :
  List.last (l ++ [x; y])%list d = y.
Proof.
  change (l ++ [x; y])%list with (l ++ [x] ++ [y])%list.
  rewrite app_assoc. apply last_last.
Qed.

(** X21. The key "l" while a trial waits for a response, in any
    configuration a session can reach. The Match button takes the colour
    success when the trial on display is a target and error when it is not,
    while the record appended last carries the outcome of an unanswered
    trial, miss for the target and correctRejection otherwise. Any key
    after that leaves the configuration as it is, and so does any key but
    "l" before. *)
Theorem match_key_feedback (rs : RandomSource) (fuel : nat) (c : Config) :
  reachable rs c -> state c = Node.waitingForResponse ->
  exists round trial c',
    roundData (context c) !! currentRound (context c) = Some round /\
    currentTrialOf (context c) round = Some trial /\
    App.handleKeyDown rs fuel c "l" = Done c' /\
    App.color (state c') = (if isTarget trial then App.success else App.error) /\
    (exists round',
        roundData (context c') !! currentRound (context c') = Some round' /\
        outcome (List.last (trials round') trial)
          = Some (if isTarget trial then miss else correctRejection)) /\
    (forall key, App.handleKeyDown rs fuel c' key = Done c') /\
    (forall key, key <> "l" -> App.handleKeyDown rs fuel c key = Done c).
Proof.
  intros Hc Hstate.
  destruct (respond_step rs fuel c match_ Hc Hstate)
    as (round & trial & Hround & Htrial & _ & Hstep).
  match type of Hstep with _ = Done ?result => remember result as c' eqn:Hc' end.
  assert (state c' = (if isTarget trial then Node.hit else Node.falseAlarm))
    as Hstate' by (rewrite Hc'; reflexivity).
  assert (context c' =
          set_roundData
            (<[currentRound (context c) :=
                 mkRound (round_piecePositionForRound round)
                   (trials round ++
                    [mkTrial (stimulus trial) (isTarget trial) (Some match_) None;
                     mkTrial (stimulus trial) (isTarget trial) None
                       (Some (if isTarget trial then miss
                              else correctRejection))])]>
               (roundData (context c)))
            (context c)) as Hcontext by (rewrite Hc'; reflexivity).
  assert (transition rs fuel c' (Event.userResponse match_) = Done c') as Hagain
    by (rewrite Hc'; destruct (isTarget trial); reflexivity).
  exists round, trial, c'. split; [exact Hround|]. split; [exact Htrial|].
  split; [unfold App.handleKeyDown; rewrite Hstate; exact Hstep|].
  split; [rewrite Hstate'; destruct (isTarget trial); reflexivity|].
  split; [|split].
  - eexists. rewrite Hcontext. cbn [roundData currentRound set_roundData].
    rewrite lookup_insert_eq. split; [reflexivity|]. cbn [trials].
    rewrite last_two. reflexivity.
  - intros key. unfold App.handleKeyDown. rewrite Hstate'.
    destruct (isTarget trial); cbn [App.matches Node.eqb isDescendant ancestors
      ancestorsWithin parent existsb orb];
      (destruct (String.eqb key "l"); [exact Hagain|reflexivity]).
  - intros key Hkey. unfold App.handleKeyDown. rewrite Hstate.
    cbn [App.matches Node.eqb isDescendant ancestors ancestorsWithin parent
         existsb orb].
    destruct (String.eqb_spec key "l"); [contradiction|reflexivity].
Qed.

Lemma match_key_feedback_witness :
  exists c c',
    reachable cyclicSource c /\ state c = Node.waitingForResponse /\
    currentSquare (context c) = Some "h2" /\
    App.handleKeyDown cyclicSource 100 c "l" = Done c' /\
    App.color (state c') = App.error.
Proof.
  assert (reachable cyclicSource initialConfig) as H0 by constructor.
  destruct (runEvents cyclicSource 100 initialConfig
              [Event.start; Event.after_3000]) as [c|f] eqn:Hrun.
  - assert (reachable cyclicSource c) as Hc
      by exact (reachable_runEvents cyclicSource 100%nat _ initialConfig c H0 Hrun).
    assert (state c = Node.waitingForResponse) as Hstate
      by (vm_compute in Hrun; injection Hrun as <-; reflexivity).
    destruct (match_key_feedback cyclicSource 100 c Hc Hstate)
      as (round & trial & c' & Hround & Htrial & Hkey & Hcolor & _).
    exists c, c'. split; [exact Hc|]. split; [exact Hstate|].
    assert (currentSquare (context c) = Some "h2" /\
            trial = mkTrial "h2" false None None) as [Hsquare ->].
    { vm_compute in Hrun. injection Hrun as <-. vm_compute in Hround.
      injection Hround as <-. vm_compute in Htrial. injection Htrial as <-.
      split; reflexivity. }
    split; [exact Hsquare|]. split; [exact Hkey|exact Hcolor].
  - vm_compute in Hrun. discriminate.
Defined.
